(** * Item-item collaborative filtering under a push attack and a clipping defense

    A shallow embedding of [backend/recommender.py]: the rating table, the
    construction of [ItemItemCFModel] (id mappings, rating matrix, cosine
    similarity, popularity list), [recommend], [simulate_attack] and
    [apply_defense], followed by the properties of these functions.

    Conventions of the embedding.
    - A pandas DataFrame of ratings is the list of its rows in positional
      order; where the source relies on index labels ([groupby.apply]
      followed by re-alignment) the labels are modelled explicitly.
    - numpy/pandas floating-point values are modelled by exact rationals
      ([Q]); rounding, NaN and infinities are outside the model.  Equality
      tests on values are therefore [Qeq] tests.
    - Library and network calls whose result is not fixed by the source
      (numpy's square root on non-squares, the seeded random draw, the
      default [argsort], the TMDB poster lookup) are fields of the class
      [Environment]; what numpy documents about them is stated as laws and
      assumed only by the theorems that need it. *)

From Stdlib Require Import QArith Qminmax Qabs Lqa Lia.
From stdpp Require Import gmap strings list fin_maps sorting.

(** ** Rationals as the model of float values *)

Definition Qltb (x y : Q) : bool := if Qlt_le_dec x y then true else false.

#[global] Instance Qlt_decision (x y : Q) : Decision (x < y)%Q :=
  match Qlt_le_dec x y with
  | left Hlt => left Hlt
  | right Hle => right (Qle_not_lt _ _ Hle)
  end.

Definition Qsum (l : list Q) : Q := foldr Qplus 0%Q l.

(** [np.dot] of two vectors. *)
Definition dot (a b : list Q) : Q := Qsum (zip_with Qmult a b).

(** [np.clip(x, lo, hi)], that is [np.minimum(np.maximum(x, lo), hi)];
    numpy does not check [lo <= hi]. *)
Definition np_clip (x lo hi : Q) : Q := Qmin (Qmax x lo) hi.

(** [np.mean] of a vector. *)
Definition np_mean (l : list Q) : Q := (Qsum l / inject_Z (Z.of_nat (length l)))%Q.

(** Boolean-mask indexing [a[mask]]. *)
Fixpoint mask_select {A} (l : list A) (mask : list bool) : list A :=
  match l, mask with
  | x :: l', b :: mask' =>
      if b then x :: mask_select l' mask' else mask_select l' mask'
  | _, _ => []
  end.

(** Python slice [l[:k]] for an integer [k] of either sign. *)
Definition py_slice_to {A} (k : Z) (l : list A) : list A :=
  if bool_decide (0 ≤ k)%Z then take (Z.to_nat k) l
  else take (length l - Z.to_nat (- k)) l.

(** pandas [Series.unique()]: the distinct values, in order of first
    appearance. *)
Fixpoint unique (l : list Z) : list Z :=
  match l with
  | [] => []
  | x :: t => x :: filter (λ y, y ≠ x) (unique t)
  end.

(** Python [sorted] on integers. *)
Definition sorted (l : list Z) : list Z := merge_sort Z.le l.

(** A dict comprehension [{k: v for (k, v) in pairs}]: later pairs
    overwrite earlier ones. *)
Definition dict_of `{Countable K} {V} (pairs : list (K * V)) : gmap K V :=
  foldl (λ d kv, <[kv.1 := kv.2]> d) ∅ pairs.

(** Stable insertion sort by a boolean "comes first or ties" relation,
    the model of pandas' multi-key [sort_values] (a stable lexsort). *)
Fixpoint insert_by {A} (before : A → A → bool) (x : A) (l : list A) : list A :=
  match l with
  | [] => [x]
  | y :: t => if before x y then x :: y :: t else y :: insert_by before x t
  end.

Definition sort_by {A} (before : A → A → bool) (l : list A) : list A :=
  foldr (insert_by before) [] l.

(** ** The rating table *)

Record Rating := mkRating { user_id : Z; item_id : Z; rating : Q }.

Abbreviation DataFrame := (list Rating).

(** One row of [groupby("item_id")["rating"].agg(["mean","count"])]. *)
Record MovieStat := mkStat { ms_item_id : Z; ms_mean : Q; ms_count : nat }.

(** One recommendation dict. *)
Record Rec := mkRec {
  rec_item_id : Z; rec_title : string; rec_poster_url : string; rec_score : Q }.

(** ** What the source takes from numpy and from the network *)

Class Environment := {
  (** [np.sqrt] as used by [np.linalg.norm] and [ndarray.std] *)
  np_sqrt : Q → Q;
  (** [np.random.default_rng(42).choice(a, size=n, replace=False)];
      [None] stands for numpy's [ValueError] *)
  rng_choice : list Z → Z → option (list Z);
  (** [np.argsort] with its default (quicksort, not stable) kind *)
  np_argsort : list Q → list nat;
  (** the TMDB poster lookup of [fetch_poster_url] *)
  fetch_poster_url : string → string }.

Definition key_at (keys : list Q) (a : nat) : Q := default 0%Q (keys !! a).

Section Laws.
Context `{Environment}.

Definition sqrt_zero : Prop := ∀ x, (x == 0)%Q → (np_sqrt x == 0)%Q.

(** A draw of [n] entries without replacement is a sub-multiset of the
    population with [n] elements. *)
Definition choice_without_replacement : Prop :=
  ∀ l n, (0 ≤ n ≤ Z.of_nat (length l))%Z →
    ∃ r, rng_choice l n = Some r ∧ length r = Z.to_nat n ∧ r ⊆+ l.

(** [argsort] returns a permutation of the positions that lists the keys
    in ascending order. *)
Definition argsort_sorts : Prop :=
  ∀ keys,
    np_argsort keys ≡ₚ seq 0 (length keys) ∧
    ∀ p q a b, p < q → np_argsort keys !! p = Some a →
      np_argsort keys !! q = Some b → (key_at keys a <= key_at keys b)%Q.
End Laws.

(** ** ItemItemCFModel *)

Record ItemItemCFModel := mkModel {
  ratings : DataFrame;
  movie_titles : gmap Z string;
  user_to_idx : gmap Z nat;
  idx_to_user : gmap nat Z;
  item_to_idx : gmap Z nat;
  idx_to_item : gmap nat Z;
  n_items : nat;
  R : list (list Q);
  sim : list (list Q);
  popular_items : list Rec }.

(** [np.zeros((n, m))] *)
Definition zeros (n m : nat) : list (list Q) := replicate n (replicate m 0%Q).

(** The scatter loop [R[u, i] = row.rating] over [ratings.itertuples()];
    a missing key would be a [KeyError], which the construction of the two
    dicts from the same table rules out. *)
Definition scatter (u2i i2i : gmap Z nat) (M : list (list Q)) (row : Rating)
    : list (list Q) :=
  match u2i !! user_id row, i2i !! item_id row with
  | Some u, Some i => alter (λ r, <[i := rating row]> r) u M
  | _, _ => M
  end.

Definition build_R (df : DataFrame) (u2i i2i : gmap Z nat) (n_users n_it : nat)
    : list (list Q) :=
  foldl (scatter u2i i2i) (zeros n_users n_it) df.

(** Entry [M[i, j]] of a matrix, read as 0 outside its shape. *)
Definition matrix_at (M : list (list Q)) (i j : nat) : Q :=
  default 0%Q (M !! i ≫= (.!! j)).

(** Column [M[:, j]]. *)
Definition column (M : list (list Q)) (j : nat) : list Q :=
  (λ row, default 0%Q (row !! j)) <$> M.

Definition eps8 : Q := 1 # 100000000.
Definition eps6 : Q := 1 # 1000000.

(** Ratings of one item, in table order ([groupby("item_id")["rating"]]). *)
Definition item_ratings (df : DataFrame) (it : Z) : list Q :=
  rating <$> filter (λ r, item_id r = it) df.

Definition movie_stats (df : DataFrame) : list MovieStat :=
  (λ it, mkStat it (np_mean (item_ratings df it)) (length (item_ratings df it)))
    <$> sorted (unique (item_id <$> df)).

(** [sort_values(by=["mean","count"], ascending=[False, False])]:
    [a] may precede [b]. *)
Definition stat_before (a b : MovieStat) : bool :=
  Qltb (ms_mean b) (ms_mean a) ||
  (Qeq_bool (ms_mean a) (ms_mean b) && bool_decide (ms_count b ≤ ms_count a)).

Section Model.
Context `{Environment}.

(** [np.linalg.norm(R, axis=0)] with the zero guard
    [norms[norms == 0] = 1e-8]. *)
Definition norms (M : list (list Q)) (n_it : nat) : list Q :=
  (λ j, let n := np_sqrt (dot (column M j) (column M j)) in
        if Qeq_bool n 0 then eps8 else n) <$> seq 0 n_it.

(** [S = clip((R.T @ R) / (norms[None, :] * norms[:, None]), -1, 1)] *)
Definition similarity (M : list (list Q)) (n_it : nat) : list (list Q) :=
  let ns := norms M n_it in
  (λ i, (λ j,
      np_clip (dot (column M i) (column M j)
               / (default 0 (ns !! j) * default 0 (ns !! i)))%Q (-1) 1)
    <$> seq 0 n_it) <$> seq 0 n_it.

Definition popular_entry (titles : gmap Z string) (s : MovieStat) : Rec :=
  let title := default EmptyString (titles !! ms_item_id s) in
  mkRec (ms_item_id s) title (fetch_poster_url title) (ms_mean s).

Definition build_popular (df : DataFrame) (titles : gmap Z string) : list Rec :=
  popular_entry titles
    <$> sort_by stat_before (filter (λ s, 20 ≤ ms_count s) (movie_stats df)).

(** [ItemItemCFModel.__init__] *)
Definition ItemItemCFModel_init (ratings_df : DataFrame)
    (titles : gmap Z string) : ItemItemCFModel :=
  let users := sorted (unique (user_id <$> ratings_df)) in
  let items := sorted (unique (item_id <$> ratings_df)) in
  let u2i := dict_of (imap (λ i u, (u, i)) users) in
  let i2i := dict_of (imap (λ j m, (m, j)) items) in
  let n_users := length users in
  let n_it := length items in
  let M := build_R ratings_df u2i i2i n_users n_it in
  {| ratings := ratings_df;
     movie_titles := titles;
     user_to_idx := u2i;
     idx_to_user := dict_of (imap (λ i u, (i, u)) users);
     item_to_idx := i2i;
     idx_to_item := dict_of (imap (λ j m, (j, m)) items);
     n_items := n_it;
     R := M;
     sim := similarity M n_it;
     popular_items := build_popular ratings_df titles |}.

Definition popularity_recs (m : ItemItemCFModel) (top_k : Z) : list Rec :=
  py_slice_to top_k (popular_items m).

Definition rated_mask (user_ratings : list Q) : list bool :=
  (λ x, Qltb 0 x) <$> user_ratings.

(** The body of the loop [for j in range(n_items)]: the value left in
    [scores[j]], which starts at 0 and is written at most once. *)
Definition predict (m : ItemItemCFModel) (user_ratings : list Q) (j : nat) : Q :=
  let mask := rated_mask user_ratings in
  if default false (mask !! j) then 0%Q
  else
    let sims := mask_select (default [] (sim m !! j)) mask in
    let r := mask_select user_ratings mask in
    if forallb (λ s, Qeq_bool s 0) sims then 0%Q
    else (dot sims r / (Qsum (Qabs <$> sims) + eps8))%Q.

Definition predict_scores (m : ItemItemCFModel) (user_ratings : list Q) : list Q :=
  predict m user_ratings <$> seq 0 (n_items m).

(** [np.where(scores > 0)[0]] *)
Definition candidate_indices (scores : list Q) : list nat :=
  filter (λ j, (0 < key_at scores j)%Q) (seq 0 (length scores)).

(** [candidate_indices[order]] with
    [order = np.argsort(-candidate_scores)] *)
Definition ranked_candidates (scores : list Q) : list nat :=
  let cand := candidate_indices scores in
  let candidate_scores := key_at scores <$> cand in
  let order := np_argsort (Qopp <$> candidate_scores) in
  (λ o, default 0 (cand !! o)) <$> order.

(** [candidate_indices[order][:top_k]] *)
Definition top_indices (scores : list Q) (top_k : Z) : list nat :=
  py_slice_to top_k (ranked_candidates scores).

(** One dict of [recs]; [idx_to_item[j]] is defined for every [j] below
    [n_items], so the default stands for a [KeyError] that cannot occur. *)
Definition rec_entry (m : ItemItemCFModel) (scores : list Q) (j : nat) : Rec :=
  let item := default 0%Z (idx_to_item m !! j) in
  let title := default EmptyString (movie_titles m !! item) in
  mkRec item title (fetch_poster_url title) (key_at scores j).

(** [ItemItemCFModel.recommend] *)
Definition recommend (m : ItemItemCFModel) (uid : Z) (top_k : Z) : list Rec :=
  match user_to_idx m !! uid with
  | None => popularity_recs m top_k
  | Some u =>
      let user_ratings := default [] (R m !! u) in
      if negb (existsb id (rated_mask user_ratings)) then popularity_recs m top_k
      else
        let scores := predict_scores m user_ratings in
        if bool_decide (length (candidate_indices scores) = 0)
        then popularity_recs m top_k
        else rec_entry m scores <$> top_indices scores top_k
  end.

(** ** Attack and defense *)

(** [simulate_attack]; [None] when numpy rejects the draw. *)
Definition simulate_attack (ratings_df : DataFrame) (attacker_id target_item_id : Z)
    (n_push_items : Z) (extreme_rating : Q) : option DataFrame :=
  let all_items := unique (item_id <$> ratings_df) in
  let candidate_items := filter (λ i, i ≠ target_item_id) all_items in
  push_items ←
    (if bool_decide (n_push_items < Z.of_nat (length candidate_items))%Z
     then rng_choice candidate_items n_push_items
     else Some candidate_items);
  let new_rows :=
    mkRating attacker_id target_item_id extreme_rating
    :: ((λ it, mkRating attacker_id it extreme_rating) <$> push_items) in
  Some (if bool_decide (new_rows = []) then ratings_df
        else ratings_df ++ new_rows).

(** [ndarray.std()]: population standard deviation. *)
Definition np_std (l : list Q) : Q :=
  let mu := np_mean l in
  np_sqrt (np_mean ((λ x, Qabs (x - mu) * Qabs (x - mu))%Q <$> l)).

(** [clip_user] on one group; rows carry their index label. *)
Definition clip_user (tau : Q) (group : list (nat * Rating)) : list (nat * Rating) :=
  let rs := (λ p, rating p.2) <$> group in
  let mu := np_mean rs in
  let sigma := np_std rs in
  if Qltb sigma eps6 then group
  else
    let lower := (mu - tau * sigma)%Q in
    let upper := (mu + tau * sigma)%Q in
    (λ p, (p.1, mkRating (user_id p.2) (item_id p.2)
                  (np_clip (rating p.2) lower upper))) <$> group.

(** The groups of [groupby("user_id")], in ascending key order. *)
Definition groupby_user (idf : list (nat * Rating)) : list (list (nat * Rating)) :=
  (λ u, filter (λ p, user_id p.2 = u) idf)
    <$> sorted (unique ((λ p, user_id p.2) <$> idf)).

(** [result.reindex(ax)]: the rows of [res] looked up by label, in the
    order of [ax]. *)
Definition reindex (res : list (nat * Rating)) (ax : list nat) : list (nat * Rating) :=
  omap (λ i, list_find (λ p, p.1 = i) res ≫= λ ip, Some ip.2) ax.

(** [apply_defense]: every group returned by [clip_user] keeps the labels
    of its input, so pandas concatenates the groups and re-aligns the
    result on the original index before [reset_index(drop=True)]. *)
Definition apply_defense (ratings_df : DataFrame) (tau : Q) : DataFrame :=
  let idf := zip (seq 0 (length ratings_df)) ratings_df in
  let applied := concat (clip_user tau <$> groupby_user idf) in
  snd <$> reindex applied (seq 0 (length ratings_df)).
End Model.

(** ** A concrete environment

    The square root is exact on squares of rationals and rounded down
    otherwise, the draw takes the first [n] entries, [argsort] is a stable
    insertion sort, and no TMDB key is configured (so every poster lookup
    returns the empty string). *)

Definition floor_sqrt (q : Q) : Q :=
  Z.sqrt (Qnum q * Z.pos (Qden q)) # Qden q.

Definition first_choice (l : list Z) (n : Z) : option (list Z) :=
  if bool_decide (0 ≤ n ≤ Z.of_nat (length l))%Z then Some (take (Z.to_nat n) l)
  else None.

Definition key_le (keys : list Q) (a b : nat) : bool :=
  Qle_bool (key_at keys a) (key_at keys b).

Definition stable_argsort (keys : list Q) : list nat :=
  sort_by (key_le keys) (seq 0 (length keys)).

(** An [argsort] that lists equal keys in descending position order. *)
Definition reversing_argsort (keys : list Q) : list nat :=
  reverse (sort_by (λ a b, key_le keys b a) (seq 0 (length keys))).

Definition no_poster (title : string) : string := EmptyString.

Definition env : Environment :=
  {| np_sqrt := floor_sqrt; rng_choice := first_choice;
     np_argsort := stable_argsort; fetch_poster_url := no_poster |}.

Definition env_unstable : Environment :=
  {| np_sqrt := floor_sqrt; rng_choice := first_choice;
     np_argsort := reversing_argsort; fetch_poster_url := no_poster |}.

(** ** numpy's default [argsort] on its scalar code path

    The index introsort of numpy's [npysort/quicksort]: median-of-three
    quicksort on ranges of more than [SMALL_QUICKSORT] positions, insertion
    sort on the rest, and heapsort once the depth limit is used up.  It is
    one admissible [np_argsort]; SIMD builds of numpy use another sort. *)

Definition SMALL_QUICKSORT : nat := 16.

(** The key of the index stored at position [p] of [tosort]. *)
Definition val (v : list Q) (tosort : list nat) (p : nat) : Q :=
  key_at v (tosort !!! p).

(** [INTP_SWAP] of the entries at positions [i] and [j]. *)
Definition intp_swap (tosort : list nat) (i j : nat) : list nat :=
  <[i := tosort !!! j]> (<[j := tosort !!! i]> tosort).

(** [do ++pi; while (less(v[tosort[pi]], vp))] *)
Fixpoint scan_up (fuel : nat) (v : list Q) (tosort : list nat) (vp : Q) (pi : nat) : nat :=
  match fuel with
  | 0 => pi
  | S fuel' =>
      if Qltb (val v tosort (S pi)) vp then scan_up fuel' v tosort vp (S pi) else S pi
  end.

(** [do --pj; while (less(vp, v[tosort[pj]]))] *)
Fixpoint scan_down (fuel : nat) (v : list Q) (tosort : list nat) (vp : Q) (pj : nat) : nat :=
  match fuel with
  | 0 => pj
  | S fuel' =>
      if Qltb vp (val v tosort (pj - 1)) then scan_down fuel' v tosort vp (pj - 1)
      else pj - 1
  end.

(** The loop that moves [pi] and [pj] towards each other, swapping. *)
Fixpoint partition_loop (fuel : nat) (v : list Q) (tosort : list nat) (vp : Q)
    (pi pj : nat) : list nat * nat :=
  match fuel with
  | 0 => (tosort, pi)
  | S fuel' =>
      let pi' := scan_up (length tosort) v tosort vp pi in
      let pj' := scan_down (length tosort) v tosort vp pj in
      if bool_decide (pj' ≤ pi') then (tosort, pi')
      else partition_loop fuel' v (intp_swap tosort pi' pj') vp pi' pj'
  end.

Definition swap_if_less (v : list Q) (tosort : list nat) (a b : nat) : list nat :=
  if Qltb (val v tosort a) (val v tosort b) then intp_swap tosort a b else tosort.

(** One quicksort partition of the range from [pl] to [pr]; returns the
    array and the final position of the pivot. *)
Definition partition (v : list Q) (tosort : list nat) (pl pr : nat) : list nat * nat :=
  let pm := pl + (pr - pl) / 2 in
  let t1 := swap_if_less v tosort pm pl in
  let t2 := swap_if_less v t1 pr pm in
  let t3 := swap_if_less v t2 pm pl in
  let vp := val v t3 pm in
  let t4 := intp_swap t3 pm (pr - 1) in
  let res := partition_loop (length tosort) v t4 vp pl (pr - 1) in
  (intp_swap res.1 res.2 (pr - 1), res.2).

(** [while (pj > pl && less(vp, v[tosort[pj - 1]]))] shifting entries up. *)
Fixpoint shift_up (fuel : nat) (v : list Q) (tosort : list nat) (pl : nat) (vp : Q)
    (pj : nat) : list nat * nat :=
  match fuel with
  | 0 => (tosort, pj)
  | S fuel' =>
      if bool_decide (pl < pj) && Qltb vp (val v tosort (pj - 1))
      then shift_up fuel' v (<[pj := tosort !!! (pj - 1)]> tosort) pl vp (pj - 1)
      else (tosort, pj)
  end.

Definition insert_at (v : list Q) (pl : nat) (tosort : list nat) (pi : nat) : list nat :=
  let vi := tosort !!! pi in
  let res := shift_up (length tosort) v tosort pl (key_at v vi) pi in
  <[res.2 := vi]> res.1.

Definition insertion_sort (v : list Q) (tosort : list nat) (pl pr : nat) : list nat :=
  foldl (insert_at v pl) tosort (seq (pl + 1) (pr - pl)).

(** The sift-down loop of [aheapsort] on the heap [a[1..n]] stored from
    position [pl]: [a[k]] is the entry at position [pl + k - 1]. *)
Fixpoint sift (fuel : nat) (v : list Q) (tosort : list nat) (pl n tmp i j : nat)
    : list nat :=
  match fuel with
  | 0 => <[pl + i - 1 := tmp]> tosort
  | S fuel' =>
      if bool_decide (j ≤ n) then
        let j' :=
          if bool_decide (j < n)
             && Qltb (val v tosort (pl + j - 1)) (val v tosort (pl + j))
          then j + 1 else j in
        if Qltb (key_at v tmp) (val v tosort (pl + j' - 1))
        then sift fuel' v (<[pl + i - 1 := tosort !!! (pl + j' - 1)]> tosort)
                  pl n tmp j' (j' + j')
        else <[pl + i - 1 := tmp]> tosort
      else <[pl + i - 1 := tmp]> tosort
  end.

Definition aheapsort (v : list Q) (tosort : list nat) (pl pr : nat) : list nat :=
  let n := pr - pl + 1 in
  let heap :=
    foldl (λ ts l, sift n v ts pl n (ts !!! (pl + l - 1)) l (l + l))
          tosort (reverse (seq 1 (n / 2))) in
  foldl (λ ts k,
           let tmp := ts !!! (pl + k - 1) in
           sift n v (<[pl + k - 1 := ts !!! pl]> ts) pl (k - 1) tmp 1 2)
        heap (reverse (seq 2 (n - 1))).

(** The range being sorted, the stack of postponed ranges with their
    depth budgets, and the current depth budget. *)
Record QsState := mkQs {
  qs_tosort : list nat; qs_pl : nat; qs_pr : nat;
  qs_stack : list (nat * nat * Z); qs_depth : Z }.

(** [while ((pr - pl) > SMALL_QUICKSORT)]: partition, push the larger part,
    continue with the smaller. *)
Fixpoint partition_down (fuel : nat) (v : list Q) (s : QsState) : QsState :=
  match fuel with
  | 0 => s
  | S fuel' =>
      if bool_decide (SMALL_QUICKSORT < qs_pr s - qs_pl s) then
        let res := partition v (qs_tosort s) (qs_pl s) (qs_pr s) in
        let pi := res.2 in
        let d := (qs_depth s - 1)%Z in
        if bool_decide (pi - qs_pl s < qs_pr s - pi)
        then partition_down fuel' v
               (mkQs res.1 (qs_pl s) (pi - 1) ((pi + 1, qs_pr s, d) :: qs_stack s) d)
        else partition_down fuel' v
               (mkQs res.1 (pi + 1) (qs_pr s) ((qs_pl s, pi - 1, d) :: qs_stack s) d)
      else s
  end.

Fixpoint aquicksort_loop (fuel : nat) (v : list Q) (s : QsState) : list nat :=
  match fuel with
  | 0 => qs_tosort s
  | S fuel' =>
      let s' :=
        if bool_decide (qs_depth s < 0)%Z
        then mkQs (aheapsort v (qs_tosort s) (qs_pl s) (qs_pr s))
                  (qs_pl s) (qs_pr s) (qs_stack s) (qs_depth s)
        else
          let s1 := partition_down (length (qs_tosort s)) v s in
          mkQs (insertion_sort v (qs_tosort s1) (qs_pl s1) (qs_pr s1))
               (qs_pl s1) (qs_pr s1) (qs_stack s1) (qs_depth s1) in
      match qs_stack s' with
      | [] => qs_tosort s'
      | (pl, pr, d) :: rest => aquicksort_loop fuel' v (mkQs (qs_tosort s') pl pr rest d)
      end
  end.

Definition aquicksort (v : list Q) : list nat :=
  let num := length v in
  aquicksort_loop (S num) v
    (mkQs (seq 0 num) 0 (num - 1) [] (2 * Z.log2 (Z.of_nat num))).

Definition env_numpy : Environment :=
  {| np_sqrt := floor_sqrt; rng_choice := first_choice;
     np_argsort := aquicksort; fetch_poster_url := no_poster |}.

(** ** Vocabulary of the properties

    The objects the statements below talk about, and, where a statement of
    the specification is compared with the code, that statement itself as
    a proposition. *)

Definition has_shape (M : list (list Q)) (n k : nat) : Prop :=
  length M = n ∧ Forall (λ row, length row = k) M.

(** The ratings of user [u] in table order: the column [group["rating"]]
    that [clip_user] receives for [u]. *)
Definition user_ratings (df : DataFrame) (u : Z) : list Q :=
  rating <$> filter (λ r, user_id r = u) df.

(** The rows of user [u], in table order. *)
Definition rows_of (df : DataFrame) (u : Z) : DataFrame :=
  filter (λ r, user_id r = u) df.

(** The items of the table other than the target, in order of first
    appearance: [candidate_items] in the source. *)
Definition other_items (df : DataFrame) (target : Z) : list Z :=
  filter (λ i, i ≠ target) (unique (item_id <$> df)).

(** The rows that the attack appends for a list of pushed items. *)
Definition attack_rows (attacker target : Z) (extreme : Q) (push : list Z) : DataFrame :=
  mkRating attacker target extreme
  :: ((λ it, mkRating attacker it extreme) <$> push).

(** The mean rating of an item, as pandas computes it per group; an item
    without ratings has no group. *)
Definition item_mean (df : DataFrame) (it : Z) : option Q :=
  if bool_decide (item_ratings df it = []) then None
  else Some (np_mean (item_ratings df it)).

(** Number of ratings of an item in the table. *)
Definition rating_count (df : DataFrame) (item : Z) : nat :=
  length (item_ratings df item).

Definition users_of (df : DataFrame) : list Z := sorted (unique (user_id <$> df)).
Definition items_of (df : DataFrame) : list Z := sorted (unique (item_id <$> df)).

(** Row [R[u, :]]. *)
Definition user_row (m : ItemItemCFModel) (u : nat) : list Q := default [] (R m !! u).

(** The indices of the items that the user of row [u] has rated,
    [R[u, i] > 0], in ascending order. *)
Definition rated_items (m : ItemItemCFModel) (u : nat) : list nat :=
  filter (λ i, (0 < matrix_at (R m) u i)%Q) (seq 0 (n_items m)).

(** Item [item] is already rated by the user of row [u]. *)
Definition rated_by (m : ItemItemCFModel) (u : nat) (item : Z) : Prop :=
  ∃ j, item_to_idx m !! item = Some j ∧ (0 < matrix_at (R m) u j)%Q.

(** [uid] is a known user, of row [u], with at least one rating. *)
Definition known_rated_user (m : ItemItemCFModel) (uid : Z) (u : nat) : Prop :=
  user_to_idx m !! uid = Some u ∧ ∃ i, (0 < matrix_at (R m) u i)%Q.

(** The prediction formula: the similarity-weighted sum of the user's
    ratings over the rated items, divided by the sum of the absolute
    similarities plus 1e-8. *)
Definition score_formula (m : ItemItemCFModel) (u j : nat) : Q :=
  (Qsum ((λ i, matrix_at (sim m) j i * matrix_at (R m) u i) <$> rated_items m u)
   / (Qsum ((λ i, Qabs (matrix_at (sim m) j i)) <$> rated_items m u) + eps8))%Q.

(** Item index [j] has similarity exactly 0 to every item rated by [u]. *)
Definition no_similarity (m : ItemItemCFModel) (u j : nat) : Prop :=
  ∀ i, i ∈ rated_items m u → (matrix_at (sim m) j i == 0)%Q.

(** Item index [j] has a non-zero similarity to some item rated by [u]. *)
Definition some_similarity (m : ItemItemCFModel) (u j : nat) : Prop :=
  ∃ i, i ∈ rated_items m u ∧ ¬ (matrix_at (sim m) j i == 0)%Q.

Section Vocabulary.
Context `{Environment}.
Implicit Types (df : DataFrame) (titles : gmap Z string).

(** What [apply_defense] does to one row: the row is kept when its user's
    deviation is below the threshold, and its rating is clipped otherwise. *)
Definition defend_row (tau : Q) (df : DataFrame) (r : Rating) : Rating :=
  let rs := user_ratings df (user_id r) in
  let mu := np_mean rs in
  let sigma := np_std rs in
  if Qltb sigma eps6 then r
  else mkRating (user_id r) (item_id r)
         (np_clip (rating r) (mu - tau * sigma) (mu + tau * sigma)).

(** The statement of the defense property for one user [u]: the rows of
    [u] are unchanged because the deviation of [u]'s ratings is below the
    threshold, or every defended rating of [u] lies in the closed interval
    around [u]'s mean. *)
Definition clipped_or_untouched (df : DataFrame) (tau : Q) (u : Z) : Prop :=
  let rs := user_ratings df u in
  let mu := np_mean rs in
  let sigma := np_std rs in
  ((sigma < eps6)%Q ∧ rows_of (apply_defense df tau) u = rows_of df u) ∨
  Forall (λ r, (mu - tau * sigma <= rating r)%Q ∧ (rating r <= mu + tau * sigma)%Q)
         (rows_of (apply_defense df tau) u).

(** The statement of the attack property about the target's mean, for
    every table: the mean rating of the target does not decrease. *)
Definition attack_raises_mean (df : DataFrame) (A T n : Z) : Prop :=
  ∀ attacked m m', simulate_attack df A T n 5 = Some attacked →
    item_mean df T = Some m → item_mean attacked T = Some m' → (m <= m')%Q.

(** The predicted scores [scores] that [recommend] computes for row [u]. *)
Definition scores_of (m : ItemItemCFModel) (u : nat) : list Q :=
  predict_scores m (user_row m u).

(** The statement about predicted scores, read for every query: the
    formula on unrated items with some similarity, score 0 and exclusion
    from the result for unrated items without similarity, and a positive
    score on every returned entry. *)
Definition prediction_claim df titles (uid : Z) (u : nat) (top_k : Z) : Prop :=
  let m := ItemItemCFModel_init df titles in
  known_rated_user m uid u →
  (∀ j, j < n_items m → ¬ (0 < matrix_at (R m) u j)%Q → some_similarity m u j →
     key_at (scores_of m u) j = score_formula m u j) ∧
  (∀ j item, j < n_items m → ¬ (0 < matrix_at (R m) u j)%Q → no_similarity m u j →
     idx_to_item m !! j = Some item →
     key_at (scores_of m u) j = 0%Q ∧
     ∀ e, e ∈ recommend m uid top_k → rec_item_id e ≠ item) ∧
  (∀ e, e ∈ recommend m uid top_k → (0 < rec_score e)%Q).

(** The statement that no returned item is already rated, for every query
    of a known user with a rating. *)
Definition never_returns_rated df titles (uid : Z) (u : nat) (top_k : Z) : Prop :=
  let m := ItemItemCFModel_init df titles in
  known_rated_user m uid u →
  ∀ e, e ∈ recommend m uid top_k → ¬ rated_by m u (rec_item_id e).

(** The statement that with fewer than [top_k] candidates the result is
    exactly the candidates, for every query of a known user with a
    rating. *)
Definition returns_only_candidates df titles (uid : Z) (u : nat) (top_k : Z) : Prop :=
  let m := ItemItemCFModel_init df titles in
  known_rated_user m uid u →
  (Z.of_nat (length (candidate_indices (scores_of m u))) < top_k)%Z →
  recommend m uid top_k
  ≡ₚ rec_entry m (scores_of m u) <$> candidate_indices (scores_of m u).

(** The statement about the order of the returned candidates: scores
    descend, and equal scores come in ascending item index. *)
Definition ranked_by_score_then_index df titles (uid : Z) (u : nat) (top_k : Z) : Prop :=
  let m := ItemItemCFModel_init df titles in
  known_rated_user m uid u → candidate_indices (scores_of m u) ≠ [] →
  ∀ p q ep eq jp jq, p < q →
    recommend m uid top_k !! p = Some ep → recommend m uid top_k !! q = Some eq →
    item_to_idx m !! rec_item_id ep = Some jp →
    item_to_idx m !! rec_item_id eq = Some jq →
    (rec_score eq <= rec_score ep)%Q ∧ ((rec_score ep == rec_score eq)%Q → jp < jq).

(** The popularity list in the words of the specification: the items with
    at least 20 ratings ranked by mean and count, and, when no item has 20
    ratings, all items ranked the same way. *)
Definition popularity_spec (df : DataFrame) (titles : gmap Z string)
    : list Rec :=
  let stats := movie_stats df in
  let kept := filter (λ s, 20 ≤ ms_count s) stats in
  popular_entry titles
    <$> sort_by stat_before (if bool_decide (kept = []) then stats else kept).

(** The cold-start statement against [popularity_spec]. *)
Definition cold_start_claim (df : DataFrame) (titles : gmap Z string)
    (uid top_k : Z) : Prop :=
  uid ∉ user_id <$> df → (0 ≤ top_k)%Z →
  recommend (ItemItemCFModel_init df titles) uid top_k
  = take (Z.to_nat top_k) (popularity_spec df titles).

End Vocabulary.

(** ** Sample tables *)

(** The entry of an item without title and without poster. *)
Definition untitled (item : Z) (score : Q) : Rec :=
  mkRec item EmptyString EmptyString score.

(** Twenty users who each rated item 1 with 5. *)
Definition store20 : DataFrame := (λ u, mkRating (Z.of_nat u) 1 5) <$> seq 1 20.

(** The same, and a user 21 who rated only item 2. *)
Definition store21 : DataFrame := store20 ++ [mkRating 21 2 5].

(** Twenty ratings of value 0 for item 1, and a user 21 who rated only
    item 2. *)
Definition zero_store : DataFrame :=
  ((λ u, mkRating (Z.of_nat u) 1 0) <$> seq 1 20) ++ [mkRating 21 2 5].

(** User 1 rated item 1; user 2 rated items 1, 2 and 3 alike. *)
Definition tied_store : DataFrame :=
  [mkRating 1 1 5; mkRating 2 1 5; mkRating 2 2 5; mkRating 2 3 5].

(** User 1 rated item 1; user 2 rated items 1 to 19 alike. *)
Definition wide_tied_store : DataFrame :=
  mkRating 1 1 5 :: ((λ i, mkRating 2 (Z.of_nat i) 5) <$> seq 1 19).

(** Three users and three items with distinct similarities. *)
Definition small_store : DataFrame :=
  [mkRating 1 1 5; mkRating 2 1 5; mkRating 2 2 5; mkRating 2 3 5;
   mkRating 3 2 4; mkRating 3 1 1].

(** ** The experiment scripts

    [find_rank_of_item], which [attack_experiment.py] and
    [metrics_experiment.py] both define, and the accumulation loop of
    [metrics_experiment.main]. *)

(** The loop over [enumerate(recs, start=1)] from position [idx]; [None]
    stands for the returned pair [(None, None)]. *)
Fixpoint find_rank_from (idx : nat) (recs : list Rec) (target : Z) : option (nat * Q) :=
  match recs with
  | [] => None
  | r :: rest =>
      if bool_decide (rec_item_id r = target) then Some (idx, rec_score r)
      else find_rank_from (S idx) rest target
  end.

Definition find_rank_of_item (recs : list Rec) (target : Z) : option (nat * Q) :=
  find_rank_from 1 recs target.

(** One entry of the [metrics] dict: [{"hits": ..., "ranks": [...]}]. *)
Record Metric := mkMetric { hits : nat; ranks : list nat }.

(** [if rank is not None: hits += 1; ranks.append(rank)] *)
Definition record_rank (mt : Metric) (found : option (nat * Q)) : Metric :=
  match found with
  | Some (rank, _) => mkMetric (hits mt + 1) (ranks mt ++ [rank])
  | None => mt
  end.

Record Metrics := mkMetrics {
  baseline_metric : Metric; attack_metric : Metric; defense_metric : Metric }.

(** [hits / len(user_ids)]; [None] stands for [ZeroDivisionError]. *)
Definition hit_rate (mt : Metric) (n_users : nat) : option Q :=
  if bool_decide (n_users = 0) then None
  else Some (inject_Z (Z.of_nat (hits mt)) / inject_Z (Z.of_nat n_users))%Q.

(** [mean(ranks) if ranks else None] *)
Definition avg_rank (mt : Metric) : option Q :=
  if bool_decide (ranks mt = []) then None
  else Some (np_mean ((λ r, inject_Z (Z.of_nat r)) <$> ranks mt)).

(** ** ScenarioRecommender *)

(** What [ScenarioRecommender.__init__] takes from pandas and numpy:
    [Series.value_counts()], whose order among equal counts pandas does
    not fix, and [np.random.default_rng(42).choice(a)] of one element,
    with [None] for numpy's [ValueError] on an empty population. *)
Class Sampling := {
  value_counts : list Z → list (Z * nat);
  rng_pick : list Z → option Z }.

(** How often [x] occurs in a column. *)
Definition occurrences (x : Z) (l : list Z) : nat := length (filter (λ y, y = x) l).

(** [Series.max()]; [None] for the NaN of an empty column, which [int]
    rejects with a [ValueError]. *)
Definition series_max (l : list Z) : option Z :=
  match l with
  | [] => None
  | x :: t => Some (foldl Z.max x t)
  end.

Section SamplingLaws.
Context `{Sampling}.

(** [value_counts] lists every distinct value once, with its number of
    occurrences. *)
Definition value_counts_counts : Prop :=
  ∀ l, value_counts l ≡ₚ (λ x, (x, occurrences x l)) <$> unique l.

(** A draw of one element from a non-empty population returns one of its
    elements. *)
Definition rng_pick_member : Prop :=
  ∀ l, l ≠ [] → ∃ x, rng_pick l = Some x ∧ x ∈ l.
End SamplingLaws.

Record ScenarioRecommender := mkScenario {
  base_ratings : DataFrame;
  scenario_titles : gmap Z string;
  baseline_model : ItemItemCFModel;
  attacker_id : Z;
  target_item_id : Z;
  attack_ratings : DataFrame;
  attack_model : ItemItemCFModel;
  defense_ratings : DataFrame;
  defense_model : ItemItemCFModel }.

Section Scenario.
Context `{Environment} `{Sampling}.

(** [ScenarioRecommender.__init__] after the two files are loaded; [None]
    when a step raises. *)
Definition ScenarioRecommender_init (base : DataFrame) (titles : gmap Z string)
    : option ScenarioRecommender :=
  let baseline := ItemItemCFModel_init base titles in
  max_user ← series_max (user_id <$> base);
  let attacker := (max_user + 1)%Z in
  let item_counts := value_counts (item_id <$> base) in
  let popular := fst <$> filter (λ p, 50 ≤ p.2) item_counts in
  let population :=
    if bool_decide (length popular = 0) then fst <$> item_counts else popular in
  target ← rng_pick population;
  attack ← simulate_attack base attacker target 10 5;
  let defended := apply_defense attack (3 # 2) in
  Some (mkScenario base titles baseline attacker target
          attack (ItemItemCFModel_init attack titles)
          defended (ItemItemCFModel_init defended titles)).

(** One pass of the loop [for uid in user_ids] of
    [metrics_experiment.main], with [k] the top-k of the queries. *)
Definition metrics_step (scen : ScenarioRecommender) (k : Z) (ms : Metrics) (uid : Z)
    : Metrics :=
  let target := target_item_id scen in
  mkMetrics
    (record_rank (baseline_metric ms)
       (find_rank_of_item (recommend (baseline_model scen) uid k) target))
    (record_rank (attack_metric ms)
       (find_rank_of_item (recommend (attack_model scen) uid k) target))
    (record_rank (defense_metric ms)
       (find_rank_of_item (recommend (defense_model scen) uid k) target)).

(** [sorted(base_ratings["user_id"].unique())[:max_users]] *)
Definition sample_users (scen : ScenarioRecommender) (max_users : Z) : list Z :=
  py_slice_to max_users (sorted (unique (user_id <$> base_ratings scen))).

(** The [metrics] dict after the loop; the script runs it with [k = 10]
    and [max_users = 200]. *)
Definition collect_metrics (scen : ScenarioRecommender) (k max_users : Z) : Metrics :=
  foldl (metrics_step scen k)
        (mkMetrics (mkMetric 0 []) (mkMetric 0 []) (mkMetric 0 []))
        (sample_users scen max_users).
End Scenario.

(** A concrete sampling: counts in descending order with ties in order of
    first appearance, and the first element as the draw. *)
Definition stable_value_counts (l : list Z) : list (Z * nat) :=
  sort_by (λ a b, bool_decide (b.2 ≤ a.2)) ((λ x, (x, occurrences x l)) <$> unique l).

Definition sampling : Sampling :=
  {| value_counts := stable_value_counts; rng_pick := head |}.

(** ** [fetch_poster_url] with its cache

    Titles come from [u.item] decoded as Latin-1, so a title is a string of
    code points below 256, which is what [string] holds.  The state is the
    module-level cache together with the queries sent to TMDB so far. *)

(** [str.isspace] on a Latin-1 code point. *)
Definition is_space (c : Ascii.ascii) : bool :=
  let n := Ascii.nat_of_ascii c in
  ((9 <=? n) && (n <=? 13)) || ((28 <=? n) && (n <=? 32))
  || (n =? 133) || (n =? 160).

(** [str.lower] on a Latin-1 code point. *)
Definition lower_char (c : Ascii.ascii) : Ascii.ascii :=
  let n := Ascii.nat_of_ascii c in
  if ((65 <=? n) && (n <=? 90))
     || ((192 <=? n) && (n <=? 222) && negb (n =? 215))
  then Ascii.ascii_of_nat (n + 32) else c.

Fixpoint py_lower (s : string) : string :=
  match s with
  | EmptyString => EmptyString
  | String c rest => String (lower_char c) (py_lower rest)
  end.

Fixpoint py_lstrip (s : string) : string :=
  match s with
  | EmptyString => EmptyString
  | String c rest => if is_space c then py_lstrip rest else s
  end.

Fixpoint py_rstrip (s : string) : string :=
  match s with
  | EmptyString => EmptyString
  | String c rest =>
      match py_rstrip rest with
      | EmptyString => if is_space c then EmptyString else String c EmptyString
      | kept => String c kept
      end
  end.

(** [s.strip()] *)
Definition py_strip (s : string) : string := py_rstrip (py_lstrip s).

(** The opening parenthesis, code point 40. *)
Definition open_paren : Ascii.ascii := Ascii.ascii_of_nat 40.

(** The part of [s] before its last opening parenthesis, when it has one. *)
Fixpoint before_last_paren (s : string) : option string :=
  match s with
  | EmptyString => None
  | String c rest =>
      match before_last_paren rest with
      | Some prefix => Some (String c prefix)
      | None => if Ascii.eqb c open_paren then Some EmptyString else None
      end
  end.

(** [s.rsplit("(", 1)[0]] *)
Definition rsplit_paren (s : string) : string := default s (before_last_paren s).

(** [title.rsplit("(", 1)[0].strip()] *)
Definition clean_title (title : string) : string := py_strip (rsplit_paren title).

(** [clean_title.lower()] *)
Definition cache_key (title : string) : string := py_lower (clean_title title).

(** What a TMDB search request comes to: an exception somewhere between
    the request and the reading of the first result, or the [poster_path]
    of each result ([None] when absent or null). *)
Inductive Response :=
  | request_failed
  | search_results (poster_paths : list (option string)).

Record PosterState := mkPosters {
  poster_cache : gmap string string;
  queries : list string }.

Definition poster_base : string := "https://image.tmdb.org/t/p/w342".

(** The url computed from a response on a cache miss. *)
Definition poster_of (r : Response) : string :=
  match r with
  | request_failed => EmptyString
  | search_results [] => EmptyString
  | search_results (None :: _) => EmptyString
  | search_results (Some path :: _) =>
      if bool_decide (path = EmptyString) then EmptyString
      else (poster_base ++ path)%string
  end.

(** [fetch_poster_url]: [api_key] is [TMDB_API_KEY], [tmdb] answers the
    request of this call. *)
Definition fetch_poster (api_key : string) (tmdb : string → Response)
    (st : PosterState) (title : string) : string * PosterState :=
  if bool_decide (api_key = EmptyString) || bool_decide (title = EmptyString)
  then (EmptyString, st)
  else
    match poster_cache st !! cache_key title with
    | Some url => (url, st)
    | None =>
        let url := poster_of (tmdb (clean_title title)) in
        (url, mkPosters (<[cache_key title := url]> (poster_cache st))
                        (queries st ++ [clean_title title]))
    end.

(** ** Vocabulary of the further properties *)

(** What the loop of [metrics_experiment.main] keeps true of one entry of
    [metrics] once [n] users have been queried for their top [k]. *)
Definition metric_invariant (k : Z) (n : nat) (mt : Metric) : Prop :=
  hits mt = length (ranks mt) ∧ hits mt ≤ n ∧
  Forall (λ r, 1 ≤ r ≤ Z.to_nat k) (ranks mt).

(** The three entries of the [metrics] dict. *)
Definition metric_entries (ms : Metrics) : list Metric :=
  [baseline_metric ms; attack_metric ms; defense_metric ms].

(** The scenario built from [small_store] with the concrete environment
    and sampling. *)
Definition small_scenario : option ScenarioRecommender :=
  @ScenarioRecommender_init env sampling small_store ∅.

(** The rating carried by the last row of the table for user [uid] and
    item [item], when the table has such a row. *)
Definition last_rating (df : DataFrame) (uid item : Z) : option Q :=
  rating <$> last (filter (λ r, user_id r = uid ∧ item_id r = item) df).

(** The state after a sequence of calls of [fetch_poster_url], each with
    the answers TMDB gives at the time of the call. *)
Definition fetch_posters (api_key : string) (st : PosterState)
    (calls : list ((string → Response) * string)) : PosterState :=
  foldl (λ st call, (fetch_poster api_key call.1 st call.2).2) st calls.

(** The module state at import: [_POSTER_CACHE = {}], nothing sent. *)
Definition empty_posters : PosterState := mkPosters ∅ [].

(** The string has an occurrence of the character. *)
Fixpoint contains_char (c : Ascii.ascii) (s : string) : bool :=
  match s with
  | EmptyString => false
  | String c' rest => Ascii.eqb c' c || contains_char c rest
  end.

(** ** Scenario dispatch and the API routes

    [ScenarioRecommender.recommend] and the two POST routes of [main.py].
    The scenario of a request is any text, so its lower-casing is taken
    from the environment. *)

(** [str.lower] on request text. *)
Class Text := { str_lower : string → string }.

(** [str.lower] leaves the three scenario names, which are lower-case
    ASCII, as they are. *)
Definition lower_keeps_names `{Text} : Prop :=
  str_lower "baseline" = "baseline"%string ∧
  str_lower "attack" = "attack"%string ∧
  str_lower "defense" = "defense"%string.

(** The validated body of a [POST /api/recommend]. *)
Record RecommendRequest := mkRecommendRequest {
  req_scenario : string; req_user_id : Z; req_top_k : Z }.

Record RecommendResponse := mkRecommendResponse {
  resp_user_id : Z; resp_scenario : string; resp_top_k : Z;
  resp_recommendations : list Rec }.

(** The validated body of a [POST /api/compare]. *)
Record CompareRequest := mkCompareRequest { cmp_user_id : Z; cmp_top_k : Z }.

Record CompareResponse := mkCompareResponse {
  cmp_resp_user_id : Z; cmp_resp_top_k : Z;
  cmp_baseline : list Rec; cmp_attack : list Rec; cmp_defense : list Rec }.

Section Dispatch.
Context `{Environment} `{Text}.

(** [ScenarioRecommender.recommend]; the scenario [None] is Python's
    [None], which [scenario or (the empty string)] turns into the empty
    string. *)
Definition ScenarioRecommender_recommend (scen : ScenarioRecommender)
    (scenario : option string) (uid top_k : Z) : list Rec :=
  let scenario := str_lower (default EmptyString scenario) in
  let model :=
    if bool_decide (scenario = "attack"%string) then attack_model scen
    else if bool_decide (scenario = "defense"%string) then defense_model scen
    else baseline_model scen in
  recommend model uid top_k.

(** [api_recommend] *)
Definition api_recommend (scen : ScenarioRecommender) (req : RecommendRequest)
    : RecommendResponse :=
  let scenario := str_lower (req_scenario req) in
  let scenario :=
    if bool_decide (scenario ∉ ["baseline"; "attack"; "defense"]%string)
    then "baseline"%string else scenario in
  let recs :=
    ScenarioRecommender_recommend scen (Some scenario) (req_user_id req) (req_top_k req) in
  mkRecommendResponse (req_user_id req) scenario (req_top_k req) recs.

(** [api_compare] *)
Definition api_compare (scen : ScenarioRecommender) (req : CompareRequest)
    : CompareResponse :=
  let baseline :=
    ScenarioRecommender_recommend scen (Some "baseline"%string)
      (cmp_user_id req) (cmp_top_k req) in
  let attack :=
    ScenarioRecommender_recommend scen (Some "attack"%string)
      (cmp_user_id req) (cmp_top_k req) in
  let defense :=
    ScenarioRecommender_recommend scen (Some "defense"%string)
      (cmp_user_id req) (cmp_top_k req) in
  mkCompareResponse (cmp_user_id req) (cmp_top_k req) baseline attack defense.

(** The model that a scenario name stands for. *)
Definition model_named (scen : ScenarioRecommender) (name : string) : ItemItemCFModel :=
  if bool_decide (name = "attack"%string) then attack_model scen
  else if bool_decide (name = "defense"%string) then defense_model scen
  else baseline_model scen.
End Dispatch.

(** Lower-casing of Latin-1 text as the concrete [str.lower]. *)
Definition latin1_text : Text := {| str_lower := py_lower |}.

(** User 1 rated item 1, user 2 rated items 1 to 4, and user 3 rated
    items 2 and 3 only. *)
Definition frame_store : DataFrame :=
  [mkRating 1 1 5; mkRating 2 1 4; mkRating 2 2 5; mkRating 2 3 3; mkRating 2 4 4;
   mkRating 3 2 4; mkRating 3 3 2].

(** Closing a goal on a concrete table by evaluation. *)
Ltac by_computation := vm_compute; first [reflexivity | discriminate | exact I | lia].

(** * Properties *)

(** ** Arithmetic on the model of float values *)

Lemma Qltb_true (x y : Q) : Qltb x y = true ↔ (x < y)%Q.
Proof.
  unfold Qltb. destruct (Qlt_le_dec x y) as [Hlt|Hle]; split; try done.
  intros Hlt. exfalso. apply (Qlt_irrefl x). by eapply Qlt_le_trans.
Qed.

Lemma Qltb_false (x y : Q) : Qltb x y = false ↔ (y <= x)%Q.
Proof.
  unfold Qltb. destruct (Qlt_le_dec x y) as [Hlt|Hle]; split; try done.
  intros Hle. exfalso. apply (Qlt_irrefl x). by eapply Qlt_le_trans.
Qed.

Lemma Qmult_comm_eq (x y : Q) : (x * y)%Q = (y * x)%Q.
Proof. unfold Qmult. f_equal; [apply Z.mul_comm | apply Pos.mul_comm]. Qed.

Lemma zip_with_Qmult_comm (a b : list Q) : zip_with Qmult a b = zip_with Qmult b a.
Proof.
  revert b. induction a as [|x a IH]; intros [|y b]; simpl; try done.
  by rewrite Qmult_comm_eq, IH.
Qed.

Lemma dot_comm (a b : list Q) : dot a b = dot b a.
Proof. unfold dot. by rewrite zip_with_Qmult_comm. Qed.

Lemma np_clip_bounds (x lo hi : Q) :
  (lo <= hi)%Q → (lo <= np_clip x lo hi)%Q ∧ (np_clip x lo hi <= hi)%Q.
Proof.
  intros Hle. unfold np_clip. split.
  - apply Q.min_glb; [apply Q.le_max_r | done].
  - apply Q.le_min_r.
Qed.

(** With the bounds swapped, [np.clip] returns the upper bound. *)
Lemma np_clip_swapped (x lo hi : Q) : (hi <= lo)%Q → (np_clip x lo hi == hi)%Q.
Proof.
  intros Hle. unfold np_clip. apply Q.min_r.
  eapply Qle_trans; [exact Hle | apply Q.le_max_r].
Qed.

Lemma Qsum_app (l k : list Q) : (Qsum (l ++ k) == Qsum l + Qsum k)%Q.
Proof.
  induction l as [|x l IH]; simpl.
  - by rewrite Qplus_0_l.
  - rewrite IH. apply Qplus_assoc.
Qed.

Lemma Qsum_replicate (n : nat) (x : Q) :
  (Qsum (replicate n x) == inject_Z (Z.of_nat n) * x)%Q.
Proof.
  induction n as [|n IH].
  - simpl. by rewrite Qmult_0_l.
  - change (replicate (S n) x) with (x :: replicate n x).
    change (Qsum (x :: replicate n x)) with (x + Qsum (replicate n x))%Q.
    rewrite IH, Nat2Z.inj_succ. unfold Z.succ. rewrite inject_Z_plus.
    change (inject_Z 1) with 1%Q. ring.
Qed.

Lemma Qsum_all_zero (l : list Q) : Forall (λ x, x == 0)%Q l → (Qsum l == 0)%Q.
Proof.
  induction 1 as [|x l Hx _ IH]; simpl; [done|]. rewrite Hx, IH. ring.
Qed.

Lemma inject_nat_pos (n : nat) : 0 < n → (0 < inject_Z (Z.of_nat n))%Q.
Proof.
  intros Hn. change 0%Q with (inject_Z 0). rewrite <- Zlt_Qlt. lia.
Qed.

(** ** [unique], [sorted] and dict comprehensions *)

Lemma elem_of_unique (l : list Z) (x : Z) : x ∈ unique l ↔ x ∈ l.
Proof.
  induction l as [|a l IH]; simpl; [done|].
  rewrite !elem_of_cons, list_elem_of_filter, IH.
  destruct (decide (x = a)); naive_solver.
Qed.

Lemma NoDup_unique (l : list Z) : NoDup (unique l).
Proof.
  induction l as [|a l IH]; simpl; [constructor|].
  apply NoDup_cons. split.
  - rewrite list_elem_of_filter. naive_solver.
  - by apply NoDup_filter.
Qed.

Lemma sorted_Permutation (l : list Z) : sorted l ≡ₚ l.
Proof. apply merge_sort_Permutation. Qed.

Lemma elem_of_sorted (l : list Z) (x : Z) : x ∈ sorted l ↔ x ∈ l.
Proof. by rewrite sorted_Permutation. Qed.

Lemma NoDup_sorted_unique (l : list Z) : NoDup (sorted (unique l)).
Proof. rewrite sorted_Permutation. apply NoDup_unique. Qed.

Lemma elem_of_sorted_unique (l : list Z) (x : Z) : x ∈ sorted (unique l) ↔ x ∈ l.
Proof. by rewrite elem_of_sorted, elem_of_unique. Qed.

Lemma sorted_ascending (l : list Z) : StronglySorted Z.le (sorted l).
Proof. apply StronglySorted_merge_sort; apply _. Qed.

Section Dict.
Context `{Countable K} {V : Type}.
Implicit Types (pairs : list (K * V)) (d : gmap K V).

Lemma foldl_insert_lookup pairs d k v :
  NoDup (pairs.*1) →
  foldl (λ d kv, <[kv.1 := kv.2]> d) d pairs !! k = Some v ↔
  (k, v) ∈ pairs ∨ (k ∉ pairs.*1 ∧ d !! k = Some v).
Proof.
  revert d. induction pairs as [|[k' v'] pairs IH]; intros d Hnd; simpl.
  - rewrite elem_of_nil. set_solver.
  - simpl in Hnd. apply NoDup_cons in Hnd as [Hk' Hnd].
    rewrite (IH _ Hnd), lookup_insert, !elem_of_cons.
    assert (Hin : ∀ w, (k', w) ∈ pairs → False).
    { intros w Hw. apply Hk'. apply list_elem_of_fmap. by exists (k', w). }
    destruct (decide (k' = k)) as [->|Hne]; simpl; [|naive_solver].
    split.
    + intros [Hv | [Hk Hv]]; [by left; right|left; left; congruence].
    + intros [[Heq | Hv] | [Hk _]]; [right|by left|exfalso; apply Hk; by left].
      split; [done|congruence].
Qed.

Lemma dict_of_lookup pairs k v :
  NoDup (pairs.*1) → dict_of pairs !! k = Some v ↔ (k, v) ∈ pairs.
Proof.
  intros Hnd. unfold dict_of. rewrite (foldl_insert_lookup _ _ _ _ Hnd).
  rewrite lookup_empty. naive_solver.
Qed.
End Dict.

Lemma imap_values {A} (l : list A) : imap (λ _ x, x) l = l.
Proof.
  induction l as [|a l IH]; simpl; [done|]. f_equal.
  rewrite <- IH at 2. by apply imap_ext.
Qed.

Lemma imap_positions_from {A} (l : list A) (s : nat) :
  imap (λ i _, s + i) l = seq s (length l).
Proof.
  revert s. induction l as [|a l IH]; intros s; simpl; [done|].
  f_equal; [lia|]. rewrite <- (IH (S s)). apply imap_ext. intros; simpl. lia.
Qed.

Lemma imap_positions {A} (l : list A) : imap (λ i _, i) l = seq 0 (length l).
Proof. by rewrite <- imap_positions_from. Qed.

(** The dict [{x: i for i, x in enumerate(l)}] of a duplicate-free list. *)
Lemma dict_of_enumerate_lookup (l : list Z) (x : Z) (i : nat) :
  NoDup l → dict_of (imap (λ i x, (x, i)) l) !! x = Some i ↔ l !! i = Some x.
Proof.
  intros Hnd. rewrite dict_of_lookup.
  - rewrite elem_of_lookup_imap. split.
    + intros (j & y & [= -> ->] & Hj). done.
    + intros Hi. by exists i, x.
  - rewrite fmap_imap. rewrite (imap_ext _ (λ _ x, x)) by done.
    by rewrite imap_values.
Qed.

(** The dict [{i: x for i, x in enumerate(l)}]. *)
Lemma dict_of_index_lookup (l : list Z) (i : nat) :
  dict_of (imap (λ i x, (i, x)) l) !! i = l !! i.
Proof.
  assert (Hnd : NoDup ((imap (λ i x, (i, x)) l).*1)).
  { rewrite fmap_imap. rewrite (imap_ext _ (λ i _, i)) by done.
    rewrite imap_positions. apply NoDup_seq. }
  destruct (l !! i) as [x|] eqn:Hi.
  - apply dict_of_lookup; [done|]. apply elem_of_lookup_imap. by exists i, x.
  - destruct (dict_of _ !! i) as [x|] eqn:Hd; [|done].
    apply dict_of_lookup in Hd; [|done].
    apply elem_of_lookup_imap in Hd as (j & y & [= -> ->] & Hj). congruence.
Qed.

(** ** The stable insertion sort *)

Section SortBy.
Context {A : Type} (before : A → A → bool).

Lemma insert_by_Permutation (x : A) (l : list A) : insert_by before x l ≡ₚ x :: l.
Proof.
  induction l as [|y l IH]; simpl; [done|].
  destruct (before x y); [done|]. rewrite IH. apply Permutation_swap.
Qed.

Lemma sort_by_Permutation (l : list A) : sort_by before l ≡ₚ l.
Proof.
  induction l as [|x l IH]; simpl; [done|].
  rewrite insert_by_Permutation. by rewrite IH.
Qed.

Hypothesis before_total : ∀ x y, before x y = true ∨ before y x = true.
Hypothesis before_trans :
  ∀ x y z, before x y = true → before y z = true → before x z = true.

Lemma insert_by_sorted (x : A) (l : list A) :
  StronglySorted (λ a b, before a b = true) l →
  StronglySorted (λ a b, before a b = true) (insert_by before x l).
Proof.
  induction 1 as [|y l Hs IH Hall]; simpl.
  - repeat constructor.
  - destruct (before x y) eqn:Hxy.
    + constructor; [by constructor|]. constructor; [done|].
      eapply Forall_impl; [exact Hall|]. intros z Hz. by eapply before_trans.
    + constructor; [done|].
      rewrite insert_by_Permutation. constructor; [|done].
      destruct (before_total x y); congruence.
Qed.

Lemma sort_by_sorted (l : list A) :
  StronglySorted (λ a b, before a b = true) (sort_by before l).
Proof.
  induction l as [|x l IH]; simpl; [constructor|]. by apply insert_by_sorted.
Qed.
End SortBy.

(** Positions in a strongly sorted list are ordered by the relation. *)
Lemma StronglySorted_lookup {A} (Rel : A → A → Prop) (l : list A) (p q : nat) (a b : A) :
  StronglySorted Rel l → p < q → l !! p = Some a → l !! q = Some b → Rel a b.
Proof.
  intros Hs. revert p q. induction Hs as [|x l Hs IH Hall]; intros p q Hpq Hp Hq.
  - done.
  - destruct q as [|q]; [lia|]. destruct p as [|p]; simpl in *.
    + injection Hp as <-. rewrite Forall_forall in Hall. apply Hall.
      by eapply list_elem_of_lookup_2.
    + apply (IH p q); [lia|done..].
Qed.

(** ** Shape of the matrices built by [ItemItemCFModel_init] *)

Lemma zeros_shape (n k : nat) : has_shape (zeros n k) n k.
Proof.
  split; [apply length_replicate|].
  apply Forall_replicate, length_replicate.
Qed.

Lemma scatter_shape u2i i2i M row n k :
  has_shape M n k → has_shape (scatter u2i i2i M row) n k.
Proof.
  intros [Hlen Hrows]. unfold scatter.
  destruct (u2i !! user_id row) as [u|]; [|done].
  destruct (i2i !! item_id row) as [i|]; [|done].
  split; [by rewrite length_alter|].
  apply Forall_alter; [done|]. intros r _ Hr. by rewrite length_insert.
Qed.

Lemma build_R_shape df u2i i2i n k : has_shape (build_R df u2i i2i n k) n k.
Proof.
  unfold build_R. generalize (zeros_shape n k). generalize (zeros n k).
  induction df as [|row df IH]; intros M HM; simpl; [done|].
  apply IH. by apply scatter_shape.
Qed.

Lemma has_shape_row M n k u :
  has_shape M n k → u < n → ∃ row, M !! u = Some row ∧ length row = k.
Proof.
  intros [Hlen Hrows] Hu.
  destruct (lookup_lt_is_Some_2 M u) as [row Hrow]; [lia|].
  exists row. split; [done|]. rewrite Forall_forall in Hrows.
  apply Hrows. by eapply list_elem_of_lookup_2.
Qed.

Section Similarity.
Context `{Environment}.

Lemma similarity_shape M n : has_shape (similarity M n) n n.
Proof.
  unfold similarity. split.
  - by rewrite length_fmap, length_seq.
  - apply Forall_fmap, Forall_forall. intros i _. simpl.
    by rewrite length_fmap, length_seq.
Qed.

Lemma similarity_at M n i j :
  i < n → j < n →
  matrix_at (similarity M n) i j =
  np_clip (dot (column M i) (column M j)
           / (default 0 (norms M n !! j) * default 0 (norms M n !! i)))%Q (-1) 1.
Proof.
  intros Hi Hj. unfold matrix_at, similarity.
  rewrite list_lookup_fmap, lookup_seq_lt by done. simpl.
  by rewrite list_lookup_fmap, lookup_seq_lt by done.
Qed.

Lemma similarity_outside M n i j :
  ¬ (i < n ∧ j < n) → matrix_at (similarity M n) i j = 0%Q.
Proof.
  intros Hout. unfold matrix_at, similarity.
  rewrite list_lookup_fmap.
  destruct (decide (i < n)) as [Hi|Hi].
  - rewrite lookup_seq_lt by done. simpl.
    rewrite list_lookup_fmap, lookup_seq_ge; [done|lia].
  - rewrite lookup_seq_ge; [done|lia].
Qed.

Lemma similarity_symmetric M n i j :
  matrix_at (similarity M n) i j = matrix_at (similarity M n) j i.
Proof.
  destruct (decide (i < n ∧ j < n)) as [[Hi Hj]|Hout].
  - rewrite !similarity_at by done.
    by rewrite (dot_comm (column M i)), (Qmult_comm_eq (default 0%Q (norms M n !! j))).
  - rewrite !similarity_outside; [done| |done]. tauto.
Qed.

Lemma similarity_clamped M n i j :
  (-1 <= matrix_at (similarity M n) i j)%Q ∧ (matrix_at (similarity M n) i j <= 1)%Q.
Proof.
  destruct (decide (i < n ∧ j < n)) as [[Hi Hj]|Hout].
  - rewrite similarity_at by done. by apply np_clip_bounds.
  - rewrite similarity_outside by done. done.
Qed.

Lemma init_R_shape df titles :
  let m := ItemItemCFModel_init df titles in
  has_shape (R m) (length (sorted (unique (user_id <$> df)))) (n_items m).
Proof. apply build_R_shape. Qed.

Lemma init_sim_shape df titles :
  let m := ItemItemCFModel_init df titles in
  has_shape (sim m) (n_items m) (n_items m).
Proof. apply similarity_shape. Qed.

(** C4. The similarity matrix built by [ItemItemCFModel.__init__] is a
    square [n_items] by [n_items] matrix that is symmetric,
    [S[i,j] = S[j,i]] for all indices, and whose every entry lies in the
    closed interval from -1 to 1. *)
Theorem similarity_symmetric_and_clamped (df : DataFrame) (titles : gmap Z string) :
  let m := ItemItemCFModel_init df titles in
  has_shape (sim m) (n_items m) (n_items m) ∧
  (∀ i j, matrix_at (sim m) i j = matrix_at (sim m) j i) ∧
  (∀ i j, (-1 <= matrix_at (sim m) i j)%Q ∧ (matrix_at (sim m) i j <= 1)%Q).
Proof.
  intros m. split; [apply init_sim_shape|]. split.
  - intros i j. apply similarity_symmetric.
  - intros i j. apply similarity_clamped.
Qed.
End Similarity.

(** ** Grouping and re-alignment, as [groupby(...).apply(...)] does it *)

Lemma list_filter_fmap_comm {A B} (f : A → B) (P : B → Prop)
    `{∀ y, Decision (P y)} (l : list A) :
  filter P (f <$> l) = f <$> filter (λ x, P (f x)) l.
Proof.
  induction l as [|x l IH]; [done|].
  rewrite fmap_cons, !filter_cons, IH. by destruct (decide (P (f x))).
Qed.

Lemma list_filter_all {A} (P : A → Prop) `{∀ x, Decision (P x)} (l : list A) :
  (∀ x, x ∈ l → P x) → filter P l = l.
Proof.
  induction l as [|x l IH]; intros Hall; [done|].
  rewrite filter_cons_True by (apply Hall; left).
  f_equal. apply IH. intros y Hy. apply Hall. by right.
Qed.

Lemma list_filter_none {A} (P : A → Prop) `{∀ x, Decision (P x)} (l : list A) :
  (∀ x, x ∈ l → ¬ P x) → filter P l = [].
Proof.
  induction l as [|x l IH]; intros Hall; [done|].
  rewrite filter_cons_False by (apply Hall; left).
  apply IH. intros y Hy. apply Hall. by right.
Qed.

Section GroupBy.
Context {A : Type} (key : A → Z).

Lemma filter_key_split (k : Z) (ks : list Z) (l : list A) :
  k ∉ ks →
  filter (λ x, key x = k) l ++ filter (λ x, key x ∈ ks) l
  ≡ₚ filter (λ x, key x ∈ k :: ks) l.
Proof.
  intros Hk. induction l as [|x l IH]; [done|].
  rewrite !filter_cons.
  destruct (decide (key x = k)) as [Heq|Hne];
    destruct (decide (key x ∈ ks)) as [Hin|Hnin];
    destruct (decide (key x ∈ k :: ks)) as [Hin'|Hnin'];
    try (exfalso; set_solver).
  - simpl. by constructor.
  - rewrite <- Permutation_middle. by constructor.
  - done.
Qed.

(** Concatenating the groups of a table visits every row exactly once. *)
Lemma concat_groups (ks : list Z) (l : list A) :
  NoDup ks → (∀ x, x ∈ l → key x ∈ ks) →
  concat ((λ k, filter (λ x, key x = k) l) <$> ks) ≡ₚ l.
Proof.
  intros Hnd Hall.
  transitivity (filter (λ x, key x ∈ ks) l); [|by rewrite list_filter_all].
  clear Hall. induction Hnd as [|k ks Hk Hnd IH]; simpl.
  - symmetry. rewrite list_filter_none; [done|]. intros x _. apply not_elem_of_nil.
  - rewrite IH. by apply filter_key_split.
Qed.
End GroupBy.

(** Looking rows up by label in a table whose labels are distinct. *)
Lemma find_by_label {B} (l : list (nat * B)) (i : nat) (x : B) :
  NoDup (l.*1) → (i, x) ∈ l →
  list_find (λ p, p.1 = i) l ≫= (λ ip, Some ip.2) = Some (i, x).
Proof.
  intros Hnd Hin.
  destruct (list_find (λ p, p.1 = i) l) as [[k [i' y]]|] eqn:Hfind; simpl.
  - apply list_find_Some in Hfind as (Hk & Hi & _). simpl in Hi. subst i'.
    f_equal. f_equal.
    apply list_elem_of_lookup_2 in Hk.
    clear -Hnd Hin Hk. induction l as [|[j z] l IH]; [by apply elem_of_nil in Hin|].
    simpl in Hnd. apply NoDup_cons in Hnd as [Hj Hnd].
    apply elem_of_cons in Hin as [Hin|Hin]; apply elem_of_cons in Hk as [Hk|Hk].
    + congruence.
    + injection Hin as -> ->. exfalso. apply Hj.
      apply list_elem_of_fmap. by exists (j, y).
    + injection Hk as -> ->. exfalso. apply Hj.
      apply list_elem_of_fmap. by exists (j, x).
    + by apply IH.
  - apply list_find_None in Hfind. rewrite Forall_forall in Hfind.
    by destruct (Hfind _ Hin).
Qed.

Lemma omap_seq_rows {B C} (f : nat → option C) (h : nat → B → C) (l : list B) (s : nat) :
  (∀ i r, l !! i = Some r → f (s + i) = Some (h (s + i) r)) →
  omap f (seq s (length l)) = imap (λ i, h (s + i)) l.
Proof.
  revert s. induction l as [|r l IH]; intros s Hf; simpl; [done|].
  rewrite <- (Nat.add_0_r s) at 1. rewrite (Hf 0 r) by done. f_equal.
  change (list_omap nat C f) with (omap (M:=list) f). rewrite (IH (S s)).
  - apply imap_ext. intros i x _. simpl. f_equal. lia.
  - intros i x Hi. replace (S s + i) with (s + S i) by lia. by apply Hf.
Qed.

(** ** [apply_defense] *)

Section Defense.
Context `{Environment}.

Lemma group_ratings (df : DataFrame) (u : Z) :
  (λ p : nat * Rating, rating p.2)
    <$> filter (λ p, user_id p.2 = u) (zip (seq 0 (length df)) df)
  = user_ratings df u.
Proof.
  unfold user_ratings.
  rewrite <- (snd_zip (seq 0 (length df)) df) at 3 by (by rewrite length_seq).
  rewrite list_filter_fmap_comm, <- list_fmap_compose. done.
Qed.

Lemma clip_user_group (tau : Q) (df : DataFrame) (u : Z) :
  let group := filter (λ p : nat * Rating, user_id p.2 = u) (zip (seq 0 (length df)) df) in
  clip_user tau group = (λ p, (p.1, defend_row tau df p.2)) <$> group.
Proof.
  intros group. unfold clip_user. fold group.
  assert (Hrs : (λ p : nat * Rating, rating p.2) <$> group = user_ratings df u)
    by apply group_ratings.
  rewrite Hrs.
  assert (Hu : ∀ i p, group !! i = Some p → user_id p.2 = u).
  { intros i p Hp. apply list_elem_of_lookup_2 in Hp.
    by apply list_elem_of_filter in Hp as [Hp _]. }
  destruct (Qltb (np_std (user_ratings df u)) eps6) eqn:Hsigma.
  - rewrite <- (list_fmap_id group) at 1. apply list_fmap_ext.
    intros i [k r] Hp. unfold defend_row. rewrite (Hu _ _ Hp), Hsigma. done.
  - apply list_fmap_ext.
    intros i [k r] Hp. unfold defend_row. rewrite (Hu _ _ Hp), Hsigma. done.
Qed.

Lemma defend_row_user tau df r : user_id (defend_row tau df r) = user_id r.
Proof. unfold defend_row. by destruct (Qltb _ _). Qed.

Lemma defend_row_item tau df r : item_id (defend_row tau df r) = item_id r.
Proof. unfold defend_row. by destruct (Qltb _ _). Qed.

Lemma applied_groups (tau : Q) (df : DataFrame) :
  let idf := zip (seq 0 (length df)) df in
  concat (clip_user tau <$> groupby_user idf)
  ≡ₚ (λ p, (p.1, defend_row tau df p.2)) <$> idf.
Proof.
  intros idf. unfold groupby_user. fold idf.
  rewrite <- list_fmap_compose.
  set (keys := sorted (unique ((λ p : nat * Rating, user_id p.2) <$> idf))).
  transitivity
    ((λ p, (p.1, defend_row tau df p.2))
       <$> concat ((λ u, filter (λ p : nat * Rating, user_id p.2 = u) idf) <$> keys)).
  - apply reflexive_eq. induction keys as [|u keys IH]; [done|].
    simpl. rewrite fmap_app. f_equal; [|exact IH].
    apply clip_user_group.
  - apply fmap_Permutation. apply (concat_groups (λ p : nat * Rating, user_id p.2)).
    + apply NoDup_sorted_unique.
    + intros p Hp. apply elem_of_sorted_unique.
      apply list_elem_of_fmap. by exists p.
Qed.

(** [apply_defense] rewrites the table row by row, in place. *)
Lemma apply_defense_rows (df : DataFrame) (tau : Q) :
  apply_defense df tau = defend_row tau df <$> df.
Proof.
  unfold apply_defense.
  set (idf := zip (seq 0 (length df)) df).
  set (applied := concat (clip_user tau <$> groupby_user idf)).
  assert (Happ : applied ≡ₚ (λ p, (p.1, defend_row tau df p.2)) <$> idf)
    by apply applied_groups.
  assert (Hnd : NoDup (applied.*1)).
  { rewrite Happ, <- list_fmap_compose.
    replace ((fst ∘ λ p : nat * Rating, (p.1, defend_row tau df p.2)) <$> idf)
      with (idf.*1) by (by apply list_fmap_ext).
    unfold idf. rewrite fst_zip by (by rewrite length_seq). apply NoDup_seq. }
  unfold reindex.
  rewrite (omap_seq_rows _ (λ i r, (i, defend_row tau df r)) df 0).
  - rewrite fmap_imap. rewrite (imap_ext _ (λ _ r, defend_row tau df r)) by done.
    apply (imap_const (defend_row tau df)).
  - intros i r Hi. simpl. apply find_by_label; [done|].
    rewrite Happ. apply list_elem_of_fmap. exists (i, r). split; [done|].
    unfold idf. apply list_elem_of_lookup. exists i.
    rewrite lookup_zip_with, lookup_seq_lt by (by eapply lookup_lt_Some).
    simpl. by rewrite Hi.
Qed.

(** C10. [apply_defense] returns a table with as many observations as its
    input, and the observation at each position keeps the [user_id] and the
    [item_id] of the input observation at that position: only ratings can
    differ. *)
Theorem apply_defense_keeps_rows (df : DataFrame) (tau : Q) :
  length (apply_defense df tau) = length df ∧
  user_id <$> apply_defense df tau = user_id <$> df ∧
  item_id <$> apply_defense df tau = item_id <$> df.
Proof.
  rewrite apply_defense_rows. split; [by rewrite length_fmap|].
  rewrite <- !list_fmap_compose. split; apply list_fmap_ext; intros i r _; simpl.
  - apply defend_row_user.
  - apply defend_row_item.
Qed.
End Defense.

Section DefenseBounds.
Context `{Environment}.

Lemma rows_of_defended (df : DataFrame) (tau : Q) (u : Z) :
  rows_of (apply_defense df tau) u = defend_row tau df <$> rows_of df u.
Proof.
  unfold rows_of. rewrite apply_defense_rows, list_filter_fmap_comm.
  f_equal. apply list_filter_iff. intros r. by rewrite defend_row_user.
Qed.

(** C2, as amended. For every table and every non-negative [tau], each
    user's rows are either left exactly as they were because the population
    standard deviation of the user's ratings is below 1e-6, or all of the
    user's defended ratings lie in the closed interval
    [mean - tau*std, mean + tau*std] computed from the original ratings. *)
Theorem apply_defense_clips (df : DataFrame) (tau : Q) (u : Z) :
  (0 <= tau)%Q → clipped_or_untouched df tau u.
Proof.
  intros Htau. unfold clipped_or_untouched. rewrite rows_of_defended.
  set (rs := user_ratings df u).
  assert (Hrow : ∀ r, r ∈ rows_of df u → user_ratings df (user_id r) = rs).
  { intros r Hr. apply list_elem_of_filter in Hr as [-> _]. done. }
  destruct (Qltb (np_std rs) eps6) eqn:Hsigma.
  - left. split; [by apply Qltb_true|].
    rewrite <- (list_fmap_id (rows_of df u)) at 2. apply list_fmap_ext.
    intros i r Hr. apply list_elem_of_lookup_2 in Hr.
    unfold defend_row. by rewrite (Hrow _ Hr), Hsigma.
  - right. apply Forall_fmap, Forall_forall. intros r Hr. simpl.
    unfold defend_row. rewrite (Hrow _ Hr), Hsigma. simpl.
    apply np_clip_bounds. apply Qltb_false in Hsigma.
    assert (0 <= np_std rs)%Q.
    { eapply Qle_trans; [|exact Hsigma]. done. }
    assert (0 <= tau * np_std rs)%Q by (by apply Qmult_le_0_compat).
    lra.
Qed.
End DefenseBounds.

(** ** The concrete environments satisfy the laws *)

Lemma floor_sqrt_zero : @sqrt_zero env.
Proof.
  intros [a d] Hx. simpl. unfold floor_sqrt. simpl.
  assert (a = 0%Z) as ->.
  { unfold Qeq in Hx. simpl in Hx. lia. }
  done.
Qed.

Lemma first_choice_without_replacement : @choice_without_replacement env.
Proof.
  intros l n Hn. exists (take (Z.to_nat n) l). simpl. unfold first_choice.
  rewrite bool_decide_eq_true_2 by done. split; [done|]. split.
  - rewrite length_take. lia.
  - apply sublist_submseteq, sublist_take.
Qed.

Lemma key_le_total (keys : list Q) (a b : nat) :
  key_le keys a b = true ∨ key_le keys b a = true.
Proof.
  unfold key_le. rewrite !Qle_bool_iff.
  destruct (Qlt_le_dec (key_at keys a) (key_at keys b)) as [Hlt|Hle]; [left|by right].
  by apply Qlt_le_weak.
Qed.

Lemma key_le_trans (keys : list Q) (a b c : nat) :
  key_le keys a b = true → key_le keys b c = true → key_le keys a c = true.
Proof. unfold key_le. rewrite !Qle_bool_iff. apply Qle_trans. Qed.

Lemma stable_argsort_sorts : @argsort_sorts env.
Proof.
  intros keys. simpl. unfold stable_argsort. split.
  - apply sort_by_Permutation.
  - intros p q a b Hpq Hp Hq. apply Qle_bool_iff.
    apply (StronglySorted_lookup (λ a b, key_le keys a b = true)
             (sort_by (key_le keys) (seq 0 (length keys))) p q); try done.
    apply sort_by_sorted; [apply key_le_total | apply key_le_trans].
Qed.

Lemma reversing_argsort_sorts : @argsort_sorts env_unstable.
Proof.
  intros keys. simpl. unfold reversing_argsort.
  set (l := sort_by (λ a b, key_le keys b a) (seq 0 (length keys))). split.
  - rewrite reverse_Permutation. apply sort_by_Permutation.
  - intros p q a b Hpq Hp Hq. apply Qle_bool_iff.
    assert (Hlq : q < length l).
    { apply lookup_lt_Some in Hq. by rewrite length_reverse in Hq. }
    rewrite reverse_lookup in Hp by lia. rewrite reverse_lookup in Hq by lia.
    apply (StronglySorted_lookup (λ a b, key_le keys b a = true) l
             (length l - S q) (length l - S p) b a); try done; [|lia].
    apply sort_by_sorted.
    + intros x y. apply key_le_total.
    + intros x y z Hxy Hyz. by eapply key_le_trans.
Qed.

(** C2, the statement for every [tau] fails: with [tau = -1] and the two
    ratings 1 and 3 of one user (mean 2, deviation 1) the bounds are
    swapped, [np.clip] returns the upper bound 1 for both rows, and 1 is
    not in the interval from 3 to 1. *)
Lemma negative_tau_leaves_interval :
  ¬ @clipped_or_untouched env [mkRating 1 1 1; mkRating 1 2 3] (-1) 1.
Proof.
  unfold clipped_or_untouched. intros [[Hsigma _] | Hall].
  - vm_compute in Hsigma. discriminate.
  - apply Forall_inv in Hall as [Hlow _]. vm_compute in Hlow. by apply Hlow.
Qed.

Lemma apply_defense_clips_witness :
  @clipped_or_untouched env
    [mkRating 1 1 5; mkRating 2 1 5; mkRating 3 2 4; mkRating 3 1 1] (3 # 2) 3.
Proof. apply apply_defense_clips. vm_compute. discriminate. Defined.

(** ** [simulate_attack] *)

Section Attack.
Context `{Environment}.

Lemma simulate_attack_inv df A T n x attacked :
  simulate_attack df A T n x = Some attacked →
  ∃ push, attacked = df ++ attack_rows A T x push ∧
    (((n < Z.of_nat (length (other_items df T)))%Z ∧
      rng_choice (other_items df T) n = Some push) ∨
     ((Z.of_nat (length (other_items df T)) ≤ n)%Z ∧ push = other_items df T)).
Proof.
  unfold simulate_attack. fold (other_items df T).
  case_bool_decide as Hn.
  - destruct (rng_choice (other_items df T) n) as [push|] eqn:Hpush; [|done].
    simpl. intros [= <-]. exists push. split; [done|]. left. done.
  - simpl. intros [= <-]. exists (other_items df T). split; [done|]. right.
    split; [lia|done].
Qed.

Lemma simulate_attack_total df A T n x :
  choice_without_replacement → (0 ≤ n)%Z → is_Some (simulate_attack df A T n x).
Proof.
  intros Hchoice Hn. unfold simulate_attack. fold (other_items df T).
  case_bool_decide as Hlt; [|by eexists].
  destruct (Hchoice (other_items df T) n) as (push & -> & _); [lia|].
  by eexists.
Qed.

Lemma rows_of_attacked df A T x push :
  A ∉ user_id <$> df →
  rows_of (df ++ attack_rows A T x push) A = attack_rows A T x push.
Proof.
  intros Hfresh. unfold rows_of. rewrite filter_app.
  rewrite list_filter_none, list_filter_all; [done| |].
  - intros r Hr. unfold attack_rows in Hr.
    apply elem_of_cons in Hr as [->|Hr]; [done|].
    by apply list_elem_of_fmap in Hr as (it & -> & _).
  - intros r Hr Heq. apply Hfresh. apply list_elem_of_fmap. by exists r.
Qed.

Lemma attack_rows_ratings A T x push :
  rating <$> attack_rows A T x push = replicate (S (length push)) x.
Proof.
  unfold attack_rows. simpl. f_equal. rewrite <- list_fmap_compose.
  induction push as [|it push IH]; simpl; [done|]. by f_equal.
Qed.

(** The population deviation of a constant vector is zero. *)
Lemma np_std_constant (n : nat) (x : Q) :
  sqrt_zero → (np_std (replicate (S n) x) == 0)%Q.
Proof.
  intros Hsqrt. unfold np_std. apply Hsqrt.
  assert (Hpos : (0 < inject_Z (Z.of_nat (S n)))%Q) by (apply inject_nat_pos; lia).
  assert (Hmu : (np_mean (replicate (S n) x) == x)%Q).
  { unfold np_mean. rewrite Qsum_replicate, length_replicate. field.
    intros Hz. rewrite Hz in Hpos. by apply (Qlt_irrefl 0). }
  unfold np_mean at 1. rewrite Qsum_all_zero.
  - unfold Qdiv. apply Qmult_0_l.
  - apply Forall_fmap, Forall_forall. intros y Hy.
    apply elem_of_replicate in Hy as [-> _]. unfold compose. rewrite Hmu.
    assert (Hxx : (x - x == 0)%Q) by ring. rewrite Hxx. done.
Qed.

(** C3. For a fresh attacker id, the attack produces a table for every
    non-negative push count, and for any [tau] the defense leaves every
    observation of the attacker in that table unchanged, each still
    carrying the extreme rating: the attacker's ratings are all equal, so
    their deviation is zero, below the 1e-6 threshold.  Assumed of numpy:
    the square root of 0 is 0, and the seeded draw returns [n] entries
    taken without replacement. *)
Theorem defense_keeps_attacker_rows (df : DataFrame) (A T n : Z) (x tau : Q) :
  sqrt_zero → choice_without_replacement → A ∉ user_id <$> df →
  ((0 ≤ n)%Z → is_Some (simulate_attack df A T n x)) ∧
  ∀ attacked, simulate_attack df A T n x = Some attacked →
    rows_of attacked A ≠ [] ∧
    (np_std (user_ratings attacked A) < eps6)%Q ∧
    rows_of (apply_defense attacked tau) A = rows_of attacked A ∧
    Forall (λ r, rating r = x) (rows_of (apply_defense attacked tau) A).
Proof.
  intros Hsqrt Hchoice Hfresh. split; [by apply simulate_attack_total|].
  intros attacked Hatt.
  apply simulate_attack_inv in Hatt as (push & -> & _).
  set (attacked := df ++ attack_rows A T x push).
  assert (Hrows : rows_of attacked A = attack_rows A T x push)
    by (by apply rows_of_attacked).
  assert (Hsigma : (np_std (user_ratings attacked A) < eps6)%Q).
  { unfold user_ratings. fold (rows_of attacked A).
    rewrite Hrows, attack_rows_ratings, np_std_constant by done. done. }
  assert (Hsame : rows_of (apply_defense attacked tau) A = rows_of attacked A).
  { rewrite rows_of_defended.
    rewrite <- (list_fmap_id (rows_of attacked A)) at 2. apply list_fmap_ext.
    intros i r Hr. apply list_elem_of_lookup_2 in Hr.
    apply list_elem_of_filter in Hr as [Hu _].
    unfold defend_row. rewrite Hu. apply Qltb_true in Hsigma.
    by rewrite Hsigma. }
  split; [by rewrite Hrows|]. split; [done|]. split; [done|].
  rewrite Hsame, Hrows. apply Forall_forall. intros r Hr.
  apply elem_of_cons in Hr as [->|Hr]; [done|].
  by apply list_elem_of_fmap in Hr as (it & -> & _).
Qed.
End Attack.

Lemma submseteq_NoDup {A} (l k : list A) : l ⊆+ k → NoDup k → NoDup l.
Proof.
  intros Hsub Hnd. apply submseteq_Permutation in Hsub as [rest Hperm].
  rewrite Hperm in Hnd. by apply NoDup_app in Hnd as [Hl _].
Qed.

Lemma elem_of_other_items (df : DataFrame) (T it : Z) :
  it ∈ other_items df T ↔ it ∈ item_id <$> df ∧ it ≠ T.
Proof. unfold other_items. rewrite list_elem_of_filter, elem_of_unique. tauto. Qed.

Lemma NoDup_other_items (df : DataFrame) (T : Z) : NoDup (other_items df T).
Proof. apply NoDup_filter, NoDup_unique. Qed.

(** Appending one value that is not below the mean does not lower it. *)
Lemma np_mean_snoc (rs : list Q) (x : Q) :
  rs ≠ [] → (np_mean rs <= x)%Q → (np_mean rs <= np_mean (rs ++ [x]))%Q.
Proof.
  intros Hne Hle. unfold np_mean in *.
  assert (Hk : (0 < inject_Z (Z.of_nat (length rs)))%Q).
  { apply inject_nat_pos. destruct rs; [done|simpl; lia]. }
  rewrite Qsum_app, length_app. simpl length.
  replace (Z.of_nat (length rs + 1)) with (Z.of_nat (length rs) + 1)%Z by lia.
  rewrite inject_Z_plus. change (inject_Z 1) with 1%Q.
  change (Qsum [x]) with (x + 0)%Q.
  set (k := inject_Z (Z.of_nat (length rs))) in *. set (s := Qsum rs) in *.
  apply Qle_shift_div_l; [lra|].
  assert (Heq : (s / k * (k + 1) == s + s / k)%Q) by (field; lra).
  rewrite Heq. lra.
Qed.

Section AttackShape.
Context `{Environment}.

Lemma item_ratings_attacked df A T x push :
  T ∉ push →
  item_ratings (df ++ attack_rows A T x push) T = item_ratings df T ++ [x].
Proof.
  intros HT. unfold item_ratings, attack_rows.
  rewrite filter_app, fmap_app. f_equal.
  rewrite filter_cons_True by done. rewrite list_filter_none; [done|].
  intros r Hr. apply list_elem_of_fmap in Hr as (it & -> & Hit). simpl.
  intros ->. done.
Qed.

(** C1, as amended. For a fresh attacker id and a non-negative push count
    [n], [simulate_attack] with extreme rating 5 returns the original table
    followed by one observation of the target and by one observation for
    each pushed item, all by the attacker and all rated 5; the pushed items
    are distinct, differ from the target, are [min n k] of the [k] other
    items of the table, and are the seeded draw when [n < k] and all other
    items otherwise.  When the target has ratings whose mean is at most 5,
    its mean in the attacked table is not below its original mean.
    Assumed of numpy: the seeded draw returns [n] entries taken without
    replacement. *)
Theorem simulate_attack_pushes (df : DataFrame) (A T n : Z) :
  choice_without_replacement → A ∉ user_id <$> df → (0 ≤ n)%Z →
  ∃ push,
    let attacked := df ++ attack_rows A T 5 push in
    simulate_attack df A T n 5 = Some attacked ∧
    rows_of attacked A = attack_rows A T 5 push ∧
    NoDup push ∧ T ∉ push ∧ push ⊆+ other_items df T ∧
    length push = Z.to_nat n `min` length (other_items df T) ∧
    ((n < Z.of_nat (length (other_items df T)))%Z →
       rng_choice (other_items df T) n = Some push) ∧
    ((Z.of_nat (length (other_items df T)) ≤ n)%Z → push = other_items df T) ∧
    (∀ m, item_mean df T = Some m → (m <= 5)%Q →
       ∃ m', item_mean attacked T = Some m' ∧ (m <= m')%Q).
Proof.
  intros Hchoice Hfresh Hn.
  destruct (simulate_attack_total df A T n 5 Hchoice Hn) as [attacked Hatt].
  destruct (simulate_attack_inv _ _ _ _ _ _ Hatt) as (push & -> & Hpush).
  exists push. intros attacked.
  assert (Hsub : push ⊆+ other_items df T).
  { destruct Hpush as [[Hlt Hdraw] | [_ ->]]; [|done].
    destruct (Hchoice (other_items df T) n) as (r & Hr & _ & Hsub); [lia|].
    congruence. }
  assert (HT : T ∉ push).
  { intros Hin. apply (elem_of_submseteq _ _ _ Hin) in Hsub.
    apply elem_of_other_items in Hsub as [_ Hne]. done. }
  split; [done|]. split; [by apply rows_of_attacked|].
  split; [eapply submseteq_NoDup; [done|apply NoDup_other_items]|].
  split; [done|]. split; [done|]. split.
  { destruct Hpush as [[Hlt Hdraw] | [Hge ->]]; [|lia].
    destruct (Hchoice (other_items df T) n) as (r & Hr & Hlen & _); [lia|].
    assert (r = push) as -> by congruence. lia. }
  split.
  { intros Hlt. destruct Hpush as [[_ Hdraw] | [Hge _]]; [done|lia]. }
  split.
  { intros Hge. destruct Hpush as [[Hlt _] | [_ Heq]]; [lia|done]. }
  intros m Hm Hle. unfold item_mean in *. unfold attacked.
  rewrite item_ratings_attacked by done.
  case_bool_decide as Hrs; [done|]. injection Hm as <-.
  rewrite bool_decide_eq_false_2 by (by destruct (item_ratings df T)).
  eexists. split; [done|]. by apply np_mean_snoc.
Qed.
End AttackShape.

(** C1, the statement for every table fails: a table whose only rating of
    the target is 6 has target mean 6, and after the attack the mean of
    the ratings 6 and 5 is 11/2. *)
Lemma attack_lowers_high_mean : ¬ @attack_raises_mean env [mkRating 1 1 6] 2 1 0.
Proof.
  intros Hclaim.
  specialize (Hclaim [mkRating 1 1 6; mkRating 2 1 5] 6%Q ((6 + (5 + 0)) / 2)%Q).
  assert (Hle : (6 <= (6 + (5 + 0)) / 2)%Q) by (apply Hclaim; reflexivity).
  vm_compute in Hle. by apply Hle.
Qed.

Lemma simulate_attack_pushes_witness :
  ∃ push,
    let attacked :=
      [mkRating 1 1 5; mkRating 2 1 5; mkRating 2 2 4; mkRating 3 3 2]
      ++ attack_rows 9 1 5 push in
    @simulate_attack env
      [mkRating 1 1 5; mkRating 2 1 5; mkRating 2 2 4; mkRating 3 3 2] 9 1 1 5
    = Some attacked ∧ length push = 1.
Proof.
  destruct (@simulate_attack_pushes env
    [mkRating 1 1 5; mkRating 2 1 5; mkRating 2 2 4; mkRating 3 3 2] 9 1 1
    first_choice_without_replacement) as (push & Hatt & _ & _ & _ & _ & Hlen & _).
  - apply (bool_decide_unpack _). vm_compute. exact I.
  - lia.
  - exists push. split; [exact Hatt|exact Hlen].
Defined.

(** ** [recommend]: masks and predicted scores *)

Lemma list_filter_ext_elem {A} (P1 P2 : A → Prop)
    `{∀ x, Decision (P1 x)} `{∀ x, Decision (P2 x)} (l : list A) :
  (∀ x, x ∈ l → (P1 x ↔ P2 x)) → filter P1 l = filter P2 l.
Proof.
  induction l as [|x l IH]; intros Hext; [done|].
  rewrite !filter_cons.
  assert (Hx : P1 x ↔ P2 x) by (apply Hext; left).
  rewrite IH by (intros y Hy; apply Hext; by right).
  destruct (decide (P1 x)), (decide (P2 x)); tauto.
Qed.

Lemma mask_select_shift {A} (d : A) (l : list A) (mask : list bool) (s : nat) :
  length l = length mask →
  mask_select l mask =
  (λ i, default d (l !! (i - s)))
    <$> filter (λ i, mask !! (i - s) = Some true) (seq s (length mask)).
Proof.
  revert l s. induction mask as [|b mask IH]; intros [|x l] s Hlen; try done.
  simpl in Hlen. injection Hlen as Hlen. simpl mask_select. simpl length. simpl seq.
  assert (Htail :
    (λ i, default d (l !! (i - S s)))
      <$> filter (λ i, mask !! (i - S s) = Some true) (seq (S s) (length mask))
    = (λ i, default d ((x :: l) !! (i - s)))
      <$> filter (λ i, (b :: mask) !! (i - s) = Some true) (seq (S s) (length mask))).
  { assert (Hshift : ∀ i, i ∈ seq (S s) (length mask) → i - s = S (i - S s)).
    { intros i Hi. apply elem_of_seq in Hi. lia. }
    rewrite (list_filter_ext_elem
               (λ i, (b :: mask) !! (i - s) = Some true)
               (λ i, mask !! (i - S s) = Some true)).
    - apply list_fmap_ext. intros k i Hi. apply list_elem_of_lookup_2 in Hi.
      apply list_elem_of_filter in Hi as [_ Hi]. by rewrite (Hshift i Hi).
    - intros i Hi. by rewrite (Hshift i Hi). }
  rewrite filter_cons, Nat.sub_diag. simpl.
  destruct b.
  - rewrite decide_True by done. rewrite fmap_cons, Nat.sub_diag. simpl.
    f_equal. rewrite (IH l (S s) Hlen). exact Htail.
  - rewrite decide_False by done. rewrite (IH l (S s) Hlen). exact Htail.
Qed.

Lemma rated_mask_lookup (ur : list Q) (j : nat) :
  default false (rated_mask ur !! j) = Qltb 0 (key_at ur j).
Proof.
  unfold rated_mask, key_at. rewrite list_lookup_fmap.
  by destruct (ur !! j).
Qed.

Lemma key_at_positive (l : list Q) (i : nat) :
  (0 < key_at l i)%Q → i < length l.
Proof.
  intros Hpos. destruct (decide (i < length l)) as [|Hge]; [done|].
  unfold key_at in Hpos. rewrite lookup_ge_None_2 in Hpos by lia.
  by apply Qlt_irrefl in Hpos.
Qed.

Lemma rated_mask_true (ur : list Q) (i : nat) :
  rated_mask ur !! i = Some true ↔ (0 < key_at ur i)%Q.
Proof.
  rewrite <- Qltb_true, <- rated_mask_lookup. split.
  - by intros ->.
  - destruct (rated_mask ur !! i) as [b|] eqn:Hb; simpl; [by intros ->|done].
Qed.

(** Selecting by the rated mask is reading at the rated positions. *)
Lemma mask_select_rated (l ur : list Q) :
  length l = length ur →
  mask_select l (rated_mask ur) =
  key_at l <$> filter (λ i, (0 < key_at ur i)%Q) (seq 0 (length ur)).
Proof.
  intros Hlen.
  rewrite (mask_select_shift 0%Q l (rated_mask ur) 0)
    by (unfold rated_mask; by rewrite length_fmap).
  unfold rated_mask at 3. rewrite length_fmap.
  rewrite (list_filter_iff _ (λ i, (0 < key_at ur i)%Q)).
  - apply list_fmap_ext. intros k i _. unfold key_at. by rewrite Nat.sub_0_r.
  - intros i. rewrite Nat.sub_0_r. apply rated_mask_true.
Qed.

Lemma dot_fmap {A} (f g : A → Q) (l : list A) :
  dot (f <$> l) (g <$> l) = Qsum ((λ i, f i * g i)%Q <$> l).
Proof.
  unfold dot. induction l as [|x l IH]; [done|].
  rewrite !fmap_cons. simpl zip_with.
  change (Qsum (?a :: ?t)) with (a + Qsum t)%Q. by rewrite IH.
Qed.

Lemma has_rating_iff (ur : list Q) :
  existsb id (rated_mask ur) = true ↔ ∃ i, (0 < key_at ur i)%Q.
Proof.
  rewrite existsb_exists. split.
  - intros (b & Hin & Hb). unfold id in Hb. subst b.
    apply list_elem_of_In, list_elem_of_lookup in Hin as [i Hi].
    exists i. by apply rated_mask_true.
  - intros [i Hi]. exists true. split; [|done].
    apply list_elem_of_In, list_elem_of_lookup. exists i. by apply rated_mask_true.
Qed.

Lemma fmap_lookup_seq {A} (d : A) (l : list A) :
  (λ i, default d (l !! i)) <$> seq 0 (length l) = l.
Proof.
  apply list_eq. intros i. rewrite list_lookup_fmap.
  destruct (decide (i < length l)) as [Hi|Hi].
  - rewrite lookup_seq_lt by done. simpl.
    destruct (lookup_lt_is_Some_2 l i Hi) as [x Hx]. by rewrite Hx.
  - rewrite lookup_seq_ge, lookup_ge_None_2 by lia. done.
Qed.

Lemma py_slice_to_prefix {A} (k : Z) (l : list A) :
  ∃ n, py_slice_to k l = take n l.
Proof. unfold py_slice_to. case_bool_decide; by eexists. Qed.

Lemma py_slice_to_nonneg {A} (k : Z) (l : list A) :
  (0 ≤ k)%Z → py_slice_to k l = take (Z.to_nat k) l.
Proof. intros Hk. unfold py_slice_to. by rewrite bool_decide_eq_true_2. Qed.

Lemma py_slice_to_all {A} (k : Z) (l : list A) :
  (Z.of_nat (length l) ≤ k)%Z → py_slice_to k l = l.
Proof.
  intros Hk. rewrite py_slice_to_nonneg by lia. apply take_ge. lia.
Qed.

Lemma matrix_at_row (M : list (list Q)) (i j : nat) :
  key_at (default [] (M !! i)) j = matrix_at M i j.
Proof. unfold key_at, matrix_at. by destruct (M !! i). Qed.

Section Recommend.
Context `{Environment}.
Implicit Types (df : DataFrame) (titles : gmap Z string) (m : ItemItemCFModel).

Lemma init_user_to_idx df titles uid u :
  user_to_idx (ItemItemCFModel_init df titles) !! uid = Some u
  ↔ users_of df !! u = Some uid.
Proof. apply dict_of_enumerate_lookup, NoDup_sorted_unique. Qed.

Lemma init_user_unknown df titles uid :
  user_to_idx (ItemItemCFModel_init df titles) !! uid = None ↔ uid ∉ user_id <$> df.
Proof.
  rewrite <- (elem_of_sorted_unique (user_id <$> df)). fold (users_of df). split.
  - intros Hnone Hin. apply list_elem_of_lookup in Hin as [u Hu].
    apply init_user_to_idx with (titles := titles) in Hu. congruence.
  - intros Hnin.
    destruct (user_to_idx (ItemItemCFModel_init df titles) !! uid) as [u|] eqn:Hu;
      [|done].
    exfalso. apply Hnin. apply init_user_to_idx in Hu.
    by eapply list_elem_of_lookup_2.
Qed.

Lemma init_item_to_idx df titles item j :
  item_to_idx (ItemItemCFModel_init df titles) !! item = Some j
  ↔ items_of df !! j = Some item.
Proof. apply dict_of_enumerate_lookup, NoDup_sorted_unique. Qed.

Lemma init_idx_to_item df titles j :
  idx_to_item (ItemItemCFModel_init df titles) !! j = items_of df !! j.
Proof. apply dict_of_index_lookup. Qed.

Lemma init_user_row df titles uid u :
  let m := ItemItemCFModel_init df titles in
  user_to_idx m !! uid = Some u → length (user_row m u) = n_items m.
Proof.
  intros m Hu. apply init_user_to_idx in Hu. apply lookup_lt_Some in Hu.
  destruct (has_shape_row _ _ _ u (init_R_shape df titles) Hu) as (row & Hrow & Hlen).
  unfold user_row. fold m in Hrow. by rewrite Hrow.
Qed.

Lemma init_sim_row df titles j :
  let m := ItemItemCFModel_init df titles in
  j < n_items m → length (default [] (sim m !! j)) = n_items m.
Proof.
  intros m Hj.
  destruct (has_shape_row _ _ _ j (init_sim_shape df titles) Hj) as (row & Hrow & Hlen).
  fold m in Hrow. by rewrite Hrow.
Qed.

Lemma predict_scores_length m ur : length (predict_scores m ur) = n_items m.
Proof. unfold predict_scores. by rewrite length_fmap, length_seq. Qed.

Lemma predict_scores_at m ur j :
  j < n_items m → key_at (predict_scores m ur) j = predict m ur j.
Proof.
  intros Hj. unfold key_at, predict_scores.
  by rewrite list_lookup_fmap, lookup_seq_lt.
Qed.

Lemma predict_rated m ur j : (0 < key_at ur j)%Q → predict m ur j = 0%Q.
Proof.
  intros Hpos. unfold predict. rewrite rated_mask_lookup.
  apply Qltb_true in Hpos. by rewrite Hpos.
Qed.

Lemma rated_items_row m u :
  length (user_row m u) = n_items m →
  filter (λ i, (0 < key_at (user_row m u) i)%Q) (seq 0 (length (user_row m u)))
  = rated_items m u.
Proof.
  intros ->. unfold rated_items. apply list_filter_iff. intros i.
  unfold user_row. by rewrite matrix_at_row.
Qed.

(** The loop body on an unrated item, in terms of the matrices. *)
Lemma predict_unrated df titles uid u j :
  let m := ItemItemCFModel_init df titles in
  user_to_idx m !! uid = Some u → j < n_items m →
  ¬ (0 < matrix_at (R m) u j)%Q →
  predict m (user_row m u) j =
  if forallb (λ s, Qeq_bool s 0) (matrix_at (sim m) j <$> rated_items m u)
  then 0%Q else score_formula m u j.
Proof.
  intros m Hu Hj Hunrated.
  assert (Hlen : length (user_row m u) = n_items m) by (by eapply init_user_row).
  assert (Hrow : length (default [] (sim m !! j)) = length (user_row m u)).
  { rewrite Hlen. by apply init_sim_row. }
  unfold predict. rewrite rated_mask_lookup.
  assert (Hmask : Qltb 0 (key_at (user_row m u) j) = false).
  { apply Qltb_false. apply Qnot_lt_le. unfold user_row. by rewrite matrix_at_row. }
  rewrite Hmask. cbv zeta.
  rewrite (mask_select_rated _ _ Hrow), (mask_select_rated _ _ eq_refl).
  rewrite (rated_items_row m u Hlen).
  assert (Hsims : key_at (default [] (sim m !! j)) <$> rated_items m u
                  = matrix_at (sim m) j <$> rated_items m u).
  { apply list_fmap_ext. intros k i _. apply matrix_at_row. }
  rewrite Hsims. destruct (forallb _ _); [done|].
  unfold score_formula. rewrite dot_fmap, <- list_fmap_compose.
  f_equal. f_equal. apply list_fmap_ext. intros k i _. simpl.
  unfold user_row. by rewrite matrix_at_row.
Qed.

Lemma elem_of_candidate_indices (scores : list Q) (j : nat) :
  j ∈ candidate_indices scores ↔ (0 < key_at scores j)%Q.
Proof.
  unfold candidate_indices. rewrite list_elem_of_filter, elem_of_seq. split.
  - tauto.
  - intros Hpos. split; [done|]. apply key_at_positive in Hpos. lia.
Qed.

Lemma recommend_unknown m uid top_k :
  user_to_idx m !! uid = None → recommend m uid top_k = popularity_recs m top_k.
Proof. intros Hu. unfold recommend. by rewrite Hu. Qed.

Lemma known_user_has_rating m uid u :
  known_rated_user m uid u → existsb id (rated_mask (user_row m u)) = true.
Proof.
  intros [_ [i Hi]]. apply has_rating_iff. exists i.
  unfold user_row. by rewrite matrix_at_row.
Qed.

Lemma recommend_ranked m uid u top_k :
  known_rated_user m uid u → candidate_indices (scores_of m u) ≠ [] →
  recommend m uid top_k
  = rec_entry m (scores_of m u) <$> top_indices (scores_of m u) top_k.
Proof.
  intros Hknown Hcand. unfold recommend.
  rewrite (proj1 Hknown). fold (user_row m u).
  rewrite (known_user_has_rating _ _ _ Hknown). simpl.
  fold (scores_of m u). rewrite bool_decide_eq_false_2; [done|].
  by destruct (candidate_indices (scores_of m u)).
Qed.

Lemma recommend_fallback m uid u top_k :
  known_rated_user m uid u → candidate_indices (scores_of m u) = [] →
  recommend m uid top_k = popularity_recs m top_k.
Proof.
  intros Hknown Hcand. unfold recommend.
  rewrite (proj1 Hknown). fold (user_row m u).
  rewrite (known_user_has_rating _ _ _ Hknown). simpl.
  fold (scores_of m u). by rewrite Hcand.
Qed.

Section Ranking.
Hypothesis argsort_law : argsort_sorts.

Lemma ranked_Permutation (scores : list Q) :
  ranked_candidates scores ≡ₚ candidate_indices scores.
Proof.
  unfold ranked_candidates.
  destruct (argsort_law (Qopp <$> (key_at scores <$> candidate_indices scores)))
    as [Hperm _].
  rewrite Hperm, !length_fmap. by rewrite fmap_lookup_seq.
Qed.

Lemma ranked_descending (scores : list Q) (p q a b : nat) :
  p < q → ranked_candidates scores !! p = Some a →
  ranked_candidates scores !! q = Some b →
  (key_at scores b <= key_at scores a)%Q.
Proof.
  intros Hpq Hp Hq. unfold ranked_candidates in Hp, Hq.
  set (cand := candidate_indices scores) in *.
  set (keys := Qopp <$> (key_at scores <$> cand)) in *.
  destruct (argsort_law keys) as [Hperm Hsorted].
  apply list_lookup_fmap_Some in Hp as (o & -> & Ho).
  apply list_lookup_fmap_Some in Hq as (o' & -> & Ho').
  assert (Hkey : ∀ k i, np_argsort keys !! k = Some i →
            key_at keys i = (- key_at scores (default 0%nat (cand !! i)))%Q).
  { intros k i Hi. apply list_elem_of_lookup_2 in Hi. rewrite Hperm in Hi.
    apply elem_of_seq in Hi as [_ Hi]. unfold keys in Hi.
    rewrite !length_fmap in Hi. simpl in Hi.
    destruct (lookup_lt_is_Some_2 cand i Hi) as [c Hc].
    unfold key_at at 1. unfold keys.
    by rewrite !list_lookup_fmap, Hc. }
  pose proof (Hsorted p q o o' Hpq Ho Ho') as Hle.
  rewrite (Hkey _ _ Ho), (Hkey _ _ Ho') in Hle. lra.
Qed.

Lemma elem_of_top_indices (scores : list Q) (top_k : Z) (j : nat) :
  j ∈ top_indices scores top_k → (0 < key_at scores j)%Q.
Proof.
  unfold top_indices. destruct (py_slice_to_prefix top_k (ranked_candidates scores))
    as [n ->].
  intros Hj. apply elem_of_take in Hj as (i & Hi & _).
  apply list_elem_of_lookup_2 in Hi. rewrite ranked_Permutation in Hi.
  by apply elem_of_candidate_indices.
Qed.
End Ranking.
End Recommend.

Lemma forallb_zero (f : nat → Q) (l : list nat) :
  forallb (λ s, Qeq_bool s 0) (f <$> l) = true ↔ ∀ i, i ∈ l → (f i == 0)%Q.
Proof.
  induction l as [|x l IH]; simpl.
  - split; [|done]. intros _ i Hi. by apply elem_of_nil in Hi.
  - rewrite andb_true_iff, IH, Qeq_bool_iff. split.
    + intros [Hx Hl] i Hi. apply elem_of_cons in Hi as [->|Hi]; [done|by apply Hl].
    + intros Hall. split; [apply Hall; left|]. intros i Hi. apply Hall. by right.
Qed.

Section RecommendClaims.
Context `{Environment}.
Implicit Types (df : DataFrame) (titles : gmap Z string).

(** The theorems of this section assume numpy's contract for [argsort]:
    it returns a permutation of the positions that lists the keys in
    ascending order. *)
Section WithArgsort.
Hypothesis argsort_law : argsort_sorts.

(** Every entry of a ranked result is the entry of a candidate index. *)
Lemma ranked_entry df titles uid u top_k e :
  let m := ItemItemCFModel_init df titles in
  known_rated_user m uid u → candidate_indices (scores_of m u) ≠ [] →
  e ∈ recommend m uid top_k →
  ∃ j, j ∈ candidate_indices (scores_of m u) ∧ j < n_items m ∧
       idx_to_item m !! j = Some (rec_item_id e) ∧
       item_to_idx m !! rec_item_id e = Some j ∧
       rec_score e = key_at (scores_of m u) j.
Proof.
  intros m Hknown Hcand He.
  rewrite (recommend_ranked m uid u top_k Hknown Hcand) in He.
  apply list_elem_of_fmap in He as (j & -> & Hj).
  apply (elem_of_top_indices argsort_law) in Hj.
  assert (Hlt : j < n_items m).
  { apply key_at_positive in Hj. unfold scores_of in Hj.
    by rewrite predict_scores_length in Hj. }
  exists j. split; [by apply elem_of_candidate_indices|]. split; [done|].
  destruct (lookup_lt_is_Some_2 (items_of df) j Hlt) as [item Hitem].
  assert (Hidx : idx_to_item m !! j = Some item).
  { unfold m. by rewrite init_idx_to_item. }
  unfold rec_entry. rewrite Hidx. simpl.
  split; [done|]. split; [|done].
  by apply (proj2 (init_item_to_idx df titles item j)).
Qed.

(** C5, as amended. For a known user with at least one rating: an unrated
    item with some non-zero similarity to a rated item gets the score
    (sum over rated i of S[j,i]*R[u,i]) / (sum over rated i of |S[j,i]|
    + 1e-8); an unrated item whose similarity to every rated item is 0
    keeps score 0 and is not a candidate; when at least one candidate
    exists, every returned entry is a candidate and carries its strictly
    positive predicted score; when no candidate exists the popularity list
    is returned instead. *)
Theorem recommend_prediction df titles (uid : Z) (u : nat) (top_k : Z) :
  let m := ItemItemCFModel_init df titles in
  known_rated_user m uid u →
  (∀ j, j < n_items m → ¬ (0 < matrix_at (R m) u j)%Q → some_similarity m u j →
     key_at (scores_of m u) j = score_formula m u j) ∧
  (∀ j, j < n_items m → ¬ (0 < matrix_at (R m) u j)%Q → no_similarity m u j →
     key_at (scores_of m u) j = 0%Q ∧ j ∉ candidate_indices (scores_of m u)) ∧
  (candidate_indices (scores_of m u) ≠ [] →
     ∀ e, e ∈ recommend m uid top_k →
       (0 < rec_score e)%Q ∧
       ∃ j, j ∈ candidate_indices (scores_of m u) ∧
            idx_to_item m !! j = Some (rec_item_id e) ∧
            rec_score e = key_at (scores_of m u) j) ∧
  (candidate_indices (scores_of m u) = [] →
     recommend m uid top_k = popularity_recs m top_k).
Proof.
  intros m Hknown.
  assert (Hscore : ∀ j, j < n_items m → ¬ (0 < matrix_at (R m) u j)%Q →
            key_at (scores_of m u) j =
            if forallb (λ s, Qeq_bool s 0) (matrix_at (sim m) j <$> rated_items m u)
            then 0%Q else score_formula m u j).
  { intros j Hj Hunrated. unfold scores_of. rewrite predict_scores_at by done.
    by eapply predict_unrated; [apply Hknown|..]. }
  split; [|split; [|split]].
  - intros j Hj Hunrated (i & Hi & Hnz). rewrite (Hscore j Hj Hunrated).
    destruct (forallb _ _) eqn:Hall; [|done].
    exfalso. apply Hnz. by apply (proj1 (forallb_zero _ _) Hall).
  - intros j Hj Hunrated Hzero.
    assert (Hj0 : key_at (scores_of m u) j = 0%Q).
    { rewrite (Hscore j Hj Hunrated).
      by rewrite (proj2 (forallb_zero (matrix_at (sim m) j) _) Hzero). }
    split; [done|]. rewrite elem_of_candidate_indices, Hj0.
    apply Qlt_irrefl.
  - intros Hcand e He.
    destruct (ranked_entry df titles uid u top_k e Hknown Hcand He)
      as (j & Hj & _ & Hidx & _ & Hsc).
    split; [|by exists j].
    rewrite Hsc. by apply elem_of_candidate_indices.
  - by apply recommend_fallback.
Qed.

(** C6, as amended. For a known user with at least one rating, whenever
    some item has a strictly positive predicted score, no item returned by
    [recommend] is an item the user has already rated. *)
Theorem recommend_skips_rated df titles (uid : Z) (u : nat) (top_k : Z) :
  candidate_indices (scores_of (ItemItemCFModel_init df titles) u) ≠ [] →
  never_returns_rated df titles uid u top_k.
Proof.
  intros Hcand Hknown e He (j' & Hj' & Hrated).
  destruct (ranked_entry df titles uid u top_k e Hknown Hcand He)
    as (j & Hj & Hlt & _ & Hidx & _).
  assert (j' = j) as -> by congruence.
  apply elem_of_candidate_indices in Hj.
  unfold scores_of in Hj. rewrite predict_scores_at in Hj by done.
  rewrite predict_rated in Hj; [by apply Qlt_irrefl in Hj|].
  unfold user_row. by rewrite matrix_at_row.
Qed.

(** C8, as amended. For a known user with at least one rating: if the
    candidate set is not empty and has fewer than [top_k] items,
    [recommend] returns exactly the entries of those candidates, without
    padding; if the candidate set is empty, [recommend] returns the
    popularity list. *)
Theorem recommend_without_padding df titles (uid : Z) (u : nat) (top_k : Z) :
  let m := ItemItemCFModel_init df titles in
  (candidate_indices (scores_of m u) ≠ [] →
     returns_only_candidates df titles uid u top_k) ∧
  (known_rated_user m uid u → candidate_indices (scores_of m u) = [] →
     recommend m uid top_k = popularity_recs m top_k).
Proof.
  intros m. split; [|apply recommend_fallback].
  intros Hcand Hknown Hfew. fold m in Hfew |- *.
  rewrite (recommend_ranked m uid u top_k Hknown Hcand).
  unfold top_indices. rewrite py_slice_to_all.
  - apply fmap_Permutation. by apply ranked_Permutation.
  - rewrite (Permutation_length (ranked_Permutation argsort_law _)). lia.
Qed.

(** C9, as amended. For a known user with at least one rating and a
    non-empty candidate set, the returned entries carry the predicted
    scores of their items and are ordered by that score, descending.  The
    relative order of entries with equal scores is the one the default
    [argsort] happens to produce. *)
Theorem recommend_descending df titles (uid : Z) (u : nat) (top_k : Z) :
  let m := ItemItemCFModel_init df titles in
  known_rated_user m uid u → candidate_indices (scores_of m u) ≠ [] →
  ∀ p q ep eq, p < q →
    recommend m uid top_k !! p = Some ep → recommend m uid top_k !! q = Some eq →
    (rec_score eq <= rec_score ep)%Q ∧
    ∃ jp jq, item_to_idx m !! rec_item_id ep = Some jp ∧
             item_to_idx m !! rec_item_id eq = Some jq ∧
             rec_score ep = key_at (scores_of m u) jp ∧
             rec_score eq = key_at (scores_of m u) jq.
Proof.
  intros m Hknown Hcand p q ep eq Hpq Hp Hq.
  destruct (ranked_entry df titles uid u top_k ep Hknown Hcand)
    as (jp & _ & _ & _ & Hjp & Hsp); [by eapply list_elem_of_lookup_2|].
  destruct (ranked_entry df titles uid u top_k eq Hknown Hcand)
    as (jq & _ & _ & _ & Hjq & Hsq); [by eapply list_elem_of_lookup_2|].
  split; [|by exists jp, jq].
  rewrite (recommend_ranked m uid u top_k Hknown Hcand) in Hp, Hq.
  apply list_lookup_fmap_Some in Hp as (a & -> & Ha).
  apply list_lookup_fmap_Some in Hq as (b & -> & Hb).
  unfold top_indices in Ha, Hb.
  destruct (py_slice_to_prefix top_k (ranked_candidates (scores_of m u))) as [n Hn].
  rewrite Hn in Ha, Hb.
  apply lookup_take_Some in Ha as [Ha _]. apply lookup_take_Some in Hb as [Hb _].
  simpl. by apply (ranked_descending argsort_law _ p q).
Qed.
End WithArgsort.
End RecommendClaims.

(** ** Counterexamples and instances on sample tables *)

Lemma store20_user1_known :
  known_rated_user (@ItemItemCFModel_init env store20 ∅) 1 0.
Proof. split; [by_computation|]. exists 0. by_computation. Qed.

(** C6, the statement for every query fails: in [store20] user 1 has
    rated the only item, no item has a positive predicted score, and
    [recommend] falls back to the popularity list, which consists of item
    1, an item the user has rated. *)
Lemma fallback_returns_rated_item : ¬ @never_returns_rated env store20 ∅ 1 0 5.
Proof.
  intros Hclaim.
  apply (Hclaim store20_user1_known (untitled 1 (100 # 20))).
  - replace (@recommend env (@ItemItemCFModel_init env store20 ∅) 1 5)
      with [untitled 1 (100 # 20)] by by_computation.
    apply list_elem_of_singleton. done.
  - exists 0. split; by_computation.
Qed.

(** C8, the statement for every query fails: in [store20] the candidate
    set of user 1 is empty, fewer than [top_k = 5], yet [recommend] returns
    one popularity entry rather than the empty list. *)
Lemma fallback_pads_empty_candidates : ¬ @returns_only_candidates env store20 ∅ 1 0 5.
Proof.
  intros Hclaim.
  assert (Hperm := Hclaim store20_user1_known ltac:(by_computation)).
  apply Permutation_length in Hperm. vm_compute in Hperm. discriminate.
Qed.

Lemma store21_user21_known :
  known_rated_user (@ItemItemCFModel_init env store21 ∅) 21 20.
Proof. split; [by_computation|]. exists 1. by_computation. Qed.

Lemma zero_store_user21_known :
  known_rated_user (@ItemItemCFModel_init env zero_store ∅) 21 20.
Proof. split; [by_computation|]. exists 1. by_computation. Qed.

(** C5, the statement for every query fails: in [store21] user 21 rated
    only item 2, item 1 has similarity 0 to item 2 and keeps score 0, no
    candidate exists, and [recommend] returns the popularity list, which
    contains item 1.  In [zero_store], where item 1 only has ratings of
    value 0, the entry returned for it has score 0, which is not strictly
    positive. *)
Lemma fallback_returns_zero_similarity_item :
  ¬ @prediction_claim env store21 ∅ 21 20 5 ∧
  ¬ @prediction_claim env zero_store ∅ 21 20 5.
Proof.
  split.
  - intros Hclaim. destruct (Hclaim store21_user21_known) as (_ & Hzero & _).
    destruct (Hzero 0 1%Z) as [_ Hexcluded].
    + by_computation.
    + intros Hrated. vm_compute in Hrated. discriminate.
    + intros i Hi.
      replace (rated_items (@ItemItemCFModel_init env store21 ∅) 20) with [1] in Hi
        by by_computation.
      apply list_elem_of_singleton in Hi as ->. by_computation.
    + by_computation.
    + apply (Hexcluded (untitled 1 (100 # 20))); [|done].
      replace (@recommend env (@ItemItemCFModel_init env store21 ∅) 21 5)
        with [untitled 1 (100 # 20)] by by_computation.
      apply list_elem_of_singleton. done.
  - intros Hclaim. destruct (Hclaim zero_store_user21_known) as (_ & _ & Hpos).
    assert (Hlt : (0 < rec_score (untitled 1 (0 # 20)))%Q).
    { apply Hpos.
      replace (@recommend env (@ItemItemCFModel_init env zero_store ∅) 21 5)
        with [untitled 1 (0 # 20)] by by_computation.
      apply list_elem_of_singleton. done. }
    vm_compute in Hlt. discriminate.
Qed.

Lemma tied_store_user1_known (E : Environment) :
  known_rated_user (@ItemItemCFModel_init E tied_store ∅) 1 0.
Proof. split; [by_computation|]. exists 0. by_computation. Qed.

Lemma wide_tied_store_user1_known :
  known_rated_user (@ItemItemCFModel_init env_numpy wide_tied_store ∅) 1 0.
Proof. split; [by_computation|]. exists 0. by_computation. Qed.

(** C9, the tie-break fails.  First, under an [argsort] that meets numpy's
    contract: in [tied_store] items 2 and 3 (indices 1 and 2) get the same
    score for user 1, and with [reversing_argsort] the result lists item 3
    before item 2.  Second, under numpy's own introsort: in
    [wide_tied_store] the 18 items 2 to 19 get the same score for user 1,
    the quicksort partition of 18 equal keys swaps them pairwise, and
    [recommend] with [top_k = 5] returns items 2, 17, 16, 15, 14, so item
    17 (index 16) precedes item 16 (index 15). *)
Lemma equal_scores_in_descending_index :
  (@argsort_sorts env_unstable ∧
   ¬ @ranked_by_score_then_index env_unstable tied_store ∅ 1 0 5) ∧
  ¬ @ranked_by_score_then_index env_numpy wide_tied_store ∅ 1 0 5.
Proof.
  split; [split; [apply reversing_argsort_sorts|]|].
  - intros Hclaim.
    destruct (Hclaim (tied_store_user1_known env_unstable) ltac:(by_computation)
                0 1
                (untitled 3 (437500000000 # 87500001225))
                (untitled 2 (437500000000 # 87500001225))
                2 1) as [_ Htie]; try by_computation.
    assert (2 < 1) by (apply Htie; by_computation). lia.
  - intros Hclaim.
    destruct (Hclaim wide_tied_store_user1_known ltac:(by_computation)
                1 2
                (untitled 17 (437500000000 # 87500001225))
                (untitled 16 (437500000000 # 87500001225))
                16 15) as [_ Htie]; try by_computation.
    assert (16 < 15) by (apply Htie; by_computation). lia.
Qed.

Lemma small_store_user1_known :
  known_rated_user (@ItemItemCFModel_init env small_store ∅) 1 0.
Proof. split; [by_computation|]. exists 0. by_computation. Qed.

Lemma recommend_prediction_witness :
  let m := @ItemItemCFModel_init env small_store ∅ in
  key_at (scores_of m 0) 1 = score_formula m 0 1 ∧
  @recommend env m 1 5 ≠ [].
Proof.
  intros m.
  destruct (@recommend_prediction env stable_argsort_sorts small_store ∅ 1 0 5
              small_store_user1_known) as (Hformula & _ & Hpos & _).
  split.
  - apply Hformula.
    + vm_compute. lia.
    + intros Hrated. vm_compute in Hrated. discriminate.
    + exists 0. split; [|intros Hz; vm_compute in Hz; discriminate].
      replace (rated_items m 0) with [0] by by_computation.
      apply list_elem_of_singleton. done.
  - by_computation.
Defined.

Lemma recommend_skips_rated_witness :
  @never_returns_rated env small_store ∅ 1 0 5.
Proof.
  apply (@recommend_skips_rated env stable_argsort_sorts small_store ∅ 1 0 5).
  vm_compute. discriminate.
Defined.

Lemma recommend_without_padding_witness :
  @returns_only_candidates env small_store ∅ 1 0 5.
Proof.
  apply (@recommend_without_padding env stable_argsort_sorts small_store ∅ 1 0 5).
  vm_compute. discriminate.
Defined.

Lemma recommend_descending_witness :
  ∃ ep eq,
    @recommend env (@ItemItemCFModel_init env small_store ∅) 1 5 !! 0 = Some ep ∧
    @recommend env (@ItemItemCFModel_init env small_store ∅) 1 5 !! 1 = Some eq ∧
    rec_item_id ep = 3%Z ∧ rec_item_id eq = 2%Z ∧
    (rec_score eq <= rec_score ep)%Q.
Proof.
  exists (untitled 3 (437500000000 # 87500001225)),
         (untitled 2 (609000000000 # 121800001764)).
  split; [by_computation|]. split; [by_computation|].
  split; [done|]. split; [done|].
  apply (@recommend_descending env stable_argsort_sorts small_store ∅ 1 0 5
           small_store_user1_known ltac:(vm_compute; discriminate) 0 1);
    [lia|by_computation|by_computation].
Defined.

Lemma defense_keeps_attacker_rows_witness :
  ∃ attacked, @simulate_attack env small_store 9 3 1 5 = Some attacked ∧
    rows_of (@apply_defense env attacked (3 # 2)) 9 = rows_of attacked 9.
Proof.
  destruct (@defense_keeps_attacker_rows env small_store 9 3 1 5 (3 # 2)
              floor_sqrt_zero first_choice_without_replacement) as [Htotal Hkeep].
  - apply (bool_decide_unpack _). vm_compute. exact I.
  - destruct Htotal as [attacked Hatt]; [lia|].
    exists attacked. split; [exact Hatt|].
    by destruct (Hkeep attacked Hatt) as (_ & _ & Hsame & _).
Defined.

(** ** The popularity list *)

Lemma stat_before_spec (a b : MovieStat) :
  stat_before a b = true ↔
  (ms_mean b < ms_mean a)%Q ∨ ((ms_mean a == ms_mean b)%Q ∧ ms_count b ≤ ms_count a).
Proof.
  unfold stat_before.
  by rewrite orb_true_iff, andb_true_iff, Qltb_true, Qeq_bool_iff, bool_decide_eq_true.
Qed.

Lemma stat_before_total (a b : MovieStat) :
  stat_before a b = true ∨ stat_before b a = true.
Proof.
  rewrite !stat_before_spec.
  destruct (Q_dec (ms_mean a) (ms_mean b)) as [[Hlt|Hgt]|Heq].
  - right. by left.
  - left. by left.
  - destruct (decide (ms_count b ≤ ms_count a)).
    + left. right. done.
    + right. right. split; [by symmetry|lia].
Qed.

Lemma stat_before_trans (a b c : MovieStat) :
  stat_before a b = true → stat_before b c = true → stat_before a c = true.
Proof.
  rewrite !stat_before_spec.
  intros [Hab | [Hab Hcab]] [Hbc | [Hbc Hcbc]].
  - left. lra.
  - left. lra.
  - left. lra.
  - right. split; [lra|lia].
Qed.

Section Popularity.
Context `{Environment}.
Implicit Types (df : DataFrame) (titles : gmap Z string).

Lemma elem_of_movie_stats df s :
  s ∈ movie_stats df ↔
  ms_item_id s ∈ item_id <$> df ∧
  s = mkStat (ms_item_id s) (np_mean (item_ratings df (ms_item_id s)))
             (rating_count df (ms_item_id s)).
Proof.
  unfold movie_stats. rewrite list_elem_of_fmap. split.
  - intros (it & -> & Hit). simpl. split; [|done].
    by apply (proj1 (elem_of_sorted_unique _ _)).
  - intros [Hin Hs]. exists (ms_item_id s). split; [done|].
    by apply (proj2 (elem_of_sorted_unique _ _)).
Qed.

(** The per-item mean of [movie_stats] is [item_mean]. *)
Lemma movie_stats_item_mean df s :
  s ∈ movie_stats df → item_mean df (ms_item_id s) = Some (ms_mean s).
Proof.
  intros Hs. apply elem_of_movie_stats in Hs as [Hin Hs].
  unfold item_mean. rewrite bool_decide_eq_false_2; [by rewrite Hs at 2|].
  apply list_elem_of_fmap in Hin as (r & Hr & Hin).
  unfold item_ratings. intros Hnil. apply fmap_nil_inv in Hnil.
  assert (Hmem : r ∈ filter (λ r, item_id r = ms_item_id s) df)
    by (by apply list_elem_of_filter).
  rewrite Hnil in Hmem. by apply elem_of_nil in Hmem.
Qed.

Lemma movie_stats_ids df :
  ms_item_id <$> filter (λ s, 20 ≤ ms_count s) (movie_stats df)
  = filter (λ it, 20 ≤ rating_count df it) (items_of df).
Proof.
  unfold movie_stats. fold (items_of df).
  rewrite list_filter_fmap_comm, <- list_fmap_compose.
  apply (list_fmap_id (filter (λ it, 20 ≤ rating_count df it) (items_of df))).
Qed.

Lemma rating_count_positive df item :
  0 < rating_count df item → item ∈ item_id <$> df.
Proof.
  unfold rating_count, item_ratings. rewrite length_fmap. intros Hpos.
  destruct (filter (λ r, item_id r = item) df) as [|r rest] eqn:Hf;
    [simpl in Hpos; lia|].
  assert (Hr : r ∈ filter (λ r, item_id r = item) df) by (rewrite Hf; left).
  apply list_elem_of_filter in Hr as [Hitem Hr].
  apply list_elem_of_fmap. by exists r.
Qed.

Lemma popular_ids df titles :
  rec_item_id <$> build_popular df titles
  ≡ₚ filter (λ it, 20 ≤ rating_count df it) (items_of df).
Proof.
  unfold build_popular. rewrite <- list_fmap_compose.
  change (rec_item_id ∘ popular_entry titles) with ms_item_id.
  rewrite sort_by_Permutation. by rewrite movie_stats_ids.
Qed.

Lemma elem_of_popular df titles e :
  e ∈ build_popular df titles →
  ∃ s, e = popular_entry titles s ∧ 20 ≤ ms_count s ∧ s ∈ movie_stats df.
Proof.
  unfold build_popular. intros He.
  apply list_elem_of_fmap in He as (s & -> & Hs).
  rewrite sort_by_Permutation in Hs.
  apply list_elem_of_filter in Hs as [Hcount Hs]. by exists s.
Qed.

(** C7, as amended. The popularity list built at construction holds
    exactly the items with at least 20 ratings, each once, each with its
    mean rating as score, ordered by mean rating descending and then by
    rating count descending; no other item is ever added, so the list is
    empty when no item has 20 ratings.  A [recommend] query for a user id
    that is not in the table returns the first [top_k] entries of this
    list. *)
Theorem popularity_list df titles (uid top_k : Z) :
  uid ∉ user_id <$> df → (0 ≤ top_k)%Z →
  let m := ItemItemCFModel_init df titles in
  (∀ item, item ∈ rec_item_id <$> popular_items m ↔ 20 ≤ rating_count df item) ∧
  NoDup (rec_item_id <$> popular_items m) ∧
  (∀ e, e ∈ popular_items m →
     rec_score e = np_mean (item_ratings df (rec_item_id e))) ∧
  (∀ p q a b, p < q → popular_items m !! p = Some a → popular_items m !! q = Some b →
     (rec_score b < rec_score a)%Q ∨
     ((rec_score a == rec_score b)%Q ∧
      rating_count df (rec_item_id b) ≤ rating_count df (rec_item_id a))) ∧
  recommend m uid top_k = take (Z.to_nat top_k) (popular_items m).
Proof.
  intros Hunknown Hk m.
  change (popular_items m) with (build_popular df titles).
  split; [|split; [|split; [|split]]].
  - intros item. rewrite popular_ids, list_elem_of_filter.
    unfold items_of. rewrite elem_of_sorted_unique. split; [tauto|].
    intros Hcount. split; [done|]. apply rating_count_positive. lia.
  - rewrite popular_ids. apply NoDup_filter, NoDup_sorted_unique.
  - intros e He. apply elem_of_popular in He as (s & -> & _ & Hs).
    apply elem_of_movie_stats in Hs as [_ Hs]. simpl. by rewrite Hs at 1.
  - intros p q a b Hpq Ha Hb. unfold build_popular in Ha, Hb.
    apply list_lookup_fmap_Some in Ha as (sa & -> & Ha).
    apply list_lookup_fmap_Some in Hb as (sb & -> & Hb).
    assert (Hstat : ∀ k s,
              sort_by stat_before (filter (λ s, 20 ≤ ms_count s) (movie_stats df)) !! k
              = Some s → ms_count s = rating_count df (ms_item_id s)).
    { intros k s Hs. apply list_elem_of_lookup_2 in Hs.
      rewrite sort_by_Permutation in Hs.
      apply list_elem_of_filter in Hs as [_ Hs].
      apply elem_of_movie_stats in Hs as [_ Hs]. by rewrite Hs at 1. }
    simpl. rewrite <- (Hstat _ _ Ha), <- (Hstat _ _ Hb).
    apply stat_before_spec.
    apply (StronglySorted_lookup (λ a b, stat_before a b = true)
             (sort_by stat_before (filter (λ s, 20 ≤ ms_count s) (movie_stats df)))
             p q); try done.
    apply sort_by_sorted; [apply stat_before_total | apply stat_before_trans].
  - rewrite recommend_unknown by (by apply init_user_unknown).
    unfold popularity_recs. by apply py_slice_to_nonneg.
Qed.
End Popularity.

(** C7, the fall back to all items is not in the code: a table with a
    single rating has no item with 20 ratings, the popularity list is
    empty and a cold-start query returns nothing, while the list of the
    specification would hold item 1. *)
Lemma no_fallback_to_all_items : ¬ @cold_start_claim env [mkRating 1 1 5] ∅ 99 5.
Proof.
  intros Hclaim.
  assert (Heq := Hclaim ltac:(apply (bool_decide_unpack _); by_computation)
                        ltac:(lia)).
  vm_compute in Heq. discriminate.
Qed.

Lemma popularity_list_witness :
  @recommend env (@ItemItemCFModel_init env store21 ∅) 99 5
  = take 5 (popular_items (@ItemItemCFModel_init env store21 ∅)) ∧
  popular_items (@ItemItemCFModel_init env store21 ∅) = [untitled 1 (100 # 20)].
Proof.
  split; [|by_computation].
  apply (@popularity_list env store21 ∅ 99 5).
  - apply (bool_decide_unpack _). vm_compute. exact I.
  - lia.
Defined.

(** * Further properties of the code *)

(** ** [recommend] and [popularity_recs]: size and shape of the result *)

Section RecommendShape.
Context `{Environment}.
Implicit Types (df : DataFrame) (titles : gmap Z string) (m : ItemItemCFModel).

(** Which branch answers a query does not depend on [top_k]: the result is
    always the slice of one list. *)
Lemma recommend_slice m uid :
  ∃ full, ∀ top_k, recommend m uid top_k = py_slice_to top_k full.
Proof.
  unfold recommend, popularity_recs.
  destruct (user_to_idx m !! uid) as [u|]; [|by eexists].
  destruct (negb _); [by eexists|].
  case_bool_decide; [by eexists|].
  exists (rec_entry m (predict_scores m (default [] (R m !! u)))
            <$> ranked_candidates (predict_scores m (default [] (R m !! u)))).
  intros top_k. unfold top_indices, py_slice_to.
  case_bool_decide; by rewrite fmap_take, ?length_fmap.
Qed.

(** X1. For a non-negative [top_k], [recommend] returns at most [top_k]
    entries, whatever the model and the user; and asking for more entries
    never changes the earlier ones: the answer for [k1] is the first [k1]
    entries of the answer for any larger [k2]. *)
Theorem recommend_top_k_prefix m (uid k1 k2 : Z) :
  (0 ≤ k1 ≤ k2)%Z →
  length (recommend m uid k1) ≤ Z.to_nat k1 ∧
  recommend m uid k1 = take (Z.to_nat k1) (recommend m uid k2).
Proof.
  intros Hk. destruct (recommend_slice m uid) as [full Hfull].
  rewrite !Hfull, !py_slice_to_nonneg by lia. split.
  - rewrite length_take. lia.
  - rewrite take_take. f_equal. lia.
Qed.

(** The two ways a query is answered. *)
Lemma recommend_cases m uid top_k :
  recommend m uid top_k = popularity_recs m top_k ∨
  ∃ u, known_rated_user m uid u ∧ candidate_indices (scores_of m u) ≠ [] ∧
       recommend m uid top_k
       = rec_entry m (scores_of m u) <$> top_indices (scores_of m u) top_k.
Proof.
  destruct (user_to_idx m !! uid) as [u|] eqn:Hu;
    [|left; by apply recommend_unknown].
  destruct (existsb id (rated_mask (user_row m u))) eqn:Hany.
  - assert (Hknown : known_rated_user m uid u).
    { split; [done|]. apply has_rating_iff in Hany as [i Hi]. exists i.
      unfold user_row in Hi. by rewrite matrix_at_row in Hi. }
    destruct (decide (candidate_indices (scores_of m u) = [])) as [Hnil|Hcand].
    + left. by eapply recommend_fallback.
    + right. exists u. split; [done|]. split; [done|].
      by apply recommend_ranked.
  - left. unfold recommend. rewrite Hu. fold (user_row m u). by rewrite Hany.
Qed.

Lemma NoDup_candidate_indices (scores : list Q) : NoDup (candidate_indices scores).
Proof. apply NoDup_filter, NoDup_seq. Qed.

Lemma py_slice_to_sublist {A} (k : Z) (l : list A) : py_slice_to k l `sublist_of` l.
Proof. destruct (py_slice_to_prefix k l) as [n ->]. apply sublist_take. Qed.

Lemma rec_entry_item df titles scores j item :
  items_of df !! j = Some item →
  rec_item_id (rec_entry (ItemItemCFModel_init df titles) scores j) = item.
Proof.
  intros Hj. unfold rec_entry. by rewrite init_idx_to_item, Hj.
Qed.

Section WithArgsortShape.
Hypothesis argsort_law : argsort_sorts.

(** X2. Given numpy's contract for [argsort], the item ids returned by
    [recommend] on a model built from a table are pairwise distinct, and
    each of them is the id of an item of the table: no item is
    recommended twice and no id is invented, in the popularity branch as
    in the ranked one. *)
Theorem recommend_distinct_items df titles (uid top_k : Z) :
  let recs := recommend (ItemItemCFModel_init df titles) uid top_k in
  NoDup (rec_item_id <$> recs) ∧
  ∀ e, e ∈ recs → rec_item_id e ∈ item_id <$> df.
Proof.
  intros recs. unfold recs.
  destruct (recommend_cases (ItemItemCFModel_init df titles) uid top_k)
    as [-> | (u & Hknown & Hcand & ->)].
  - unfold popularity_recs.
    change (popular_items (ItemItemCFModel_init df titles))
      with (build_popular df titles).
    assert (Hnd : NoDup (rec_item_id <$> build_popular df titles)).
    { rewrite popular_ids. apply NoDup_filter, NoDup_sorted_unique. }
    split.
    + eapply sublist_NoDup; [exact Hnd|].
      destruct (py_slice_to_prefix top_k (build_popular df titles)) as [n ->].
      rewrite fmap_take. apply sublist_take.
    + intros e He.
      assert (Hin : rec_item_id e ∈ rec_item_id <$> build_popular df titles).
      { apply list_elem_of_fmap. exists e. split; [done|].
        destruct (py_slice_to_prefix top_k (build_popular df titles)) as [n Hn].
        rewrite Hn in He. by apply elem_of_take in He as (i & Hi%list_elem_of_lookup_2 & _). }
      rewrite popular_ids in Hin. apply list_elem_of_filter in Hin as [_ Hin].
      by apply (proj1 (elem_of_sorted_unique _ _)).
  - remember (scores_of (ItemItemCFModel_init df titles) u) as scores eqn:Hscores.
    assert (Hrange : ∀ j, j ∈ top_indices scores top_k →
              ∃ item, items_of df !! j = Some item).
    { intros j Hj. apply (elem_of_top_indices argsort_law) in Hj.
      apply key_at_positive in Hj. rewrite Hscores in Hj. unfold scores_of in Hj.
      rewrite predict_scores_length in Hj.
      by apply lookup_lt_is_Some_2. }
    assert (Hnd : NoDup (top_indices scores top_k)).
    { eapply sublist_NoDup; [|apply py_slice_to_sublist].
      rewrite (ranked_Permutation argsort_law). apply NoDup_candidate_indices. }
    split.
    + rewrite <- list_fmap_compose.
      apply NoDup_fmap_2_strong; [|done].
      intros j1 j2 Hj1 Hj2 Heq. unfold compose in Heq.
      destruct (Hrange _ Hj1) as [a Ha]. destruct (Hrange _ Hj2) as [b Hb].
      rewrite (rec_entry_item df titles scores j1 a Ha) in Heq.
      rewrite (rec_entry_item df titles scores j2 b Hb) in Heq.
      subst b. eapply NoDup_lookup; [apply NoDup_sorted_unique|exact Ha|exact Hb].
    + intros e He. apply list_elem_of_fmap in He as (j & -> & Hj).
      destruct (Hrange _ Hj) as [a Ha].
      rewrite (rec_entry_item df titles scores j a Ha).
      apply list_elem_of_lookup_2 in Ha.
      by apply (proj1 (elem_of_sorted_unique _ _)).
Qed.
End WithArgsortShape.
End RecommendShape.

(** ** [recommend]: predicted scores stay below the user's ratings *)



Section ScoreBound.
Context `{Environment}.
Implicit Types (df : DataFrame) (titles : gmap Z string).


End ScoreBound.

(** ** [find_rank_of_item] and the metrics loop *)

Lemma find_rank_from_spec (idx : nat) (recs : list Rec) (target : Z) :
  match find_rank_from idx recs target with
  | None => target ∉ rec_item_id <$> recs
  | Some (rank, score) =>
      ∃ p e, rank = idx + p ∧ recs !! p = Some e ∧
             rec_item_id e = target ∧ rec_score e = score ∧
             ∀ q e', q < p → recs !! q = Some e' → rec_item_id e' ≠ target
  end.
Proof.
  revert idx. induction recs as [|r recs IH]; intros idx; simpl.
  - apply not_elem_of_nil.
  - case_bool_decide as Hr.
    + exists 0, r. split; [lia|]. repeat split; try done. intros q e' Hq. lia.
    + specialize (IH (S idx)).
      destruct (find_rank_from (S idx) recs target) as [[rank score]|].
      * destruct IH as (p & e & -> & Hp & He & Hs & Hfirst).
        exists (S p), e. split; [lia|]. repeat split; try done.
        intros [|q] e' Hq He'; simpl in He'.
        -- by injection He' as <-.
        -- apply (Hfirst q); [lia|done].
      * apply not_elem_of_cons. split; [congruence|exact IH].
Qed.

(** X4. [find_rank_of_item] returns [(None, None)] exactly when no entry
    of [recs] has the target id; otherwise it returns the 1-based position
    of the first entry with that id, between 1 and [len(recs)], together
    with the score of that entry. *)
Theorem find_rank_of_item_first (recs : list Rec) (target : Z) :
  (find_rank_of_item recs target = None ↔ target ∉ rec_item_id <$> recs) ∧
  ∀ rank score, find_rank_of_item recs target = Some (rank, score) →
    1 ≤ rank ≤ length recs ∧
    ∃ e, recs !! (rank - 1) = Some e ∧ rec_item_id e = target ∧
         rec_score e = score ∧
         ∀ q e', q < rank - 1 → recs !! q = Some e' → rec_item_id e' ≠ target.
Proof.
  unfold find_rank_of_item.
  pose proof (find_rank_from_spec 1 recs target) as Hspec.
  destruct (find_rank_from 1 recs target) as [[rank score]|].
  - destruct Hspec as (p & e & -> & Hp & He & Hs & Hfirst). split.
    + split; [done|]. intros Hnot. exfalso. apply Hnot.
      apply list_elem_of_fmap. exists e. split; [done|].
      by eapply list_elem_of_lookup_2.
    + intros ? ? [= <- <-]. apply lookup_lt_Some in Hp as Hlt.
      split; [lia|]. cbn [Nat.add Nat.sub]. rewrite Nat.sub_0_r.
      exists e. repeat split; done.
  - split; [done|]. intros ? ? [=].
Qed.

Section HitAtK.
Context `{Environment}.

Lemma find_rank_in_top_k m (uid k target : Z) (rank : nat) (score : Q) :
  (0 ≤ k)%Z →
  find_rank_of_item (recommend m uid k) target = Some (rank, score) →
  1 ≤ rank ≤ Z.to_nat k.
Proof.
  intros Hk Hfind. unfold find_rank_of_item in Hfind.
  pose proof (find_rank_from_spec 1 (recommend m uid k) target) as Hspec.
  rewrite Hfind in Hspec. destruct Hspec as (p & e & -> & Hp & _).
  apply lookup_lt_Some in Hp.
  destruct (recommend_slice m uid) as [full Hfull].
  rewrite Hfull, py_slice_to_nonneg, length_take in Hp by done. lia.
Qed.

(** X5. A rank that [find_rank_of_item] reports in the answer to a top-k
    query, with [k] non-negative, lies between 1 and [k], and the reported
    score is the score of the entry at that rank: a hit counted by the
    experiments is a hit within the top k. *)
Theorem rank_within_top_k m (uid k target : Z) (rank : nat) (score : Q) :
  (0 ≤ k)%Z →
  find_rank_of_item (recommend m uid k) target = Some (rank, score) →
  1 ≤ rank ≤ Z.to_nat k ∧
  ∃ e, recommend m uid k !! (rank - 1) = Some e ∧
       rec_item_id e = target ∧ rec_score e = score.
Proof.
  intros Hk Hfind. split; [by eapply find_rank_in_top_k|].
  unfold find_rank_of_item in Hfind.
  pose proof (find_rank_from_spec 1 (recommend m uid k) target) as Hspec.
  rewrite Hfind in Hspec. destruct Hspec as (p & e & -> & Hp & He & Hs & _).
  exists e. cbn [Nat.add Nat.sub]. rewrite Nat.sub_0_r. repeat split; done.
Qed.
End HitAtK.

Lemma Qsum_between (l : list Q) (a b : Q) :
  Forall (λ x, a <= x ∧ x <= b)%Q l →
  (inject_Z (Z.of_nat (length l)) * a <= Qsum l)%Q ∧
  (Qsum l <= inject_Z (Z.of_nat (length l)) * b)%Q.
Proof.
  induction 1 as [|x l [Ha Hb] _ [IHa IHb]].
  - change (0 * a <= 0 ∧ 0 <= 0 * b)%Q. split; lra.
  - change (Qsum (x :: l)) with (x + Qsum l)%Q.
    change (length (x :: l)) with (S (length l)).
    rewrite Nat2Z.inj_succ. unfold Z.succ. rewrite inject_Z_plus.
    change (inject_Z 1) with 1%Q. split; lra.
Qed.

(** The mean of a non-empty list lies between any two bounds of its
    elements. *)
Lemma np_mean_between (l : list Q) (a b : Q) :
  l ≠ [] → Forall (λ x, a <= x ∧ x <= b)%Q l →
  (a <= np_mean l)%Q ∧ (np_mean l <= b)%Q.
Proof.
  intros Hne Hall. destruct (Qsum_between l a b Hall) as [Ha Hb].
  assert (Hpos : (0 < inject_Z (Z.of_nat (length l)))%Q).
  { apply inject_nat_pos. destruct l; [done|simpl; lia]. }
  unfold np_mean. split.
  - apply Qle_shift_div_l; [done|]. lra.
  - apply Qle_shift_div_r; [done|]. lra.
Qed.

Lemma record_rank_invariant (k : Z) (n : nat) (mt : Metric) (found : option (nat * Q)) :
  metric_invariant k n mt →
  (∀ rank score, found = Some (rank, score) → 1 ≤ rank ≤ Z.to_nat k) →
  metric_invariant k (S n) (record_rank mt found).
Proof.
  intros (Hlen & Hle & Hall) Hfound.
  destruct found as [[rank score]|]; unfold metric_invariant; simpl.
  - split; [|split].
    + rewrite length_app. simpl. lia.
    + lia.
    + apply Forall_app. split; [done|]. apply Forall_singleton. by eapply Hfound.
  - split; [done|]. split; [lia|done].
Qed.

Section MetricsLoop.
Context `{Environment}.

Lemma metrics_step_invariant scen (k : Z) (n : nat) (ms : Metrics) (uid : Z) :
  (0 ≤ k)%Z →
  Forall (metric_invariant k n) (metric_entries ms) →
  Forall (metric_invariant k (S n)) (metric_entries (metrics_step scen k ms uid)).
Proof.
  intros Hk Hms. unfold metric_entries in *.
  apply Forall_cons in Hms as [Hb Hms]. apply Forall_cons in Hms as [Ha Hms].
  apply Forall_cons in Hms as [Hd _].
  repeat apply Forall_cons_2; [..|apply Forall_nil_2]; simpl;
    (apply record_rank_invariant; [done|]);
    intros rank score Hfind; by eapply find_rank_in_top_k.
Qed.

Lemma metrics_loop_invariant scen (k : Z) (uids : list Z) (n : nat) (ms : Metrics) :
  (0 ≤ k)%Z →
  Forall (metric_invariant k n) (metric_entries ms) →
  Forall (metric_invariant k (n + length uids))
         (metric_entries (foldl (metrics_step scen k) ms uids)).
Proof.
  intros Hk. revert n ms. induction uids as [|uid uids IH]; intros n ms Hms; simpl.
  - by rewrite Nat.add_0_r.
  - replace (n + S (length uids)) with (S n + length uids) by lia.
    apply IH. by apply metrics_step_invariant.
Qed.

(** X6. The loop of [metrics_experiment.main], for any top-k [k >= 0] and
    any [max_users >= 0] (the script uses 10 and 200): at most [max_users]
    users are queried; for each of the three scenarios [hits] equals the
    number of recorded ranks and is at most the number of users queried,
    and every recorded rank lies between 1 and [k]; so the hit rate, which
    is defined exactly when at least one user is queried (the division
    raises otherwise), lies between 0 and 1, and the average rank, when
    there is one, lies between 1 and [k]. *)
Theorem collect_metrics_bounds scen (k max_users : Z) (mt : Metric) :
  (0 ≤ k)%Z → (0 ≤ max_users)%Z →
  mt ∈ metric_entries (collect_metrics scen k max_users) →
  let n := length (sample_users scen max_users) in
  n ≤ Z.to_nat max_users ∧ metric_invariant k n mt ∧
  (hit_rate mt n = None ↔ n = 0) ∧
  (∀ q, hit_rate mt n = Some q → (0 <= q)%Q ∧ (q <= 1)%Q) ∧
  (∀ a, avg_rank mt = Some a → (1 <= a)%Q ∧ (a <= inject_Z k)%Q).
Proof.
  intros Hk Hmax Hmt n.
  assert (Hinv : metric_invariant k n mt).
  { unfold collect_metrics in Hmt.
    pose proof (metrics_loop_invariant scen k (sample_users scen max_users) 0
                  (mkMetrics (mkMetric 0 []) (mkMetric 0 []) (mkMetric 0 [])) Hk) as Hloop.
    assert (Hstart : Forall (metric_invariant k 0)
              (metric_entries (mkMetrics (mkMetric 0 []) (mkMetric 0 []) (mkMetric 0 [])))).
    { repeat apply Forall_cons_2; [..|apply Forall_nil_2];
        (split; [done|]; split; [simpl; lia|apply Forall_nil_2]). }
    specialize (Hloop Hstart). rewrite Forall_forall in Hloop. by apply Hloop. }
  split.
  { unfold n, sample_users. rewrite py_slice_to_nonneg, length_take by done. lia. }
  split; [done|]. destruct Hinv as (Hlen & Hle & Hall).
  split; [|split].
  - unfold hit_rate. case_bool_decide; split; done.
  - intros q. unfold hit_rate. case_bool_decide as Hn; [done|]. intros [= <-].
    assert (Hpos : (0 < inject_Z (Z.of_nat n))%Q) by (apply inject_nat_pos; lia).
    split.
    + apply Qle_shift_div_l; [done|]. rewrite Qmult_0_l.
      change 0%Q with (inject_Z 0). rewrite <- Zle_Qle. lia.
    + apply Qle_shift_div_r; [done|]. rewrite Qmult_1_l. rewrite <- Zle_Qle. lia.
  - intros a. unfold avg_rank. case_bool_decide as Hr; [done|]. intros [= <-].
    apply np_mean_between.
    + by destruct (ranks mt).
    + apply Forall_fmap. eapply Forall_impl; [exact Hall|]. intros r [Hr1 Hrk]. simpl.
      change 1%Q with (inject_Z 1). rewrite <- !Zle_Qle. lia.
Qed.
End MetricsLoop.

Lemma recommend_top_k_prefix_witness :
  let m := @ItemItemCFModel_init env small_store ∅ in
  length (@recommend env m 1 1) ≤ 1 ∧
  @recommend env m 1 1 = take 1 (@recommend env m 1 5).
Proof.
  apply (@recommend_top_k_prefix env (@ItemItemCFModel_init env small_store ∅) 1 1 5).
  lia.
Defined.

Lemma recommend_distinct_items_witness :
  let recs := @recommend env (@ItemItemCFModel_init env small_store ∅) 1 5 in
  NoDup (rec_item_id <$> recs) ∧
  ∀ e, e ∈ recs → rec_item_id e ∈ item_id <$> small_store.
Proof.
  apply (@recommend_distinct_items env stable_argsort_sorts small_store ∅ 1 5).
Defined.



Lemma rank_within_top_k_witness :
  let recs := @recommend env (@ItemItemCFModel_init env small_store ∅) 1 5 in
  1 ≤ 2 ≤ Z.to_nat 5 ∧
  ∃ e, recs !! (2 - 1) = Some e ∧ rec_item_id e = 2%Z ∧
       rec_score e = (609000000000 # 121800001764)%Q.
Proof.
  apply (@rank_within_top_k env (@ItemItemCFModel_init env small_store ∅) 1 5 2 2
           (609000000000 # 121800001764)%Q).
  - lia.
  - vm_compute. reflexivity.
Defined.

Lemma collect_metrics_bounds_witness :
  ∃ scen, small_scenario = Some scen ∧
    let mt := attack_metric (@collect_metrics env scen 10 200) in
    let n := length (sample_users scen 200) in
    n ≤ Z.to_nat 200 ∧ metric_invariant 10 n mt ∧
    (hit_rate mt n = None ↔ n = 0) ∧
    (∀ q, hit_rate mt n = Some q → (0 <= q)%Q ∧ (q <= 1)%Q) ∧
    (∀ a, avg_rank mt = Some a → (1 <= a)%Q ∧ (a <= inject_Z 10)%Q).
Proof.
  destruct small_scenario as [scen|] eqn:Hscen; [|by vm_compute in Hscen].
  exists scen. split; [done|].
  apply (@collect_metrics_bounds env scen 10 200); [lia|lia|].
  unfold metric_entries. right. left.
Defined.

(** ** [ItemItemCFModel.__init__]: the id mappings and the matrix [R] *)

Lemma sorted_unique_increasing (l : list Z) (p q : nat) (a b : Z) :
  sorted (unique l) !! p = Some a → sorted (unique l) !! q = Some b →
  (a < b)%Z ↔ p < q.
Proof.
  intros Hp Hq.
  pose proof (NoDup_sorted_unique l) as Hnd. rewrite NoDup_alt in Hnd.
  pose proof (sorted_ascending (unique l)) as Hs.
  split; intros Hlt.
  - destruct (decide (p < q)) as [|Hge]; [done|].
    destruct (decide (p = q)) as [->|Hne]; [rewrite Hp in Hq; injection Hq as ->; lia|].
    pose proof (StronglySorted_lookup Z.le (sorted (unique l)) q p b a Hs) as Hle.
    specialize (Hle ltac:(lia) Hq Hp). lia.
  - pose proof (StronglySorted_lookup Z.le (sorted (unique l)) p q a b Hs Hlt Hp Hq).
    destruct (decide (a = b)) as [->|]; [|lia].
    specialize (Hnd p q b Hp Hq). lia.
Qed.

Section IdMappings.
Context `{Environment}.
Implicit Types (df : DataFrame) (titles : gmap Z string).

Lemma init_idx_to_user df titles u :
  idx_to_user (ItemItemCFModel_init df titles) !! u = users_of df !! u.
Proof. apply dict_of_index_lookup. Qed.

(** X7. The id mappings built by [ItemItemCFModel.__init__]: a user id has
    a row index exactly when it occurs in the table, and an item id a
    column index exactly when it occurs; [idx_to_user] and [idx_to_item]
    are the inverses of [user_to_idx] and [item_to_idx]; the indices are
    the numbers below [n_users] and [n_items] with none left out; and a
    smaller id gets a smaller index. *)
Theorem id_mappings_inverse_and_monotone df titles :
  let m := ItemItemCFModel_init df titles in
  (∀ uid, is_Some (user_to_idx m !! uid) ↔ uid ∈ user_id <$> df) ∧
  (∀ item, is_Some (item_to_idx m !! item) ↔ item ∈ item_id <$> df) ∧
  (∀ uid u, user_to_idx m !! uid = Some u ↔ idx_to_user m !! u = Some uid) ∧
  (∀ item j, item_to_idx m !! item = Some j ↔ idx_to_item m !! j = Some item) ∧
  (∀ u, is_Some (idx_to_user m !! u) ↔ u < length (R m)) ∧
  (∀ j, is_Some (idx_to_item m !! j) ↔ j < n_items m) ∧
  (∀ a b p q, user_to_idx m !! a = Some p → user_to_idx m !! b = Some q →
     (a < b)%Z ↔ p < q) ∧
  (∀ a b p q, item_to_idx m !! a = Some p → item_to_idx m !! b = Some q →
     (a < b)%Z ↔ p < q).
Proof.
  intros m. repeat split.
  - intros [u Hu]. apply init_user_to_idx in Hu.
    apply (proj1 (elem_of_sorted_unique _ _)). by eapply list_elem_of_lookup_2.
  - intros Hin. apply (proj2 (elem_of_sorted_unique _ _)) in Hin.
    apply list_elem_of_lookup in Hin as [u Hu]. exists u. by apply init_user_to_idx.
  - intros [j Hj]. apply init_item_to_idx in Hj.
    apply (proj1 (elem_of_sorted_unique _ _)). by eapply list_elem_of_lookup_2.
  - intros Hin. apply (proj2 (elem_of_sorted_unique _ _)) in Hin.
    apply list_elem_of_lookup in Hin as [j Hj]. exists j. by apply init_item_to_idx.
  - intros Hu. unfold m. rewrite init_idx_to_user. by apply init_user_to_idx in Hu.
  - intros Hu. unfold m in Hu. rewrite init_idx_to_user in Hu. by apply init_user_to_idx.
  - intros Hj. unfold m. rewrite init_idx_to_item. by apply init_item_to_idx in Hj.
  - intros Hj. unfold m in Hj. rewrite init_idx_to_item in Hj. by apply init_item_to_idx.
  - unfold m. rewrite init_idx_to_user. intros Hu. apply lookup_lt_is_Some in Hu.
    by rewrite (proj1 (init_R_shape df titles)).
  - unfold m. rewrite init_idx_to_user. intros Hu. apply lookup_lt_is_Some.
    by rewrite (proj1 (init_R_shape df titles)) in Hu.
  - unfold m. rewrite init_idx_to_item. apply lookup_lt_is_Some.
  - unfold m. rewrite init_idx_to_item. apply lookup_lt_is_Some.
  - apply init_user_to_idx in H0, H1. by apply (sorted_unique_increasing _ _ _ _ _ H0 H1).
  - apply init_user_to_idx in H0, H1. by apply (sorted_unique_increasing _ _ _ _ _ H0 H1).
  - apply init_item_to_idx in H0, H1. by apply (sorted_unique_increasing _ _ _ _ _ H0 H1).
  - apply init_item_to_idx in H0, H1. by apply (sorted_unique_increasing _ _ _ _ _ H0 H1).
Qed.
End IdMappings.

Lemma matrix_at_zeros (n k u j : nat) : matrix_at (zeros n k) u j = 0%Q.
Proof.
  unfold matrix_at, zeros.
  destruct (replicate n (replicate k 0%Q) !! u) as [row|] eqn:Hrow; [|done].
  apply lookup_replicate in Hrow as [-> _]. simpl.
  destruct (replicate k 0%Q !! j) as [x|] eqn:Hx; [|done].
  by apply lookup_replicate in Hx as [-> _].
Qed.

(** The assignment [R[u, i] = x] changes the entry at [(u, i)] and no
    other. *)
Lemma matrix_at_assign (M : list (list Q)) (n k u i u' i' : nat) (x : Q) :
  has_shape M n k → u < n → i < k →
  matrix_at (alter (λ r, <[i := x]> r) u M) u' i'
  = if bool_decide (u' = u ∧ i' = i) then x else matrix_at M u' i'.
Proof.
  intros [Hlen Hrows] Hu Hi. unfold matrix_at. rewrite list_lookup_alter.
  destruct (decide (u = u')) as [<-|Hne].
  - destruct (M !! u) as [row|] eqn:Hrow.
    + assert (Hk : length row = k).
      { rewrite Forall_forall in Hrows. apply Hrows. by eapply list_elem_of_lookup_2. }
      simpl. rewrite list_lookup_insert.
      destruct (decide (i = i' ∧ i < length row)) as [[<- _]|Hn].
      * by rewrite bool_decide_eq_true_2.
      * rewrite bool_decide_eq_false_2; [done|]. intros [_ ->]. apply Hn. lia.
    + apply lookup_ge_None in Hrow. lia.
  - rewrite bool_decide_eq_false_2; [done|]. by intros [-> _].
Qed.

Lemma last_rating_snoc (rows : DataFrame) (r : Rating) (uid item : Z) :
  last_rating (rows ++ [r]) uid item
  = if bool_decide (user_id r = uid ∧ item_id r = item) then Some (rating r)
    else last_rating rows uid item.
Proof.
  unfold last_rating. rewrite filter_app, last_app.
  case_bool_decide as Hr.
  - by rewrite filter_cons_True by exact Hr.
  - by rewrite filter_cons_False by exact Hr.
Qed.

Lemma last_rating_row (df : DataFrame) (uid item : Z) (x : Q) :
  last_rating df uid item = Some x →
  ∃ r, r ∈ df ∧ user_id r = uid ∧ item_id r = item ∧ rating r = x.
Proof.
  unfold last_rating. intros Hl.
  destruct (last (filter _ df)) as [r|] eqn:Hlast; [|done].
  injection Hl as <-. apply last_Some in Hlast as [l' Hl'].
  assert (Hr : r ∈ filter (λ r, user_id r = uid ∧ item_id r = item) df).
  { rewrite Hl'. apply elem_of_app. right. by left. }
  apply list_elem_of_filter in Hr as [[Hu Hi] Hr]. by exists r.
Qed.

Lemma last_rating_None (df : DataFrame) (uid item : Z) :
  last_rating df uid item = None ↔
  ∀ r, r ∈ df → ¬ (user_id r = uid ∧ item_id r = item).
Proof.
  unfold last_rating. rewrite fmap_None, last_None. split.
  - intros Hnil r Hr Hkey.
    assert (Hin : r ∈ filter (λ r, user_id r = uid ∧ item_id r = item) df)
      by (by apply list_elem_of_filter).
    rewrite Hnil in Hin. by apply elem_of_nil in Hin.
  - intros Hnone. by apply list_filter_none.
Qed.

(** The scatter loop leaves in [R[u, j]] the rating of the last row for
    that user and item, and 0 when there is none. *)
Lemma build_R_last (u2i i2i : gmap Z nat) (n k : nat) (rows : DataFrame)
    (uid item : Z) (u j : nat) :
  (∀ a b i, u2i !! a = Some i → u2i !! b = Some i → a = b) →
  (∀ a b i, i2i !! a = Some i → i2i !! b = Some i → a = b) →
  (∀ a i, u2i !! a = Some i → i < n) → (∀ a i, i2i !! a = Some i → i < k) →
  u2i !! uid = Some u → i2i !! item = Some j →
  matrix_at (build_R rows u2i i2i n k) u j = default 0%Q (last_rating rows uid item).
Proof.
  intros Hinj_u Hinj_i Hlt_u Hlt_i Hu Hj.
  induction rows as [|r rows IH] using rev_ind.
  - apply matrix_at_zeros.
  - rewrite last_rating_snoc. unfold build_R. rewrite foldl_app. simpl.
    fold (build_R rows u2i i2i n k). unfold scatter.
    destruct (u2i !! user_id r) as [u'|] eqn:Hu'.
    + destruct (i2i !! item_id r) as [j'|] eqn:Hj'.
      * rewrite (matrix_at_assign _ n k); [|apply build_R_shape|by eauto..].
        case_bool_decide as Hpos.
        -- destruct Hpos as [-> ->]. rewrite bool_decide_eq_true_2; [done|].
           split; [by eapply Hinj_u|by eapply Hinj_i].
        -- rewrite bool_decide_eq_false_2; [done|]. intros [<- <-].
           apply Hpos. split; congruence.
      * rewrite bool_decide_eq_false_2; [done|]. intros [_ <-]. congruence.
    + rewrite bool_decide_eq_false_2; [done|]. intros [<- _]. congruence.
Qed.

Section MatrixContent.
Context `{Environment}.
Implicit Types (df : DataFrame) (titles : gmap Z string).

Lemma init_R_last df titles (uid item : Z) (u j : nat) :
  let m := ItemItemCFModel_init df titles in
  user_to_idx m !! uid = Some u → item_to_idx m !! item = Some j →
  matrix_at (R m) u j = default 0%Q (last_rating df uid item).
Proof.
  intros m Hu Hj. apply build_R_last; try done.
  - intros a b i Ha Hb. apply (proj1 (init_user_to_idx df titles _ _)) in Ha.
    apply (proj1 (init_user_to_idx df titles _ _)) in Hb. congruence.
  - intros a b i Ha Hb. apply (proj1 (init_item_to_idx df titles _ _)) in Ha.
    apply (proj1 (init_item_to_idx df titles _ _)) in Hb. congruence.
  - intros a i Ha. apply (proj1 (init_user_to_idx df titles _ _)) in Ha.
    by apply lookup_lt_Some in Ha.
  - intros a i Ha. apply (proj1 (init_item_to_idx df titles _ _)) in Ha.
    by apply lookup_lt_Some in Ha.
Qed.

Lemma init_R_outside df titles (u j : nat) :
  let m := ItemItemCFModel_init df titles in
  ¬ (u < length (users_of df) ∧ j < n_items m) → matrix_at (R m) u j = 0%Q.
Proof.
  intros m Hout. destruct (init_R_shape df titles) as [Hlen Hrows].
  fold m in Hlen, Hrows. unfold matrix_at.
  destruct (R m !! u) as [row|] eqn:Hrow; [|done]. simpl.
  destruct (row !! j) as [x|] eqn:Hx; [|done]. exfalso. apply Hout.
  apply lookup_lt_Some in Hrow as Hu, Hx. split; [unfold users_of; by rewrite <- Hlen|].
  rewrite Forall_forall in Hrows. rewrite <- (Hrows row); [done|].
  by eapply list_elem_of_lookup_2.
Qed.

(** X8. The matrix [R] built by [ItemItemCFModel.__init__]: for a user and
    an item of the table, [R[u, j]] is the rating of the last row of the
    table for that pair (a later row overwrites an earlier one), and 0
    when the user has no row for the item; so a rating is never summed or
    averaged with an earlier one. *)
Theorem R_holds_last_rating df titles (uid item : Z) (u j : nat) :
  let m := ItemItemCFModel_init df titles in
  user_to_idx m !! uid = Some u → item_to_idx m !! item = Some j →
  match last_rating df uid item with
  | Some x =>
      matrix_at (R m) u j = x ∧
      ∃ before r after, df = before ++ r :: after ∧ user_id r = uid ∧
        item_id r = item ∧ rating r = x ∧
        ∀ r', r' ∈ after → ¬ (user_id r' = uid ∧ item_id r' = item)
  | None =>
      matrix_at (R m) u j = 0%Q ∧
      ∀ r, r ∈ df → ¬ (user_id r = uid ∧ item_id r = item)
  end.
Proof.
  intros m Hu Hj. pose proof (init_R_last df titles uid item u j Hu Hj) as HR.
  fold m in HR. destruct (last_rating df uid item) as [x|] eqn:Hlast.
  - split; [done|]. clear HR. unfold last_rating in Hlast.
    destruct (last (filter _ df)) as [r|] eqn:Hl; [|done]. injection Hlast as <-.
    clear Hu Hj m. induction df as [|r0 df IH] using rev_ind; [done|].
    rewrite filter_app, last_app in Hl.
    destruct (decide (user_id r0 = uid ∧ item_id r0 = item)) as [Hkey|Hkey].
    + rewrite filter_cons_True in Hl by exact Hkey. simpl in Hl. injection Hl as <-.
      exists df, r0, []. destruct Hkey. repeat split; try done.
      intros r' Hr'. by apply elem_of_nil in Hr'.
    + rewrite filter_cons_False in Hl by exact Hkey. simpl in Hl.
      destruct (IH Hl) as (before & r1 & after & -> & Hu1 & Hi1 & Hr1 & Hafter).
      exists before, r1, (after ++ [r0]). rewrite <- app_assoc. repeat split; try done.
      intros r' Hr'. apply elem_of_app in Hr' as [Hr'|Hr'].
      * by apply Hafter.
      * apply list_elem_of_singleton in Hr' as ->. done.
  - split; [done|]. by apply last_rating_None.
Qed.

Lemma clip_zero (x : Q) : (x == 0)%Q → (np_clip x (-1) 1 == 0)%Q.
Proof.
  intros Hx. unfold np_clip.
  assert (Hmax : (Qmax x (-1) == x)%Q) by (apply Q.max_l; lra).
  rewrite Q.min_l; lra.
Qed.

(** X9. Two items of the table that no user has both rated have
    similarity 0 (up to the representation of the rational 0): every
    product in the dot product of their columns is 0. *)
Theorem similarity_without_common_rater df titles (a b : Z) (i j : nat) :
  let m := ItemItemCFModel_init df titles in
  item_to_idx m !! a = Some i → item_to_idx m !! b = Some j →
  (∀ uid, last_rating df uid a = None ∨ last_rating df uid b = None) →
  (matrix_at (sim m) i j == 0)%Q.
Proof.
  intros m Hi Hj Hnone.
  assert (Hi' : i < n_items m).
  { apply init_item_to_idx in Hi. by apply lookup_lt_Some in Hi. }
  assert (Hj' : j < n_items m).
  { apply init_item_to_idx in Hj. by apply lookup_lt_Some in Hj. }
  change (sim m) with (similarity (R m) (n_items m)).
  rewrite similarity_at by done. apply clip_zero.
  assert (Hdot : (dot (column (R m) i) (column (R m) j) == 0)%Q).
  { unfold column. rewrite dot_fmap. apply Qsum_all_zero.
    apply Forall_fmap, Forall_lookup. intros u row Hrow. simpl.
    assert (Hu : u < length (users_of df)).
    { apply lookup_lt_Some in Hrow. unfold users_of.
      by rewrite (proj1 (init_R_shape df titles)) in Hrow. }
    apply lookup_lt_is_Some in Hu as [uid Huid].
    apply init_user_to_idx with (titles := titles) in Huid.
    pose proof (init_R_last df titles uid a u i Huid Hi) as Ha.
    pose proof (init_R_last df titles uid b u j Huid Hj) as Hb.
    fold m in Ha, Hb. unfold matrix_at in Ha, Hb. rewrite Hrow in Ha, Hb.
    simpl in Ha, Hb. rewrite Ha, Hb.
    destruct (Hnone uid) as [->| ->]; simpl; ring. }
  rewrite Hdot. unfold Qdiv. ring.
Qed.

(** X10. A user all of whose ratings in the table are 0 or negative is
    treated as a cold-start user: [recommend] returns the popularity list
    for such a user, as it does for a user who is not in the table. *)
Theorem recommend_without_positive_rating df titles (uid top_k : Z) :
  let m := ItemItemCFModel_init df titles in
  (∀ r, r ∈ df → user_id r = uid → (rating r <= 0)%Q) →
  recommend m uid top_k = popularity_recs m top_k.
Proof.
  intros m Hnonpos. unfold recommend.
  destruct (user_to_idx m !! uid) as [u|] eqn:Hu; [|done].
  fold (user_row m u).
  destruct (existsb id (rated_mask (user_row m u))) eqn:Hany; [|done].
  exfalso. apply has_rating_iff in Hany as [j Hpos].
  assert (Hj : j < n_items m).
  { apply key_at_positive in Hpos.
    pose proof (init_user_row df titles uid u Hu) as Hlen. fold m in Hlen. lia. }
  unfold user_row in Hpos. rewrite matrix_at_row in Hpos.
  assert (Hitem : is_Some (items_of df !! j)) by (by apply lookup_lt_is_Some).
  destruct Hitem as [item Hitem].
  apply init_item_to_idx with (titles := titles) in Hitem.
  pose proof (init_R_last df titles uid item u j Hu Hitem) as HR. fold m in HR.
  rewrite HR in Hpos.
  destruct (last_rating df uid item) as [x|] eqn:Hlast; simpl in Hpos.
  - apply last_rating_row in Hlast as (r & Hr & Hru & _ & <-).
    specialize (Hnonpos r Hr Hru). lra.
  - by apply Qlt_irrefl in Hpos.
Qed.
End MatrixContent.

Lemma recommend_without_positive_rating_witness :
  @recommend env (@ItemItemCFModel_init env zero_store ∅) 1 5
  = @popularity_recs (@ItemItemCFModel_init env zero_store ∅) 5.
Proof.
  apply (@recommend_without_positive_rating env zero_store ∅ 1 5).
  intros r Hr Hu. apply list_elem_of_In in Hr. vm_compute in Hr.
  repeat (destruct Hr as [<-|Hr]; [first [discriminate Hu | by_computation]|]).
  destruct Hr.
Defined.

(** ** [apply_defense]: what clipping does to a user's ratings *)

Lemma np_clip_monotone (x y lo hi : Q) :
  (x <= y)%Q → (np_clip x lo hi <= np_clip y lo hi)%Q.
Proof.
  intros Hxy. unfold np_clip. by apply Q.min_le_compat_r, Q.max_le_compat_r.
Qed.

Lemma np_clip_inside (x lo hi : Q) :
  (lo <= x)%Q → (x <= hi)%Q → (np_clip x lo hi == x)%Q.
Proof.
  intros Hlo Hhi. unfold np_clip.
  assert (Hmax : (Qmax x lo == x)%Q) by (by apply Q.max_l).
  rewrite Q.min_l; lra.
Qed.

(** Clipping to an interval around [mu] leaves the value between [mu] and
    where it was. *)
Lemma np_clip_toward (x mu t : Q) :
  (0 <= t)%Q →
  (Qmin mu x <= np_clip x (mu - t) (mu + t))%Q ∧
  (np_clip x (mu - t) (mu + t) <= Qmax mu x)%Q.
Proof.
  intros Ht. unfold np_clip.
  destruct (Q.max_spec x (mu - t)) as [[? Hmax]|[? Hmax]];
    destruct (Q.min_spec (Qmax x (mu - t)) (mu + t)) as [[? Hmin]|[? Hmin]];
    destruct (Q.min_spec mu x) as [[? Hm]|[? Hm]];
    destruct (Q.max_spec mu x) as [[? HM]|[? HM]];
    rewrite Hmin, Hm, HM; rewrite ?Hmax in *; split; lra.
Qed.

Section DefenseOrder.
Context `{Environment}.

Lemma apply_defense_lookup (df : DataFrame) (tau : Q) (i : nat) (r d : Rating) :
  df !! i = Some r → apply_defense df tau !! i = Some d → d = defend_row tau df r.
Proof.
  intros Hr Hd. rewrite apply_defense_rows, list_lookup_fmap, Hr in Hd.
  by injection Hd as <-.
Qed.

(** X11. [apply_defense] never swaps two ratings of the same user: when
    one rating of a user is at most another one before the defense, it is
    so after it, for every [tau] (also a negative one). *)
Theorem apply_defense_keeps_order (df : DataFrame) (tau : Q) (i j : nat)
    (r1 r2 d1 d2 : Rating) :
  df !! i = Some r1 → df !! j = Some r2 → user_id r1 = user_id r2 →
  (rating r1 <= rating r2)%Q →
  apply_defense df tau !! i = Some d1 → apply_defense df tau !! j = Some d2 →
  (rating d1 <= rating d2)%Q.
Proof.
  intros Hr1 Hr2 Huser Hle Hd1 Hd2.
  rewrite (apply_defense_lookup df tau i r1 d1 Hr1 Hd1).
  rewrite (apply_defense_lookup df tau j r2 d2 Hr2 Hd2).
  unfold defend_row. rewrite Huser.
  destruct (Qltb _ _); [done|]. simpl. by apply np_clip_monotone.
Qed.

(** X12. For [tau >= 0], [apply_defense] moves a rating only toward the
    mean of its user's ratings: the defended rating lies between that
    mean and the original rating, and a rating that is within [tau]
    standard deviations of the mean keeps its value. *)
Theorem apply_defense_toward_mean (df : DataFrame) (tau : Q) (i : nat) (r d : Rating) :
  (0 <= tau)%Q → df !! i = Some r → apply_defense df tau !! i = Some d →
  let mu := np_mean (user_ratings df (user_id r)) in
  let sigma := np_std (user_ratings df (user_id r)) in
  (Qmin mu (rating r) <= rating d)%Q ∧ (rating d <= Qmax mu (rating r))%Q ∧
  ((mu - tau * sigma <= rating r)%Q → (rating r <= mu + tau * sigma)%Q →
   (rating d == rating r)%Q).
Proof.
  intros Htau Hr Hd mu sigma.
  rewrite (apply_defense_lookup df tau i r d Hr Hd).
  unfold defend_row. fold mu sigma.
  destruct (Qltb sigma eps6) eqn:Hsigma.
  - split; [apply Q.le_min_r|]. split; [apply Q.le_max_r|done].
  - apply Qltb_false in Hsigma. simpl.
    assert (Ht : (0 <= tau * sigma)%Q).
    { apply Qmult_le_0_compat; [done|]. unfold eps6 in Hsigma. lra. }
    destruct (np_clip_toward (rating r) mu (tau * sigma) Ht) as [Hlo Hhi].
    split; [done|]. split; [done|]. intros Hin1 Hin2. by apply np_clip_inside.
Qed.
End DefenseOrder.

(** ** The model of an attacked or defended table *)

Lemma sorted_unique_ext (l1 l2 : list Z) :
  (∀ x, x ∈ l1 ↔ x ∈ l2) → sorted (unique l1) = sorted (unique l2).
Proof.
  intros Hext. apply (StronglySorted_unique Z.le); [apply sorted_ascending..|].
  rewrite !sorted_Permutation. apply NoDup_Permutation; [apply NoDup_unique..|].
  intros x. rewrite !elem_of_unique. apply Hext.
Qed.

Lemma sorted_unique_snoc (l l2 : list Z) (a : Z) :
  (∀ x, x ∈ l → (x < a)%Z) → (∀ x, x ∈ l2 ↔ x ∈ l ∨ x = a) →
  sorted (unique l2) = sorted (unique l) ++ [a].
Proof.
  intros Hlt Hext. apply (StronglySorted_unique Z.le).
  - apply sorted_ascending.
  - apply StronglySorted_app_2; [|apply sorted_ascending|repeat constructor].
    intros x1 x2 Hx1 Hx2. apply list_elem_of_singleton in Hx2 as ->.
    apply elem_of_sorted_unique, Hlt in Hx1. lia.
  - apply NoDup_Permutation.
    + apply NoDup_sorted_unique.
    + apply NoDup_app. split; [apply NoDup_sorted_unique|]. split.
      * intros x Hx Hx'. apply list_elem_of_singleton in Hx' as ->.
        apply elem_of_sorted_unique, Hlt in Hx. lia.
      * apply NoDup_singleton.
    + intros x. rewrite elem_of_sorted_unique, elem_of_app, elem_of_sorted_unique,
        list_elem_of_singleton. apply Hext.
Qed.

Lemma Qsum_snoc_zero (l : list Q) : Qsum (l ++ [0 * 0]%Q) = Qsum l.
Proof. induction l as [|x l IH]; [done|]. simpl. by f_equal. Qed.

Lemma dot_snoc_zero (a b : list Q) :
  length a = length b → dot (a ++ [0%Q]) (b ++ [0%Q]) = dot a b.
Proof.
  intros Hlen. unfold dot. rewrite zip_with_app by done. apply Qsum_snoc_zero.
Qed.

Lemma column_lookup (M : list (list Q)) (j u : nat) :
  u < length M → column M j !! u = Some (matrix_at M u j).
Proof.
  intros Hu. unfold column, matrix_at. rewrite list_lookup_fmap.
  apply lookup_lt_is_Some in Hu as [row ->]. done.
Qed.

Lemma elem_of_attack_users (df : DataFrame) (A T : Z) (x : Q) (push : list Z) (uid : Z) :
  uid ∈ user_id <$> (df ++ attack_rows A T x push) ↔ uid ∈ user_id <$> df ∨ uid = A.
Proof.
  rewrite fmap_app, elem_of_app. unfold attack_rows. rewrite fmap_cons, elem_of_cons.
  rewrite <- list_fmap_compose. split.
  - intros [?|[?|Hin]]; [by left|by right|right].
    by apply list_elem_of_fmap in Hin as (it & -> & _).
  - intros [?|?]; [by left|right; by left].
Qed.

Lemma elem_of_attack_items (df : DataFrame) (A T : Z) (x : Q) (push : list Z) (it : Z) :
  it ∈ item_id <$> (df ++ attack_rows A T x push)
  ↔ it ∈ item_id <$> df ∨ it ∈ T :: push.
Proof.
  rewrite fmap_app, elem_of_app. unfold attack_rows. rewrite fmap_cons.
  rewrite <- list_fmap_compose. simpl.
  replace (item_id ∘ (λ it0, mkRating A it0 x) <$> push) with push; [done|].
  induction push as [|p push IH]; [done|]. simpl. by f_equal.
Qed.

Lemma last_rating_attack_rows (A T : Z) (x : Q) (push : list Z) (item : Z) :
  last_rating (attack_rows A T x push) A item
  = if bool_decide (item ∈ T :: push) then Some x else None.
Proof.
  case_bool_decide as Hin.
  - destruct (last_rating (attack_rows A T x push) A item) as [y|] eqn:Hlast.
    + apply last_rating_row in Hlast as (r & Hr & _ & _ & <-).
      unfold attack_rows in Hr. apply elem_of_cons in Hr as [->|Hr]; [done|].
      by apply list_elem_of_fmap in Hr as (it & -> & _).
    + exfalso. rewrite last_rating_None in Hlast.
      apply (Hlast (mkRating A item x)); [|done]. unfold attack_rows.
      apply elem_of_cons in Hin as [->|Hin]; [by left|right].
      apply list_elem_of_fmap. by exists item.
  - apply last_rating_None. intros r Hr [_ Hitem]. apply Hin. subst item.
    unfold attack_rows in Hr. apply elem_of_cons in Hr as [->|Hr]; [by left|right].
    by apply list_elem_of_fmap in Hr as (it & -> & Hit).
Qed.

Lemma last_rating_app (df rows : DataFrame) (uid item : Z) :
  last_rating (df ++ rows) uid item
  = match last_rating rows uid item with
    | Some y => Some y
    | None => last_rating df uid item
    end.
Proof.
  unfold last_rating. rewrite filter_app, last_app.
  by destruct (last (filter _ rows)).
Qed.

Lemma last_rating_other_user (rows : DataFrame) (A uid item : Z) :
  (∀ r, r ∈ rows → user_id r = A) → uid ≠ A → last_rating rows uid item = None.
Proof.
  intros Hrows Hne. apply last_rating_None. intros r Hr [Hu _].
  apply Hrows in Hr. congruence.
Qed.

Lemma attack_rows_user (A T : Z) (x : Q) (push : list Z) (r : Rating) :
  r ∈ attack_rows A T x push → user_id r = A.
Proof.
  unfold attack_rows. intros Hr. apply elem_of_cons in Hr as [->|Hr]; [done|].
  by apply list_elem_of_fmap in Hr as (it & -> & _).
Qed.

Lemma attack_rows_items (A T : Z) (x : Q) (push : list Z) :
  item_id <$> attack_rows A T x push = T :: push.
Proof.
  unfold attack_rows. rewrite fmap_cons. simpl. f_equal.
  rewrite <- list_fmap_compose. induction push as [|p push IH]; [done|].
  simpl. by f_equal.
Qed.

Section SimilarityOfExtendedMatrix.
Context `{Environment}.

Lemma norms_lookup (M : list (list Q)) (n j : nat) :
  j < n →
  norms M n !! j
  = Some (let v := np_sqrt (dot (column M j) (column M j)) in
          if Qeq_bool v 0 then eps8 else v).
Proof.
  intros Hj. unfold norms. by rewrite list_lookup_fmap, lookup_seq_lt by done.
Qed.

Lemma column_snoc_zero (M : list (list Q)) (row : list Q) (j : nat) :
  default 0%Q (row !! j) = 0%Q → column (M ++ [row]) j = column M j ++ [0%Q].
Proof. intros Hz. unfold column. rewrite fmap_app. simpl. by rewrite Hz. Qed.

(** A further row whose entries in two columns are 0 changes neither the
    dot product nor the norms of these columns. *)
Lemma similarity_snoc_zero (M : list (list Q)) (row : list Q) (n i j : nat) :
  i < n → j < n → default 0%Q (row !! i) = 0%Q → default 0%Q (row !! j) = 0%Q →
  matrix_at (similarity (M ++ [row]) n) i j = matrix_at (similarity M n) i j.
Proof.
  intros Hi Hj Hzi Hzj. rewrite !similarity_at by done.
  rewrite !norms_lookup by done.
  rewrite (column_snoc_zero M row i Hzi), (column_snoc_zero M row j Hzj).
  assert (Hlen : ∀ a b, length (column M a) = length (column M b)).
  { intros a b. unfold column. by rewrite !length_fmap. }
  by rewrite !dot_snoc_zero by apply Hlen.
Qed.
End SimilarityOfExtendedMatrix.

Section AttackedModel.
Context `{Environment}.
Variables (df : DataFrame) (titles : gmap Z string) (A T : Z) (x : Q) (push : list Z).
Hypothesis attacker_above : ∀ r, r ∈ df → (user_id r < A)%Z.
Hypothesis target_known : T ∈ item_id <$> df.
Hypothesis push_known : ∀ it, it ∈ push → it ∈ item_id <$> df.

Lemma attacked_items : items_of (df ++ attack_rows A T x push) = items_of df.
Proof.
  apply sorted_unique_ext. intros it. rewrite elem_of_attack_items. split.
  - intros [?|Hin]; [done|]. apply elem_of_cons in Hin as [->|Hin]; [done|].
    by apply push_known.
  - by left.
Qed.

Lemma attacked_users : users_of (df ++ attack_rows A T x push) = users_of df ++ [A].
Proof.
  apply sorted_unique_snoc.
  - intros uid Huid. apply list_elem_of_fmap in Huid as (r & -> & Hr).
    by apply attacker_above.
  - apply elem_of_attack_users.
Qed.

Lemma attacker_fresh : A ∉ user_id <$> df.
Proof.
  intros Hin. apply list_elem_of_fmap in Hin as (r & HA & Hr).
  apply attacker_above in Hr. lia.
Qed.

Lemma attacked_item_to_idx :
  item_to_idx (ItemItemCFModel_init (df ++ attack_rows A T x push) titles)
  = item_to_idx (ItemItemCFModel_init df titles).
Proof.
  change (dict_of (imap (λ j m, (m, j)) (items_of (df ++ attack_rows A T x push)))
          = dict_of (imap (λ j m, (m, j)) (items_of df))).
  by rewrite attacked_items.
Qed.

Lemma attacked_idx_to_item :
  idx_to_item (ItemItemCFModel_init (df ++ attack_rows A T x push) titles)
  = idx_to_item (ItemItemCFModel_init df titles).
Proof.
  change (dict_of (imap (λ j m, (j, m)) (items_of (df ++ attack_rows A T x push)))
          = dict_of (imap (λ j m, (j, m)) (items_of df))).
  by rewrite attacked_items.
Qed.

Lemma attacked_n_items :
  n_items (ItemItemCFModel_init (df ++ attack_rows A T x push) titles)
  = n_items (ItemItemCFModel_init df titles).
Proof.
  change (length (items_of (df ++ attack_rows A T x push)) = length (items_of df)).
  by rewrite attacked_items.
Qed.

Lemma attacked_user_lookup (uid : Z) (u : nat) :
  user_to_idx (ItemItemCFModel_init (df ++ attack_rows A T x push) titles) !! uid = Some u
  ↔ user_to_idx (ItemItemCFModel_init df titles) !! uid = Some u
    ∨ (uid = A ∧ u = length (users_of df)).
Proof.
  rewrite !init_user_to_idx, attacked_users. rewrite lookup_app_Some. split.
  - intros [?|[Hge Hlast]]; [by left|right].
    apply list_lookup_singleton_Some in Hlast as [Hu ->]. split; [done|lia].
  - intros [?|[-> ->]]; [by left|right]. split; [lia|].
    by rewrite Nat.sub_diag.
Qed.

Lemma attacked_user_to_idx :
  user_to_idx (ItemItemCFModel_init (df ++ attack_rows A T x push) titles)
  = <[A := length (users_of df)]> (user_to_idx (ItemItemCFModel_init df titles)).
Proof.
  apply map_eq. intros uid. apply option_eq. intros u.
  rewrite attacked_user_lookup, lookup_insert_Some. split.
  - intros [Hu|[-> ->]]; [|by left]. right. split; [|done]. intros <-.
    apply attacker_fresh. apply init_user_to_idx in Hu.
    apply (proj1 (elem_of_sorted_unique _ _)). by eapply list_elem_of_lookup_2.
  - intros [[<- <-]|[_ Hu]]; [by right|by left].
Qed.

Lemma attacked_R_length :
  length (R (ItemItemCFModel_init (df ++ attack_rows A T x push) titles))
  = S (length (R (ItemItemCFModel_init df titles))).
Proof.
  rewrite (proj1 (init_R_shape _ _)), (proj1 (init_R_shape _ _)).
  fold (users_of (df ++ attack_rows A T x push)). fold (users_of df).
  rewrite attacked_users, length_app. simpl. lia.
Qed.

Lemma attacked_R_genuine (uid : Z) (u j : nat) :
  user_to_idx (ItemItemCFModel_init df titles) !! uid = Some u →
  matrix_at (R (ItemItemCFModel_init (df ++ attack_rows A T x push) titles)) u j
  = matrix_at (R (ItemItemCFModel_init df titles)) u j.
Proof.
  intros Hu.
  assert (Hne : uid ≠ A).
  { intros ->. apply attacker_fresh. apply init_user_to_idx in Hu.
    apply (proj1 (elem_of_sorted_unique _ _)). by eapply list_elem_of_lookup_2. }
  destruct (decide (j < length (items_of df))) as [Hj|Hj].
  - apply lookup_lt_is_Some in Hj as [item Hitem].
    apply (proj2 (init_item_to_idx df titles item j)) in Hitem.
    rewrite (init_R_last df titles uid item u j Hu Hitem).
    rewrite (init_R_last (df ++ attack_rows A T x push) titles uid item u j).
    + rewrite last_rating_app.
      by rewrite (last_rating_other_user _ A) by (by apply attack_rows_user || done).
    + apply attacked_user_lookup. by left.
    + by rewrite attacked_item_to_idx.
  - rewrite !init_R_outside; [done| |].
    + intros [_ Hlt]. apply Hj. exact Hlt.
    + intros [_ Hlt]. apply Hj. rewrite attacked_n_items in Hlt. exact Hlt.
Qed.

Lemma attacked_R_attacker (item : Z) (j : nat) :
  item_to_idx (ItemItemCFModel_init df titles) !! item = Some j →
  matrix_at (R (ItemItemCFModel_init (df ++ attack_rows A T x push) titles))
            (length (users_of df)) j
  = if bool_decide (item ∈ T :: push) then x else 0%Q.
Proof.
  intros Hitem.
  rewrite (init_R_last (df ++ attack_rows A T x push) titles A item).
  - rewrite last_rating_app, last_rating_attack_rows.
    case_bool_decide; [done|].
    rewrite (proj2 (last_rating_None df A item)); [done|].
    intros r Hr [Hu _]. apply attacker_fresh. apply list_elem_of_fmap. by exists r.
  - apply attacked_user_lookup. by right.
  - by rewrite attacked_item_to_idx.
Qed.

Lemma attacked_row_genuine (uid : Z) (u : nat) :
  user_to_idx (ItemItemCFModel_init df titles) !! uid = Some u →
  R (ItemItemCFModel_init (df ++ attack_rows A T x push) titles) !! u
  = R (ItemItemCFModel_init df titles) !! u.
Proof.
  intros Hu.
  assert (Hlt : u < length (users_of df)).
  { apply init_user_to_idx in Hu. by apply lookup_lt_Some in Hu. }
  destruct (has_shape_row _ _ _ u (init_R_shape df titles) Hlt) as (row & Hrow & Hlen).
  destruct (has_shape_row _ _ _ u
              (init_R_shape (df ++ attack_rows A T x push) titles)) as (row' & Hrow' & Hlen').
  { fold (users_of (df ++ attack_rows A T x push)).
    rewrite attacked_users, length_app. simpl. lia. }
  rewrite Hrow, Hrow'. f_equal. rewrite attacked_n_items in Hlen'.
  apply list_eq_same_length with (n_items (ItemItemCFModel_init df titles)); [done..|].
  intros j y y' _ Hy Hy'.
  pose proof (attacked_R_genuine uid u j Hu) as Heq. unfold matrix_at in Heq.
  rewrite Hrow, Hrow' in Heq. simpl in Heq. rewrite Hy, Hy' in Heq. done.
Qed.

Lemma attacked_R_split :
  R (ItemItemCFModel_init (df ++ attack_rows A T x push) titles)
  = R (ItemItemCFModel_init df titles)
    ++ [user_row (ItemItemCFModel_init (df ++ attack_rows A T x push) titles)
                 (length (users_of df))].
Proof.
  pose proof (proj1 (init_R_shape df titles)) as Hlen. fold (users_of df) in Hlen.
  pose proof attacked_R_length as Hlen'. rewrite Hlen in Hlen'.
  apply list_eq. intros u.
  destruct (decide (u < length (users_of df))) as [Hu|Hu].
  - rewrite lookup_app_l by (by rewrite Hlen).
    apply lookup_lt_is_Some in Hu as [uid Huid].
    apply (proj2 (init_user_to_idx df titles uid u)) in Huid.
    by apply (attacked_row_genuine uid).
  - destruct (decide (u = length (users_of df))) as [->|Hne].
    + rewrite lookup_app_r by (by rewrite Hlen). rewrite Hlen, Nat.sub_diag. simpl.
      unfold user_row.
      destruct (R (ItemItemCFModel_init (df ++ attack_rows A T x push) titles)
                !! length (users_of df)) as [row|] eqn:Hrow; [done|].
      apply lookup_ge_None in Hrow. lia.
    + rewrite !lookup_ge_None_2; [done| |].
      * rewrite length_app, Hlen. simpl. lia.
      * lia.
Qed.

(** The summary of this section, for use at a table returned by
    [simulate_attack]. *)
Lemma attacked_model_indices :
  let mb := ItemItemCFModel_init df titles in
  let ma := ItemItemCFModel_init (df ++ attack_rows A T x push) titles in
  item_to_idx ma = item_to_idx mb ∧ idx_to_item ma = idx_to_item mb ∧
  n_items ma = n_items mb ∧
  user_to_idx ma = <[A := length (R mb)]> (user_to_idx mb) ∧
  length (R ma) = S (length (R mb)).
Proof.
  intros mb ma. split; [apply attacked_item_to_idx|].
  split; [apply attacked_idx_to_item|]. split; [apply attacked_n_items|].
  split; [|apply attacked_R_length].
  unfold ma, mb. rewrite attacked_user_to_idx.
  by rewrite (proj1 (init_R_shape df titles)).
Qed.

Lemma attacked_model_rows :
  let mb := ItemItemCFModel_init df titles in
  let attacked := df ++ attack_rows A T x push in
  let ma := ItemItemCFModel_init attacked titles in
  (∀ uid u, user_to_idx mb !! uid = Some u → R ma !! u = R mb !! u) ∧
  (∀ item j, item_to_idx mb !! item = Some j →
     matrix_at (R ma) (length (R mb)) j
     = if bool_decide (item ∈ item_id <$> rows_of attacked A) then x else 0%Q).
Proof.
  intros mb attacked ma. split; [apply attacked_row_genuine|].
  intros item j Hj. unfold attacked.
  rewrite (rows_of_attacked df A T x push attacker_fresh), attack_rows_items.
  unfold mb. rewrite (proj1 (init_R_shape df titles)).
  by apply attacked_R_attacker.
Qed.

Lemma attacked_model_similarity (a b : Z) (i j : nat) :
  let mb := ItemItemCFModel_init df titles in
  let attacked := df ++ attack_rows A T x push in
  let ma := ItemItemCFModel_init attacked titles in
  item_to_idx mb !! a = Some i → item_to_idx mb !! b = Some j →
  a ∉ item_id <$> rows_of attacked A → b ∉ item_id <$> rows_of attacked A →
  matrix_at (sim ma) i j = matrix_at (sim mb) i j.
Proof.
  intros mb attacked ma Hi Hj Ha Hb. unfold attacked in Ha, Hb.
  rewrite (rows_of_attacked df A T x push attacker_fresh), attack_rows_items in Ha, Hb.
  assert (Hzero : ∀ item k, item_to_idx mb !! item = Some k → item ∉ T :: push →
            default 0%Q (user_row ma (length (users_of df)) !! k) = 0%Q).
  { intros item k Hk Hnot.
    change (default 0%Q (user_row ma (length (users_of df)) !! k))
      with (key_at (default [] (R ma !! length (users_of df))) k).
    rewrite matrix_at_row. unfold ma, attacked.
    rewrite (attacked_R_attacker item k Hk). by rewrite bool_decide_eq_false_2. }
  change (sim ma) with (similarity (R ma) (n_items ma)).
  change (sim mb) with (similarity (R mb) (n_items mb)).
  unfold ma, attacked. rewrite attacked_n_items, attacked_R_split.
  apply similarity_snoc_zero.
  - apply init_item_to_idx in Hi. by apply lookup_lt_Some in Hi.
  - apply init_item_to_idx in Hj. by apply lookup_lt_Some in Hj.
  - by apply (Hzero a).
  - by apply (Hzero b).
Qed.
End AttackedModel.

Section AttackComposition.
Context `{Environment}.

Lemma simulate_attack_push df (A T n : Z) (x : Q) attacked :
  choice_without_replacement → (0 ≤ n)%Z →
  simulate_attack df A T n x = Some attacked →
  ∃ push, attacked = df ++ attack_rows A T x push ∧ push ⊆+ other_items df T ∧
          length push = Z.to_nat n `min` length (other_items df T).
Proof.
  intros Hchoice Hn Hatt.
  destruct (simulate_attack_inv _ _ _ _ _ _ Hatt) as (push & -> & Hpush).
  exists push. split; [done|].
  destruct Hpush as [[Hlt Hdraw] | [Hge ->]]; [|split; [done|lia]].
  destruct (Hchoice (other_items df T) n) as (r & Hr & Hlen & Hsub); [lia|].
  assert (r = push) as -> by congruence. split; [done|lia].
Qed.

Lemma push_known_items df (T : Z) (push : list Z) :
  push ⊆+ other_items df T → ∀ it, it ∈ push → it ∈ item_id <$> df.
Proof.
  intros Hsub it Hit. apply (elem_of_submseteq _ _ _ Hit) in Hsub.
  by apply elem_of_other_items in Hsub as [? _].
Qed.

(** X13. Training on an attacked table does not move the genuine data:
    when the attacker id is larger than every user id of the table and the
    target is an item of the table, the model of the table returned by
    [simulate_attack] has the same item indices and the same number of
    items as the model of the original table, and its user indices are
    those of the original model with the attacker added at the next free
    row. *)
Theorem attack_keeps_indices df titles (A T n : Z) (x : Q) attacked :
  choice_without_replacement → (0 ≤ n)%Z →
  (∀ r, r ∈ df → (user_id r < A)%Z) → T ∈ item_id <$> df →
  simulate_attack df A T n x = Some attacked →
  let mb := ItemItemCFModel_init df titles in
  let ma := ItemItemCFModel_init attacked titles in
  item_to_idx ma = item_to_idx mb ∧ idx_to_item ma = idx_to_item mb ∧
  n_items ma = n_items mb ∧
  user_to_idx ma = <[A := length (R mb)]> (user_to_idx mb) ∧
  length (R ma) = S (length (R mb)).
Proof.
  intros Hchoice Hn Habove HT Hatt.
  destruct (simulate_attack_push df A T n x attacked Hchoice Hn Hatt)
    as (push & -> & Hsub & _).
  apply attacked_model_indices; [done..|]. by eapply push_known_items.
Qed.

(** X14. Under the same conditions the attack leaves every genuine user's
    row of [R] as it was, and the attacker's row holds the extreme rating
    at the items of the attacker's rows and 0 elsewhere. *)
Theorem attack_keeps_genuine_rows df titles (A T n : Z) (x : Q) attacked :
  choice_without_replacement → (0 ≤ n)%Z →
  (∀ r, r ∈ df → (user_id r < A)%Z) → T ∈ item_id <$> df →
  simulate_attack df A T n x = Some attacked →
  let mb := ItemItemCFModel_init df titles in
  let ma := ItemItemCFModel_init attacked titles in
  (∀ uid u, user_to_idx mb !! uid = Some u → R ma !! u = R mb !! u) ∧
  (∀ item j, item_to_idx mb !! item = Some j →
     matrix_at (R ma) (length (R mb)) j
     = if bool_decide (item ∈ item_id <$> rows_of attacked A) then x else 0%Q).
Proof.
  intros Hchoice Hn Habove HT Hatt.
  destruct (simulate_attack_push df A T n x attacked Hchoice Hn Hatt)
    as (push & -> & Hsub & _).
  apply attacked_model_rows; [done..|]. by eapply push_known_items.
Qed.

(** X15. Under the same conditions the attack changes no similarity
    between two items that the attacker did not rate: the entry of the
    similarity matrix for such a pair is the same in the model of the
    attacked table and in the model of the original table. *)
Theorem attack_keeps_untouched_similarity df titles (A T n : Z) (x : Q) attacked
    (a b : Z) (i j : nat) :
  choice_without_replacement → (0 ≤ n)%Z →
  (∀ r, r ∈ df → (user_id r < A)%Z) → T ∈ item_id <$> df →
  simulate_attack df A T n x = Some attacked →
  let mb := ItemItemCFModel_init df titles in
  let ma := ItemItemCFModel_init attacked titles in
  item_to_idx mb !! a = Some i → item_to_idx mb !! b = Some j →
  a ∉ item_id <$> rows_of attacked A → b ∉ item_id <$> rows_of attacked A →
  matrix_at (sim ma) i j = matrix_at (sim mb) i j.
Proof.
  intros Hchoice Hn Habove HT Hatt.
  destruct (simulate_attack_push df A T n x attacked Hchoice Hn Hatt)
    as (push & -> & Hsub & _).
  apply attacked_model_similarity; [done..|]. by eapply push_known_items.
Qed.

(** X25. Under the same conditions the attack leaves a prediction alone
    when it touches none of its inputs: for a genuine user, the predicted
    score of an item is the same in the model of the attacked table as in
    the model of the original table whenever the attacker rated neither
    that item nor any item the user has rated. *)
Theorem attack_keeps_untouched_prediction df titles (A T n : Z) (x : Q) attacked
    (uid b : Z) (u j : nat) :
  choice_without_replacement → (0 ≤ n)%Z →
  (∀ r, r ∈ df → (user_id r < A)%Z) → T ∈ item_id <$> df →
  simulate_attack df A T n x = Some attacked →
  let mb := ItemItemCFModel_init df titles in
  let ma := ItemItemCFModel_init attacked titles in
  user_to_idx mb !! uid = Some u → item_to_idx mb !! b = Some j →
  b ∉ item_id <$> rows_of attacked A →
  (∀ a i, item_to_idx mb !! a = Some i → (0 < matrix_at (R mb) u i)%Q →
     a ∉ item_id <$> rows_of attacked A) →
  key_at (scores_of ma u) j = key_at (scores_of mb u) j.
Proof.
  intros Hchoice Hn Habove HT Hatt.
  destruct (simulate_attack_push df A T n x attacked Hchoice Hn Hatt)
    as (push & -> & Hsub & _).
  pose proof (push_known_items df T push Hsub) as Hpush.
  intros mb ma Hu Hj Hb Hrated.
  destruct (attacked_model_indices df titles A T x push Habove HT Hpush)
    as (Hii & _ & Hni & Hui & _).
  destruct (attacked_model_rows df titles A T x push Habove HT Hpush) as [Hrows _].
  fold ma mb in Hii, Hni, Hui, Hrows.
  assert (Hjn : j < n_items mb).
  { apply init_item_to_idx in Hj. by apply lookup_lt_Some in Hj. }
  assert (Hrow : user_row ma u = user_row mb u).
  { unfold user_row. by rewrite (Hrows uid u Hu). }
  assert (Hua : user_to_idx ma !! uid = Some u).
  { rewrite Hui. rewrite lookup_insert_ne; [done|]. intros <-.
    apply (attacker_fresh df A Habove). apply init_user_to_idx in Hu.
    apply (proj1 (elem_of_sorted_unique _ _)). by eapply list_elem_of_lookup_2. }
  unfold scores_of. rewrite !predict_scores_at by (by rewrite ?Hni).
  rewrite Hrow. unfold predict.
  destruct (default false (rated_mask (user_row mb u) !! j)); [done|].
  assert (Hlen : length (user_row mb u) = n_items mb)
    by apply (init_user_row df titles uid u Hu).
  assert (Hsims : mask_select (default [] (sim ma !! j)) (rated_mask (user_row mb u))
                  = mask_select (default [] (sim mb !! j)) (rated_mask (user_row mb u))).
  { rewrite !mask_select_rated.
    - apply list_fmap_ext. intros k i Hk.
      apply list_elem_of_lookup_2, list_elem_of_filter in Hk as [Hpos Hi].
      apply elem_of_seq in Hi as [_ Hi]. simpl in Hi. rewrite Hlen in Hi.
      rewrite !matrix_at_row.
      unfold user_row in Hpos. rewrite matrix_at_row in Hpos.
      destruct (lookup_lt_is_Some_2 (items_of df) i Hi) as [a Ha].
      apply (proj2 (init_item_to_idx df titles a i)) in Ha.
      apply (attacked_model_similarity df titles A T x push Habove HT Hpush b a j i);
        [done..|]. by apply (Hrated a i).
    - rewrite Hlen. by apply (init_sim_row df titles j).
    - rewrite Hlen, <- Hni. apply (init_sim_row (df ++ attack_rows A T x push) titles j).
      fold ma. by rewrite Hni. }
  by rewrite Hsims.
Qed.
End AttackComposition.

Lemma Qsum_positive (l : list Q) :
  l ≠ [] → Forall (λ y, 0 < y)%Q l → (0 < Qsum l)%Q.
Proof.
  intros Hne Hall. induction Hall as [|y l Hy Hall IH]; [done|].
  change (Qsum (y :: l)) with (y + Qsum l)%Q.
  destruct l as [|z l]; [simpl; lra|].
  assert (0 < Qsum (z :: l))%Q by (by apply IH). lra.
Qed.

Lemma np_mean_positive (l : list Q) :
  l ≠ [] → Forall (λ y, 0 < y)%Q l → (0 < np_mean l)%Q.
Proof.
  intros Hne Hall. unfold np_mean. apply Qlt_shift_div_l.
  - apply inject_nat_pos. destruct l; [done|simpl; lia].
  - rewrite Qmult_0_l. by apply Qsum_positive.
Qed.

Section DefendedModel.
Context `{Environment}.
Implicit Types (df : DataFrame) (titles : gmap Z string).

Lemma defended_users df tau :
  user_id <$> apply_defense df tau = user_id <$> df.
Proof.
  rewrite apply_defense_rows, <- list_fmap_compose. apply list_fmap_ext.
  intros i r _. apply defend_row_user.
Qed.

Lemma defended_items df tau :
  item_id <$> apply_defense df tau = item_id <$> df.
Proof.
  rewrite apply_defense_rows, <- list_fmap_compose. apply list_fmap_ext.
  intros i r _. apply defend_row_item.
Qed.

Lemma defended_last_rating df tau (uid item : Z) :
  last_rating (apply_defense df tau) uid item
  = (λ y, rating (defend_row tau df (mkRating uid item y))) <$> last_rating df uid item.
Proof.
  unfold last_rating. rewrite apply_defense_rows, list_filter_fmap_comm, fmap_last.
  rewrite (list_filter_ext_elem
             (λ r, user_id (defend_row tau df r) = uid ∧ item_id (defend_row tau df r) = item)
             (λ r, user_id r = uid ∧ item_id r = item))
    by (intros r _; by rewrite defend_row_user, defend_row_item).
  destruct (last (filter _ df)) as [r|] eqn:Hlast; [|done]. simpl. f_equal.
  assert (Hr : r ∈ filter (λ r, user_id r = uid ∧ item_id r = item) df).
  { apply last_Some in Hlast as [l' ->]. apply elem_of_app. right. by left. }
  apply list_elem_of_filter in Hr as [[<- <-] _]. by destruct r.
Qed.

Lemma defended_model_indices df tau titles :
  let m := ItemItemCFModel_init df titles in
  let md := ItemItemCFModel_init (apply_defense df tau) titles in
  user_to_idx md = user_to_idx m ∧ idx_to_user md = idx_to_user m ∧
  item_to_idx md = item_to_idx m ∧ idx_to_item md = idx_to_item m ∧
  n_items md = n_items m ∧ length (R md) = length (R m).
Proof.
  intros m md. unfold md, m.
  rewrite (proj1 (init_R_shape _ _)), (proj1 (init_R_shape _ _)).
  unfold ItemItemCFModel_init. cbn [user_to_idx idx_to_user item_to_idx idx_to_item n_items].
  by rewrite defended_users, defended_items.
Qed.

(** X16. Training on a defended table keeps every index: the model of
    [apply_defense df tau] has the same user and item dictionaries, the
    same number of items and as many rows in [R] as the model of [df];
    and an entry of [R] without a rating stays 0, while an entry with a
    rating holds what clipping makes of the last rating of that user for
    that item. *)
Theorem defense_keeps_indices df (tau : Q) titles :
  let m := ItemItemCFModel_init df titles in
  let md := ItemItemCFModel_init (apply_defense df tau) titles in
  (user_to_idx md = user_to_idx m ∧ idx_to_user md = idx_to_user m ∧
   item_to_idx md = item_to_idx m ∧ idx_to_item md = idx_to_item m ∧
   n_items md = n_items m ∧ length (R md) = length (R m)) ∧
  ∀ uid item u j, user_to_idx m !! uid = Some u ∧ item_to_idx m !! item = Some j →
    matrix_at (R md) u j
    = match last_rating df uid item with
      | Some y => rating (defend_row tau df (mkRating uid item y))
      | None => 0%Q
      end.
Proof.
  intros m md. split; [apply defended_model_indices|].
  intros uid item u j [Hu Hj].
  destruct (defended_model_indices df tau titles) as (Hui & _ & Hii & _).
  unfold md. rewrite (init_R_last (apply_defense df tau) titles uid item u j).
  - rewrite defended_last_rating. by destruct (last_rating df uid item).
  - by rewrite Hui.
  - by rewrite Hii.
Qed.

(** X17. For [tau >= 0] the defense keeps the set of items that counts as
    rated for a user whose ratings are all positive: an entry of that
    user's row of [R] is positive in the model of the defended table
    exactly when it is positive in the model of the original table. *)
Theorem defense_keeps_rated_items df (tau : Q) titles (uid item : Z) (u j : nat) :
  let m := ItemItemCFModel_init df titles in
  let md := ItemItemCFModel_init (apply_defense df tau) titles in
  (0 <= tau)%Q → (∀ r, r ∈ df → user_id r = uid → (0 < rating r)%Q) →
  user_to_idx m !! uid = Some u → item_to_idx m !! item = Some j →
  (0 < matrix_at (R md) u j)%Q ↔ (0 < matrix_at (R m) u j)%Q.
Proof.
  intros m md Htau Hpos Hu Hj.
  destruct (defended_model_indices df tau titles) as (Hui & _ & Hii & _).
  unfold md, m.
  rewrite (init_R_last (apply_defense df tau) titles uid item u j)
    by (by rewrite ?Hui, ?Hii).
  rewrite (init_R_last df titles uid item u j Hu Hj), defended_last_rating.
  destruct (last_rating df uid item) as [y|] eqn:Hlast; [|done]. simpl.
  apply last_rating_row in Hlast as (r & Hr & Hru & Hri & Hy).
  assert (Hypos : (0 < y)%Q) by (rewrite <- Hy; by apply Hpos).
  split; [done|]. intros _. unfold defend_row. simpl.
  destruct (Qltb _ _) eqn:Hsigma; [done|]. simpl. apply Qltb_false in Hsigma.
  set (mu := np_mean (user_ratings df uid)).
  set (sigma := np_std (user_ratings df uid)) in *.
  assert (Ht : (0 <= tau * sigma)%Q).
  { apply Qmult_le_0_compat; [done|]. unfold eps6 in Hsigma. lra. }
  assert (Hmu : (0 < mu)%Q).
  { apply np_mean_positive.
    - unfold user_ratings. intros Hnil. apply fmap_nil_inv in Hnil.
      assert (Hin : r ∈ filter (λ r, user_id r = uid) df) by (by apply list_elem_of_filter).
      rewrite Hnil in Hin. by apply elem_of_nil in Hin.
    - unfold user_ratings. apply Forall_fmap, Forall_forall. intros r' Hr'.
      apply list_elem_of_filter in Hr' as [Hu' Hr']. by apply Hpos. }
  destruct (np_clip_toward y mu (tau * sigma) Ht) as [Hlo _].
  eapply Qlt_le_trans; [|exact Hlo].
  destruct (Q.min_spec mu y) as [[_ ->]|[_ ->]]; done.
Qed.
End DefendedModel.

(** ** [ScenarioRecommender.__init__] *)

Lemma foldl_max_spec (t : list Z) (x : Z) :
  (x ≤ foldl Z.max x t)%Z ∧ (∀ y, y ∈ t → (y ≤ foldl Z.max x t)%Z) ∧
  (foldl Z.max x t = x ∨ foldl Z.max x t ∈ t).
Proof.
  revert x. induction t as [|z t IH]; intros x; simpl.
  - split; [lia|]. split; [|by left]. intros y Hy. by apply elem_of_nil in Hy.
  - destruct (IH (Z.max x z)) as (Hge & Hall & Hmem). split; [lia|]. split.
    + intros y Hy. apply elem_of_cons in Hy as [->|Hy]; [lia|by apply Hall].
    + destruct Hmem as [Heq|Hin]; [|right; by right].
      destruct (Z.max_spec x z) as [[_ Hm]|[_ Hm]]; rewrite Hm in *.
      * right. rewrite Heq. by left.
      * by left.
Qed.

Lemma series_max_spec (l : list Z) (mx : Z) :
  series_max l = Some mx → mx ∈ l ∧ ∀ y, y ∈ l → (y ≤ mx)%Z.
Proof.
  destruct l as [|x t]; [done|]. simpl. intros [= <-].
  destruct (foldl_max_spec t x) as (Hge & Hall & Hmem). split.
  - destruct Hmem as [->|Hin]; [by left|by right].
  - intros y Hy. apply elem_of_cons in Hy as [->|Hy]; [done|by apply Hall].
Qed.

Lemma occurrences_rating_count (df : DataFrame) (it : Z) :
  occurrences it (item_id <$> df) = rating_count df it.
Proof.
  unfold occurrences, rating_count, item_ratings.
  by rewrite list_filter_fmap_comm, !length_fmap.
Qed.

Lemma length_other_items (df : DataFrame) (T : Z) :
  T ∈ item_id <$> df →
  length (other_items df T) = length (items_of df) - 1.
Proof.
  intros HT. unfold other_items, items_of. rewrite sorted_Permutation.
  apply elem_of_unique in HT. pose proof (NoDup_unique (item_id <$> df)) as Hnd.
  induction Hnd as [|z l Hz Hnd IH]; [by apply elem_of_nil in HT|].
  destruct (decide (z = T)) as [->|Hne].
  - rewrite filter_cons_False by (intros Hn; by apply Hn).
    rewrite list_filter_all; [simpl; lia|]. intros y Hy ->. done.
  - rewrite filter_cons_True by done. simpl.
    apply elem_of_cons in HT as [->|HT]; [done|]. rewrite (IH HT).
    destruct l; [by apply elem_of_nil in HT|simpl; lia].
Qed.

Section ScenarioSpec.
Context `{Environment} `{Sampling}.
Implicit Types (base : DataFrame) (titles : gmap Z string).

Lemma elem_of_value_counts (l : list Z) (p : Z * nat) :
  value_counts_counts → p ∈ value_counts l ↔ p.1 ∈ l ∧ p.2 = occurrences p.1 l.
Proof.
  intros Hlaw. rewrite (Hlaw l), list_elem_of_fmap. split.
  - intros (y & -> & Hy). apply (proj1 (elem_of_unique _ _)) in Hy. by split.
  - intros [Hin Hocc]. exists p.1. split; [|by apply elem_of_unique].
    destruct p as [y c]. simpl in *. by rewrite Hocc.
Qed.

(** The population from which the target is drawn consists of items of
    the table, is not empty when the table is not, and consists of the
    items with at least 50 ratings when there is one. *)
Lemma target_population base :
  value_counts_counts →
  let item_counts := value_counts (item_id <$> base) in
  let popular := fst <$> filter (λ p, 50 ≤ p.2) item_counts in
  let population :=
    if bool_decide (length popular = 0) then fst <$> item_counts else popular in
  (base ≠ [] → population ≠ []) ∧
  ∀ it, it ∈ population →
    it ∈ item_id <$> base ∧
    ((∃ it', 50 ≤ rating_count base it') → 50 ≤ rating_count base it).
Proof.
  intros Hlaw item_counts popular population.
  assert (Hpop : ∀ it, it ∈ popular ↔ it ∈ item_id <$> base ∧ 50 ≤ rating_count base it).
  { intros it. unfold popular. rewrite list_elem_of_fmap. split.
    - intros (p & -> & Hp). apply list_elem_of_filter in Hp as [Hge Hp].
      apply (elem_of_value_counts _ _ Hlaw) in Hp as [Hin Hocc].
      rewrite occurrences_rating_count in Hocc. split; [done|lia].
    - intros [Hin Hge]. exists (it, rating_count base it). split; [done|].
      apply list_elem_of_filter. split; [done|].
      apply (elem_of_value_counts _ _ Hlaw). simpl.
      by rewrite occurrences_rating_count. }
  assert (Hall : ∀ it, it ∈ fst <$> item_counts ↔ it ∈ item_id <$> base).
  { intros it. rewrite list_elem_of_fmap. split.
    - intros (p & -> & Hp). by apply (elem_of_value_counts _ _ Hlaw) in Hp as [Hin _].
    - intros Hin. exists (it, occurrences it (item_id <$> base)). split; [done|].
      by apply (elem_of_value_counts _ _ Hlaw). }
  unfold population. case_bool_decide as Hnone; split.
  - intros Hbase Hnil. destruct base as [|r base]; [done|].
    assert (Hin : item_id r ∈ fst <$> item_counts) by (apply Hall; left).
    rewrite Hnil in Hin. by apply elem_of_nil in Hin.
  - intros it Hit. apply Hall in Hit. split; [done|]. intros [it' Hge].
    exfalso. destruct (decide (it' ∈ item_id <$> base)) as [Hin|Hnot].
    + assert (Hp : it' ∈ popular) by (by apply Hpop).
      destruct popular; [by apply elem_of_nil in Hp|done].
    + unfold rating_count, item_ratings in Hge.
      rewrite list_filter_none in Hge; [simpl in Hge; lia|].
      intros r Hr Heq. apply Hnot. apply list_elem_of_fmap. by exists r.
  - intros _ Hnil. by rewrite Hnil in Hnone.
  - intros it Hit. apply Hpop in Hit as [Hin Hge]. done.
Qed.

Lemma scenario_init_inv base titles scen :
  ScenarioRecommender_init base titles = Some scen →
  let item_counts := value_counts (item_id <$> base) in
  let popular := fst <$> filter (λ p, 50 ≤ p.2) item_counts in
  let population :=
    if bool_decide (length popular = 0) then fst <$> item_counts else popular in
  ∃ mx, series_max (user_id <$> base) = Some mx ∧ attacker_id scen = (mx + 1)%Z ∧
    rng_pick population = Some (target_item_id scen) ∧
    simulate_attack base (attacker_id scen) (target_item_id scen) 10 5
    = Some (attack_ratings scen) ∧
    defense_ratings scen = apply_defense (attack_ratings scen) (3 # 2) ∧
    base_ratings scen = base ∧
    baseline_model scen = ItemItemCFModel_init base titles ∧
    attack_model scen = ItemItemCFModel_init (attack_ratings scen) titles ∧
    defense_model scen = ItemItemCFModel_init (defense_ratings scen) titles.
Proof.
  intros Hinit item_counts popular population.
  unfold ScenarioRecommender_init in Hinit.
  destruct (series_max (user_id <$> base)) as [mx|]; [|done]. simpl in Hinit.
  fold item_counts popular population in Hinit.
  destruct (rng_pick population) as [target|]; [|done]. simpl in Hinit.
  destruct (simulate_attack base (mx + 1) target 10 5) as [attack|] eqn:Hatt; [|done].
  simpl in Hinit. injection Hinit as <-. simpl. by exists mx.
Qed.

Lemma scenario_init_total base titles :
  choice_without_replacement → value_counts_counts → rng_pick_member →
  base ≠ [] → is_Some (ScenarioRecommender_init base titles).
Proof.
  intros Hchoice Hcounts Hpick Hbase. unfold ScenarioRecommender_init.
  destruct base as [|r base]; [done|].
  change (series_max (user_id <$> r :: base))
    with (Some (foldl Z.max (user_id r) (user_id <$> base))). simpl.
  destruct (target_population (r :: base) Hcounts) as [Hne _].
  destruct (Hpick _ (Hne Hbase)) as (target & Htarget & _).
  simpl in Htarget. rewrite Htarget. simpl.
  destruct (simulate_attack_total (r :: base)
              (foldl Z.max (user_id r) (user_id <$> base) + 1) target 10 5 Hchoice)
    as [attack Hattack]; [lia|].
  simpl in Hattack. rewrite Hattack. by eexists.
Qed.

Lemma scenario_attacker_above base titles scen :
  ScenarioRecommender_init base titles = Some scen →
  ∀ r, r ∈ base → (user_id r < attacker_id scen)%Z.
Proof.
  intros Hinit r Hr.
  destruct (scenario_init_inv base titles scen Hinit) as (mx & Hmx & -> & _).
  apply series_max_spec in Hmx as [_ Hall].
  assert (user_id r ≤ mx)%Z; [|lia]. apply Hall, list_elem_of_fmap. by exists r.
Qed.

Lemma scenario_target_known base titles scen :
  value_counts_counts → rng_pick_member →
  ScenarioRecommender_init base titles = Some scen →
  target_item_id scen ∈ item_id <$> base ∧
  ((∃ it, 50 ≤ rating_count base it) → 50 ≤ rating_count base (target_item_id scen)).
Proof.
  intros Hcounts Hpick Hinit.
  destruct (scenario_init_inv base titles scen Hinit) as (mx & Hmx & _ & Htarget & _).
  destruct (target_population base Hcounts) as [Hne Hpop].
  assert (Hbase : base ≠ []) by (intros ->; done).
  destruct (Hpick _ (Hne Hbase)) as (target & Htarget' & Hin).
  rewrite Htarget in Htarget'. injection Htarget' as <-. by apply Hpop.
Qed.

(** X18. [ScenarioRecommender.__init__], given the contracts of
    [value_counts], of the draw of the target and of [rng.choice]: it
    fails exactly on an empty ratings table; otherwise the attacker id is
    one more than the largest user id, hence new; the target is an item of
    the table, and one with at least 50 ratings when the table has such an
    item; the attack table is the base table followed by the attacker's
    rating of the target and of [min(10, n_items - 1)] distinct other
    items of the table; and the defense table has as many rows as the
    attack table. *)
Theorem scenario_init_spec base titles :
  choice_without_replacement → value_counts_counts → rng_pick_member →
  (ScenarioRecommender_init base titles = None ↔ base = []) ∧
  ∀ scen, ScenarioRecommender_init base titles = Some scen →
    (∀ r, r ∈ base → (user_id r < attacker_id scen)%Z) ∧
    (∃ r, r ∈ base ∧ attacker_id scen = (user_id r + 1)%Z) ∧
    target_item_id scen ∈ item_id <$> base ∧
    ((∃ it, 50 ≤ rating_count base it) →
       50 ≤ rating_count base (target_item_id scen)) ∧
    ∃ push,
      attack_ratings scen
      = base ++ attack_rows (attacker_id scen) (target_item_id scen) 5 push ∧
      NoDup push ∧
      (∀ it, it ∈ push → it ∈ item_id <$> base ∧ it ≠ target_item_id scen) ∧
      length push = 10 `min` (n_items (baseline_model scen) - 1) ∧
      length (defense_ratings scen) = length base + 1 + length push.
Proof.
  intros Hchoice Hcounts Hpick. split.
  - split.
    + intros Hnone. destruct base as [|r base]; [done|].
      destruct (scenario_init_total (r :: base) titles Hchoice Hcounts Hpick) as [s Hs];
        [done|congruence].
    + by intros ->.
  - intros scen Hinit.
    destruct (scenario_target_known base titles scen Hcounts Hpick Hinit) as [HT Hpop].
    split; [by eapply scenario_attacker_above|].
    destruct (scenario_init_inv base titles scen Hinit)
      as (mx & Hmx & HA & _ & Hattack & Hdef & _ & Hmb & _).
    split.
    { apply series_max_spec in Hmx as [Hin _].
      apply list_elem_of_fmap in Hin as (r & -> & Hr). by exists r. }
    split; [done|]. split; [done|].
    destruct (simulate_attack_push base _ _ 10 5 _ Hchoice ltac:(lia) Hattack)
      as (push & Hrows & Hsub & Hlen).
    exists push. split; [done|].
    split; [eapply submseteq_NoDup; [done|apply NoDup_other_items]|].
    split.
    { intros it Hit. apply (elem_of_submseteq _ _ _ Hit) in Hsub.
      by apply elem_of_other_items in Hsub. }
    split.
    { rewrite Hlen, (length_other_items base _ HT), Hmb. done. }
    rewrite Hdef, apply_defense_rows, length_fmap, Hrows, length_app.
    unfold attack_rows. simpl. rewrite length_fmap. lia.
Qed.

(** X19. The three models of a scenario are indexed alike, given the same
    contracts: the item dictionaries and the number of items of the
    attack and defense models are those of the baseline model, so the
    target has one and the same column in all three; the attacker is
    unknown to the baseline model and has the row after the last genuine
    user in the other two; every genuine user's row of [R] is the same in
    the attack model as in the baseline model; and every user queried by
    the metrics loop is a genuine user. *)
Theorem scenario_models_share_indices base titles scen (max_users : Z) :
  choice_without_replacement → value_counts_counts → rng_pick_member →
  ScenarioRecommender_init base titles = Some scen →
  let mb := baseline_model scen in
  let ma := attack_model scen in
  let md := defense_model scen in
  item_to_idx ma = item_to_idx mb ∧ item_to_idx md = item_to_idx mb ∧
  n_items ma = n_items mb ∧ n_items md = n_items mb ∧
  is_Some (item_to_idx mb !! target_item_id scen) ∧
  user_to_idx mb !! attacker_id scen = None ∧
  user_to_idx ma = <[attacker_id scen := length (R mb)]> (user_to_idx mb) ∧
  user_to_idx md = user_to_idx ma ∧
  (∀ uid u, user_to_idx mb !! uid = Some u → R ma !! u = R mb !! u) ∧
  (∀ uid, uid ∈ sample_users scen max_users →
     is_Some (user_to_idx mb !! uid) ∧ uid ≠ attacker_id scen).
Proof.
  intros Hchoice Hcounts Hpick Hinit mb ma md.
  destruct (scenario_target_known base titles scen Hcounts Hpick Hinit) as [HT _].
  pose proof (scenario_attacker_above base titles scen Hinit) as Habove.
  destruct (scenario_init_inv base titles scen Hinit)
    as (mx & _ & _ & _ & Hattack & Hdef & Hbase & Hmb & Hma & Hmd).
  destruct (simulate_attack_push base _ _ 10 5 _ Hchoice ltac:(lia) Hattack)
    as (push & Hrows & Hsub & _).
  pose proof (push_known_items base _ push Hsub) as Hpush.
  destruct (attacked_model_indices base titles (attacker_id scen) (target_item_id scen)
              5 push Habove HT Hpush) as (Hii & _ & Hn & Hui & _).
  destruct (attacked_model_rows base titles (attacker_id scen) (target_item_id scen)
              5 push Habove HT Hpush) as [Hgenuine _].
  destruct (defended_model_indices (attack_ratings scen) (3 # 2) titles)
    as (Hdu & _ & Hdi & _ & Hdn & _).
  rewrite <- Hrows in Hii, Hn, Hui, Hgenuine.
  rewrite <- Hdef in Hdu, Hdi, Hdn.
  unfold mb, ma, md. rewrite Hmb, Hma, Hmd.
  assert (Hfresh : user_to_idx (ItemItemCFModel_init base titles) !! attacker_id scen = None).
  { apply init_user_unknown. intros Hin. apply list_elem_of_fmap in Hin as (r & HA & Hr).
    apply Habove in Hr. lia. }
  split; [done|]. split; [by rewrite Hdi|]. split; [done|].
  split; [by rewrite Hdn|]. split.
  { pose proof (proj2 (elem_of_sorted_unique _ _) HT) as Hin.
    apply list_elem_of_lookup in Hin as [k Hk].
    exists k. by apply init_item_to_idx. }
  split; [done|]. split; [done|]. split; [done|]. split; [done|].
  intros uid Huid. unfold sample_users in Huid. rewrite Hbase in Huid.
  pose proof (py_slice_to_sublist max_users (sorted (unique (user_id <$> base)))) as Hsl.
  assert (Hin : uid ∈ sorted (unique (user_id <$> base))).
  { destruct (py_slice_to_prefix max_users (sorted (unique (user_id <$> base)))) as [n Hn'].
    rewrite Hn' in Huid. by apply elem_of_take in Huid as (i & Hi & _);
      eapply list_elem_of_lookup_2. }
  split.
  - apply list_elem_of_lookup in Hin as [u Hu]. exists u. by apply init_user_to_idx.
  - intros ->. apply (proj1 (elem_of_sorted_unique _ _)) in Hin.
    apply list_elem_of_fmap in Hin as (r & HA & Hr). apply Habove in Hr. lia.
Qed.
End ScenarioSpec.

(** ** [fetch_poster_url]: the cache *)

Lemma fetch_poster_keeps (api_key : string) (tmdb : string → Response)
    (st : PosterState) (title k v : string) :
  poster_cache st !! k = Some v →
  poster_cache (fetch_poster api_key tmdb st title).2 !! k = Some v.
Proof.
  intros Hk. unfold fetch_poster.
  destruct (bool_decide _ || bool_decide _); [done|].
  destruct (poster_cache st !! cache_key title) as [url|] eqn:Hhit; [done|]. simpl.
  rewrite lookup_insert_ne; [done|]. intros <-. congruence.
Qed.

Lemma fetch_posters_keeps (api_key : string) (calls : list ((string → Response) * string))
    (st : PosterState) (k v : string) :
  poster_cache st !! k = Some v →
  poster_cache (fetch_posters api_key st calls) !! k = Some v.
Proof.
  revert st. induction calls as [|call calls IH]; intros st Hk; [done|].
  apply IH. by apply fetch_poster_keeps.
Qed.

Lemma fetch_poster_cached (api_key : string) (tmdb : string → Response)
    (st st' : PosterState) (title url : string) :
  api_key ≠ EmptyString → title ≠ EmptyString →
  fetch_poster api_key tmdb st title = (url, st') →
  poster_cache st' !! cache_key title = Some url.
Proof.
  intros Hkey Htitle. unfold fetch_poster.
  rewrite !bool_decide_eq_false_2 by done. simpl.
  destruct (poster_cache st !! cache_key title) as [cached|] eqn:Hhit.
  - by intros [= <- <-].
  - intros [= <- <-]. simpl. by rewrite lookup_insert_eq.
Qed.

Lemma fetch_poster_hit (api_key : string) (tmdb : string → Response)
    (st : PosterState) (title url : string) :
  api_key ≠ EmptyString → title ≠ EmptyString →
  poster_cache st !! cache_key title = Some url →
  fetch_poster api_key tmdb st title = (url, st).
Proof.
  intros Hkey Htitle Hhit. unfold fetch_poster.
  rewrite !bool_decide_eq_false_2 by done. simpl. by rewrite Hhit.
Qed.

(** X20. The poster cache answers for good: once [fetch_poster_url] has
    returned for a title (with an API key and a non-empty title), every
    later call for a title with the same cache key returns the same
    string, sends nothing to TMDB and leaves the state as it is, whatever
    calls were made in between and whatever TMDB would answer now; this
    includes the empty string cached after a failed request, which is
    never retried. *)
Theorem fetch_poster_answers_from_cache (api_key : string)
    (tmdb tmdb' : string → Response) (st st1 : PosterState) (title title' url : string)
    (calls : list ((string → Response) * string)) :
  api_key ≠ EmptyString → title ≠ EmptyString → title' ≠ EmptyString →
  cache_key title' = cache_key title →
  fetch_poster api_key tmdb st title = (url, st1) →
  let st2 := fetch_posters api_key st1 calls in
  fetch_poster api_key tmdb' st2 title' = (url, st2).
Proof.
  intros Hkey Htitle Htitle' Hsame Hfirst st2.
  apply fetch_poster_hit; [done..|]. rewrite Hsame.
  apply fetch_posters_keeps.
  exact (fetch_poster_cached api_key tmdb st st1 title url Hkey Htitle Hfirst).
Qed.

Lemma fetch_poster_queries (api_key : string) (tmdb : string → Response)
    (st : PosterState) (title : string) :
  let st' := (fetch_poster api_key tmdb st title).2 in
  st' = st ∨
  (api_key ≠ EmptyString ∧ poster_cache st !! cache_key title = None ∧
   poster_cache st' = <[cache_key title := poster_of (tmdb (clean_title title))]>
                        (poster_cache st) ∧
   queries st' = queries st ++ [clean_title title]).
Proof.
  unfold fetch_poster. case_bool_decide as Hkey; [by left|].
  case_bool_decide as Htitle; [by left|]. simpl.
  destruct (poster_cache st !! cache_key title) as [url|] eqn:Hhit; [by left|].
  right. done.
Qed.

Lemma fetch_posters_invariant (api_key : string)
    (calls : list ((string → Response) * string)) (st : PosterState) :
  NoDup (py_lower <$> queries st) →
  (∀ q, q ∈ queries st → is_Some (poster_cache st !! py_lower q)) →
  let st' := fetch_posters api_key st calls in
  NoDup (py_lower <$> queries st') ∧
  (∀ q, q ∈ queries st' → is_Some (poster_cache st' !! py_lower q)) ∧
  length (queries st') ≤ length (queries st) + length calls ∧
  (api_key = EmptyString → queries st' = queries st).
Proof.
  revert st. induction calls as [|[tmdb title] calls IH]; intros st Hnd Hcached.
  - simpl. repeat split; try done. lia.
  - simpl. set (st1 := (fetch_poster api_key tmdb st title).2).
    destruct (fetch_poster_queries api_key tmdb st title) as [Hsame|(Hkey & Hmiss & Hcache & Hq)];
      fold st1 in Hsame || fold st1 in Hcache, Hq.
    + rewrite Hsame. destruct (IH st Hnd Hcached) as (H1 & H2 & H3 & H4).
      repeat split; try done. lia.
    + destruct (IH st1) as (H1 & H2 & H3 & H4).
      * rewrite Hq, fmap_app. apply NoDup_app. split; [done|]. split.
        -- intros k Hk Hk'. apply list_elem_of_singleton in Hk' as ->.
           apply list_elem_of_fmap in Hk as (q & Hq' & Hin).
           destruct (Hcached q Hin) as [v Hv]. unfold cache_key in Hmiss.
           rewrite Hq' in Hmiss. congruence.
        -- apply NoDup_singleton.
      * intros q Hin. rewrite Hq in Hin. rewrite Hcache.
        apply elem_of_app in Hin as [Hin|Hin].
        -- destruct (Hcached q Hin) as [v Hv]. exists v.
           rewrite lookup_insert_ne; [done|]. intros Heq. congruence.
        -- apply list_elem_of_singleton in Hin as ->. unfold cache_key.
           rewrite lookup_insert_eq. by eexists.
      * repeat split; try done.
        rewrite Hq, length_app in H3. simpl in H3. lia.
Qed.

(** X21. Starting from the empty cache, after any sequence of calls of
    [fetch_poster_url], TMDB has been asked at most once per cache key:
    the queries sent are pairwise different even when compared without
    case, each of them has its answer in the cache, there are at most as
    many queries as calls, and none at all when no API key is set. *)
Theorem tmdb_asked_once_per_key (api_key : string)
    (calls : list ((string → Response) * string)) :
  let st := fetch_posters api_key empty_posters calls in
  NoDup (py_lower <$> queries st) ∧
  (∀ q, q ∈ queries st → is_Some (poster_cache st !! py_lower q)) ∧
  length (queries st) ≤ length calls ∧
  (api_key = EmptyString → queries st = []).
Proof.
  apply (fetch_posters_invariant api_key calls empty_posters).
  - apply NoDup_nil_2.
  - intros q Hq. by apply elem_of_nil in Hq.
Qed.

Lemma before_last_paren_none (y : string) :
  contains_char open_paren y = false → before_last_paren y = None.
Proof.
  induction y as [|c y IH]; [done|]. simpl. intros Hc.
  apply orb_false_iff in Hc as [Hc Hy]. by rewrite (IH Hy), Hc.
Qed.

Lemma before_last_paren_app (s y : string) :
  contains_char open_paren y = false →
  before_last_paren (String.append s (String open_paren y)) = Some s.
Proof.
  intros Hy. induction s as [|c s IH]; simpl.
  - by rewrite (before_last_paren_none y Hy).
  - by rewrite IH.
Qed.

(** X22. The cache key of a title drops whatever follows its last opening
    parenthesis, surrounding white space and case: for a text [y] without
    an opening parenthesis, the title [s(y] is looked up as the stripped
    [s] and cached under its lower-case form, so two titles that differ
    only in the year in parentheses get the same poster. *)
Theorem cache_key_drops_last_parenthesis (s y : string) :
  contains_char open_paren y = false →
  clean_title (String.append s (String open_paren y)) = py_strip s ∧
  cache_key (String.append s (String open_paren y)) = py_lower (py_strip s).
Proof.
  intros Hy. unfold cache_key, clean_title, rsplit_paren.
  by rewrite (before_last_paren_app s y Hy).
Qed.

(** ** The concrete sampling meets its contracts *)

Lemma stable_value_counts_counts : @value_counts_counts sampling.
Proof. intros l. apply sort_by_Permutation. Qed.

Lemma head_pick_member : @rng_pick_member sampling.
Proof.
  intros l Hne. destruct l as [|x l]; [done|]. exists x. split; [done|by left].
Qed.

(** ** The further properties at concrete inputs *)

Lemma R_holds_last_rating_witness :
  let df := [mkRating 1 1 3; mkRating 1 2 5; mkRating 1 1 4] in
  let m := @ItemItemCFModel_init env df ∅ in
  match last_rating df 1 1 with
  | Some x =>
      matrix_at (R m) 0 0 = x ∧
      ∃ before r after, df = before ++ r :: after ∧ user_id r = 1%Z ∧
        item_id r = 1%Z ∧ rating r = x ∧
        ∀ r', r' ∈ after → ¬ (user_id r' = 1%Z ∧ item_id r' = 1%Z)
  | None =>
      matrix_at (R m) 0 0 = 0%Q ∧
      ∀ r, r ∈ df → ¬ (user_id r = 1%Z ∧ item_id r = 1%Z)
  end.
Proof.
  apply (@R_holds_last_rating env
           [mkRating 1 1 3; mkRating 1 2 5; mkRating 1 1 4] ∅ 1 1 0 0);
    by_computation.
Defined.

Lemma store21_no_common_rater (uid : Z) :
  last_rating store21 uid 1 = None ∨ last_rating store21 uid 2 = None.
Proof.
  destruct (decide (uid = 21%Z)) as [->|Hne]; [left; by_computation|right].
  apply last_rating_None. intros r Hr [Hu Hi].
  apply list_elem_of_In in Hr. vm_compute in Hr.
  repeat (destruct Hr as [<-|Hr];
          [first [discriminate Hi | exfalso; apply Hne; symmetry; exact Hu]|]).
  destruct Hr.
Qed.

Lemma similarity_without_common_rater_witness :
  (matrix_at (sim (@ItemItemCFModel_init env store21 ∅)) 0 1 == 0)%Q.
Proof.
  apply (@similarity_without_common_rater env store21 ∅ 1 2 0 1);
    [by_computation|by_computation|apply store21_no_common_rater].
Defined.

Lemma apply_defense_keeps_order_witness :
  ∃ d1 d2,
    @apply_defense env small_store (3 # 2) !! 5 = Some d1 ∧
    @apply_defense env small_store (3 # 2) !! 4 = Some d2 ∧
    (rating d1 <= rating d2)%Q.
Proof.
  eexists. eexists. split; [vm_compute; reflexivity|].
  split; [vm_compute; reflexivity|].
  apply (@apply_defense_keeps_order env small_store (3 # 2) 5 4
           (mkRating 3 1 1) (mkRating 3 2 4)); by_computation.
Defined.

Lemma apply_defense_toward_mean_witness :
  ∃ d,
    @apply_defense env small_store (3 # 2) !! 4 = Some d ∧
    let mu := np_mean (user_ratings small_store 3) in
    let sigma := @np_std env (user_ratings small_store 3) in
    (Qmin mu 4 <= rating d)%Q ∧ (rating d <= Qmax mu 4)%Q ∧
    ((mu - (3 # 2) * sigma <= 4)%Q → (4 <= mu + (3 # 2) * sigma)%Q →
     (rating d == 4)%Q).
Proof.
  eexists. split; [vm_compute; reflexivity|].
  apply (@apply_defense_toward_mean env small_store (3 # 2) 4 (mkRating 3 2 4));
    by_computation.
Defined.

Lemma small_store_users_below (r : Rating) : r ∈ small_store → (user_id r < 4)%Z.
Proof.
  intros Hr. apply list_elem_of_In in Hr. vm_compute in Hr.
  repeat (destruct Hr as [<-|Hr]; [by_computation|]). destruct Hr.
Qed.

Lemma small_store_target_known : (1 : Z) ∈ item_id <$> small_store.
Proof. by left. Qed.

Lemma attack_keeps_indices_witness :
  ∃ attacked,
    @simulate_attack env small_store 4 1 10 5 = Some attacked ∧
    let mb := @ItemItemCFModel_init env small_store ∅ in
    let ma := @ItemItemCFModel_init env attacked ∅ in
    item_to_idx ma = item_to_idx mb ∧ idx_to_item ma = idx_to_item mb ∧
    n_items ma = n_items mb ∧
    user_to_idx ma = <[4%Z := length (R mb)]> (user_to_idx mb) ∧
    length (R ma) = S (length (R mb)).
Proof.
  eexists. split; [vm_compute; reflexivity|].
  apply (@attack_keeps_indices env small_store ∅ 4 1 10 5 _
           first_choice_without_replacement);
    [lia|apply small_store_users_below|apply small_store_target_known|by_computation].
Defined.

Lemma attack_keeps_genuine_rows_witness :
  ∃ attacked,
    @simulate_attack env small_store 4 1 10 5 = Some attacked ∧
    let mb := @ItemItemCFModel_init env small_store ∅ in
    let ma := @ItemItemCFModel_init env attacked ∅ in
    (∀ uid u, user_to_idx mb !! uid = Some u → R ma !! u = R mb !! u) ∧
    (∀ item j, item_to_idx mb !! item = Some j →
       matrix_at (R ma) (length (R mb)) j
       = if bool_decide (item ∈ item_id <$> rows_of attacked 4) then 5%Q else 0%Q).
Proof.
  eexists. split; [vm_compute; reflexivity|].
  apply (@attack_keeps_genuine_rows env small_store ∅ 4 1 10 5 _
           first_choice_without_replacement);
    [lia|apply small_store_users_below|apply small_store_target_known|by_computation].
Defined.

Lemma attack_keeps_untouched_similarity_witness :
  ∃ attacked,
    @simulate_attack env small_store 4 1 0 5 = Some attacked ∧
    matrix_at (sim (@ItemItemCFModel_init env attacked ∅)) 1 2
    = matrix_at (sim (@ItemItemCFModel_init env small_store ∅)) 1 2.
Proof.
  eexists. split; [vm_compute; reflexivity|].
  apply (@attack_keeps_untouched_similarity env small_store ∅ 4 1 0 5 _ 2 3 1 2
           first_choice_without_replacement);
    [lia|apply small_store_users_below|apply small_store_target_known
    |by_computation|by_computation|by_computation
    |apply (bool_decide_unpack _); vm_compute; exact I
    |apply (bool_decide_unpack _); vm_compute; exact I].
Defined.

Lemma small_store_user3_positive (r : Rating) :
  r ∈ small_store → user_id r = 3%Z → (0 < rating r)%Q.
Proof.
  intros Hr _. apply list_elem_of_In in Hr. vm_compute in Hr.
  repeat (destruct Hr as [<-|Hr]; [by_computation|]). destruct Hr.
Qed.

Lemma defense_keeps_rated_items_witness :
  (0 < matrix_at (R (@ItemItemCFModel_init env (@apply_defense env small_store (3 # 2)) ∅)) 2 1)%Q
  ↔ (0 < matrix_at (R (@ItemItemCFModel_init env small_store ∅)) 2 1)%Q.
Proof.
  apply (@defense_keeps_rated_items env small_store (3 # 2) ∅ 3 2 2 1);
    [by_computation|apply small_store_user3_positive|by_computation|by_computation].
Defined.

Lemma scenario_init_spec_witness :
  (@ScenarioRecommender_init env sampling small_store ∅ = None ↔ small_store = []) ∧
  ∀ scen, @ScenarioRecommender_init env sampling small_store ∅ = Some scen →
    (∀ r, r ∈ small_store → (user_id r < attacker_id scen)%Z) ∧
    (∃ r, r ∈ small_store ∧ attacker_id scen = (user_id r + 1)%Z) ∧
    target_item_id scen ∈ item_id <$> small_store ∧
    ((∃ it, 50 ≤ rating_count small_store it) →
       50 ≤ rating_count small_store (target_item_id scen)) ∧
    ∃ push,
      attack_ratings scen
      = small_store ++ attack_rows (attacker_id scen) (target_item_id scen) 5 push ∧
      NoDup push ∧
      (∀ it, it ∈ push → it ∈ item_id <$> small_store ∧ it ≠ target_item_id scen) ∧
      length push = 10 `min` (n_items (baseline_model scen) - 1) ∧
      length (defense_ratings scen) = length small_store + 1 + length push.
Proof.
  apply (@scenario_init_spec env sampling small_store ∅
           first_choice_without_replacement stable_value_counts_counts head_pick_member).
Defined.

Lemma scenario_models_share_indices_witness :
  ∃ scen, small_scenario = Some scen ∧
    let mb := baseline_model scen in
    let ma := attack_model scen in
    let md := defense_model scen in
    item_to_idx ma = item_to_idx mb ∧ item_to_idx md = item_to_idx mb ∧
    n_items ma = n_items mb ∧ n_items md = n_items mb ∧
    is_Some (item_to_idx mb !! target_item_id scen) ∧
    user_to_idx mb !! attacker_id scen = None ∧
    user_to_idx ma = <[attacker_id scen := length (R mb)]> (user_to_idx mb) ∧
    user_to_idx md = user_to_idx ma ∧
    (∀ uid u, user_to_idx mb !! uid = Some u → R ma !! u = R mb !! u) ∧
    (∀ uid, uid ∈ @sample_users scen 200 →
       is_Some (user_to_idx mb !! uid) ∧ uid ≠ attacker_id scen).
Proof.
  destruct small_scenario as [scen|] eqn:Hscen; [|by vm_compute in Hscen].
  exists scen. split; [done|].
  apply (@scenario_models_share_indices env sampling small_store ∅ scen 200
           first_choice_without_replacement stable_value_counts_counts head_pick_member
           Hscen).
Defined.

Lemma fetch_poster_answers_from_cache_witness :
  let tmdb : string → Response := λ _, search_results [Some "/a.jpg"%string] in
  let tmdb' : string → Response := λ _, request_failed in
  ∃ st1,
    fetch_poster "key" tmdb empty_posters "Sabrina (1954)"
    = ("https://image.tmdb.org/t/p/w342/a.jpg"%string, st1) ∧
    let st2 := fetch_posters "key" st1 [(tmdb', "Heat (1995)"%string)] in
    fetch_poster "key" tmdb' st2 "SABRINA  (1995)"
    = ("https://image.tmdb.org/t/p/w342/a.jpg"%string, st2).
Proof.
  intros tmdb tmdb'. eexists. split; [vm_compute; reflexivity|].
  apply (fetch_poster_answers_from_cache "key" tmdb tmdb' empty_posters _
           "Sabrina (1954)" "SABRINA  (1995)");
    [discriminate|discriminate|discriminate|vm_compute; reflexivity|vm_compute; reflexivity].
Defined.

Lemma cache_key_drops_last_parenthesis_witness :
  clean_title "Sabrina (1954)" = "Sabrina"%string ∧
  cache_key "Sabrina (1954)" = "sabrina"%string.
Proof.
  exact (cache_key_drops_last_parenthesis "Sabrina " "1954)" eq_refl).
Defined.

(** ** Scenario dispatch and the API routes *)

Section DispatchProperties.
Context `{Environment} `{Text}.

(** X23. [POST /api/recommend] labels its answer with the model that
    produced it: given that lower-casing leaves the three scenario names
    unchanged, the [scenario] field of the response is one of
    [baseline], [attack] and [defense], it is the lower-cased scenario of
    the request when that is one of the three and [baseline] otherwise,
    and the recommendations are those of the model of that name, although
    [ScenarioRecommender.recommend] lower-cases the name once more. *)
Theorem api_recommend_labels_its_model (scen : ScenarioRecommender)
    (req : RecommendRequest) :
  lower_keeps_names →
  let resp := api_recommend scen req in
  let asked := str_lower (req_scenario req) in
  resp_scenario resp ∈ ["baseline"; "attack"; "defense"]%string ∧
  (asked ∈ ["baseline"; "attack"; "defense"]%string → resp_scenario resp = asked) ∧
  (asked ∉ ["baseline"; "attack"; "defense"]%string →
     resp_scenario resp = "baseline"%string) ∧
  resp_recommendations resp
  = recommend (model_named scen (resp_scenario resp)) (req_user_id req) (req_top_k req) ∧
  resp_user_id resp = req_user_id req ∧ resp_top_k resp = req_top_k req.
Proof.
  intros (Hb & Ha & Hd) resp asked. unfold resp, api_recommend. fold asked. simpl.
  unfold ScenarioRecommender_recommend, model_named. simpl.
  case_bool_decide as Hin.
  - rewrite Hb. split; [by left|]. split; [done|]. split; [done|]. done.
  - split; [done|]. split; [done|]. split; [done|].
    split; [|done].
    apply elem_of_cons in Hin as [Heq|Hin]; [by rewrite Heq, Hb|].
    apply elem_of_cons in Hin as [Heq|Hin]; [by rewrite Heq, Ha|].
    apply list_elem_of_singleton in Hin. by rewrite Hin, Hd.
Qed.

(** X24. [POST /api/compare] returns, under the same condition, the
    recommendations of the baseline, attack and defense models for the
    same user and the same [top_k], each under its own name. *)
Theorem api_compare_three_models (scen : ScenarioRecommender) (req : CompareRequest) :
  lower_keeps_names →
  let resp := api_compare scen req in
  cmp_baseline resp = recommend (baseline_model scen) (cmp_user_id req) (cmp_top_k req) ∧
  cmp_attack resp = recommend (attack_model scen) (cmp_user_id req) (cmp_top_k req) ∧
  cmp_defense resp = recommend (defense_model scen) (cmp_user_id req) (cmp_top_k req).
Proof.
  intros (Hb & Ha & Hd) resp. unfold resp, api_compare, ScenarioRecommender_recommend.
  simpl. by rewrite Hb, Ha, Hd.
Qed.
End DispatchProperties.

Lemma latin1_lower_keeps_names : @lower_keeps_names latin1_text.
Proof. by repeat split. Qed.

Lemma api_recommend_labels_its_model_witness :
  ∃ scen, small_scenario = Some scen ∧
    let req := mkRecommendRequest "Attack" 1 5 in
    let resp := @api_recommend env latin1_text scen req in
    let asked := @str_lower latin1_text (req_scenario req) in
    resp_scenario resp ∈ ["baseline"; "attack"; "defense"]%string ∧
    (asked ∈ ["baseline"; "attack"; "defense"]%string → resp_scenario resp = asked) ∧
    (asked ∉ ["baseline"; "attack"; "defense"]%string →
       resp_scenario resp = "baseline"%string) ∧
    resp_recommendations resp
    = @recommend env (model_named scen (resp_scenario resp)) 1 5 ∧
    resp_user_id resp = 1%Z ∧ resp_top_k resp = 5%Z.
Proof.
  destruct small_scenario as [scen|] eqn:Hscen; [|by vm_compute in Hscen].
  exists scen. split; [done|].
  apply (@api_recommend_labels_its_model env latin1_text scen
           (mkRecommendRequest "Attack" 1 5) latin1_lower_keeps_names).
Defined.

Lemma api_compare_three_models_witness :
  ∃ scen, small_scenario = Some scen ∧
    let resp := @api_compare env latin1_text scen (mkCompareRequest 1 5) in
    cmp_baseline resp = @recommend env (baseline_model scen) 1 5 ∧
    cmp_attack resp = @recommend env (attack_model scen) 1 5 ∧
    cmp_defense resp = @recommend env (defense_model scen) 1 5.
Proof.
  destruct small_scenario as [scen|] eqn:Hscen; [|by vm_compute in Hscen].
  exists scen. split; [done|].
  apply (@api_compare_three_models env latin1_text scen (mkCompareRequest 1 5)
           latin1_lower_keeps_names).
Defined.

Lemma frame_store_users_below (r : Rating) : r ∈ frame_store → (user_id r < 4)%Z.
Proof.
  intros Hr. apply list_elem_of_In in Hr. vm_compute in Hr.
  repeat (destruct Hr as [<-|Hr]; [by_computation|]). destruct Hr.
Qed.

Lemma frame_store_user3_untouched (a : Z) (i : nat) :
  item_to_idx (@ItemItemCFModel_init env frame_store ∅) !! a = Some i →
  (0 < matrix_at (R (@ItemItemCFModel_init env frame_store ∅)) 2 i)%Q →
  a ∉ item_id <$> rows_of (frame_store ++ attack_rows 4 1 5 []) 4.
Proof.
  intros Hi Hpos Hin. apply list_elem_of_In in Hin. vm_compute in Hin.
  destruct Hin as [<-|[]]. vm_compute in Hi. injection Hi as <-.
  vm_compute in Hpos. discriminate Hpos.
Qed.

Lemma attack_keeps_untouched_prediction_witness :
  ∃ attacked,
    @simulate_attack env frame_store 4 1 0 5 = Some attacked ∧
    key_at (scores_of (@ItemItemCFModel_init env attacked ∅) 2) 3
    = key_at (scores_of (@ItemItemCFModel_init env frame_store ∅) 2) 3.
Proof.
  exists (frame_store ++ attack_rows 4 1 5 []). split; [by_computation|].
  apply (@attack_keeps_untouched_prediction env frame_store ∅ 4 1 0 5 _ 3 4 2 3
           first_choice_without_replacement);
    [lia|apply frame_store_users_below|by left|by_computation
    |by_computation|by_computation
    |apply (bool_decide_unpack _); vm_compute; exact I
    |apply frame_store_user3_untouched].
Defined.
